(** * GitOps-Time-Machine: a shallow embedding of the snapshot pipeline

    The development follows the Go packages of the repository:
    [types] (pkg/types), [analyzer] (pkg/analyzer), [versioner]
    (pkg/versioner), [timetravel] (pkg/timetravel), [snapshotter]
    (pkg/snapshotter) and [collector] (pkg/collector).  The first part holds
    the definitions, one module per package; the second part holds the
    lemmas and theorems about them.

    Conventions.
    - A Go [int] is a [Z]; a [time.Time] is the instant it denotes, a [Z].
    - A Go map is an [option (gmap string V)]: [None] is the nil map and
      [Some ∅] the empty map that was made.  A lookup in the nil map finds
      nothing, as in Go.
    - Go does not fix the order in which [range] visits a map.  Every such
      loop takes its keys from [range_order], a parameter that returns the
      keys it is given in some order.
    - [interface{}] values are the trees of [types.Value]. *)

From Stdlib Require Import Ascii String.
From stdpp Require Import gmap strings list fin_maps fin_sets sorting pretty.

Set Warnings "-register-all".

Open Scope Z_scope.

(** ** Go runtime notions shared by the packages *)

Module gomap.

(** [m[k]] with the comma-ok form: the nil map has no key. *)
Definition index {V} (m : option (gmap string V)) (k : string) : option V :=
  m ≫= (.!! k).

(** The key set of a map, empty for the nil map. *)
Definition keys {V} (m : option (gmap string V)) : gset string :=
  from_option dom ∅ m.

(** [len(m)] *)
Definition len {V} (m : gmap string V) : Z := Z.of_nat (size m).

Section Range.
Variable range_order : list string → list string.

(** [for k := range s] over a set of keys. *)
Definition range_set (s : gset string) : list string :=
  range_order (elements s).

(** [for k, v := range m] *)
Definition range {V} (m : gmap string V) : list (string * V) :=
  omap (λ k, pair k <$> m !! k) (range_set (dom m)).
End Range.

(** An iteration order visits every key once. *)
Definition fair (range_order : list string → list string) : Prop :=
  ∀ l, range_order l ≡ₚ l.

End gomap.

(** ** pkg/types *)

Module types.

Abbreviation Time := Z (only parsing).

(** The values an [interface{}] holds in a decoded manifest: the nil
    interface, booleans, integers, strings, [[]interface{}] (nil or not),
    [map[string]interface{}] (nil or not) and the [map[string]string] of
    labels and annotations.  Floating-point leaves are left out. *)
Inductive Value : Type :=
  | VNil
  | VBool (b : bool)
  | VInt (n : Z)
  | VString (s : string)
  | VSlice (xs : option (list Value))
  | VMap (m : option (gmap string Value))
  | VStringMap (m : option (gmap string string)).

Fixpoint Value_eq_dec (v1 v2 : Value) {struct v1} : Decision (v1 = v2).
Proof.
  refine
    match v1, v2 with
    | VNil, VNil => left _
    | VBool a, VBool b => cast_if (decide (a = b))
    | VInt a, VInt b => cast_if (decide (a = b))
    | VString a, VString b => cast_if (decide (a = b))
    | VSlice a, VSlice b =>
        cast_if (@option_eq_dec _ (@list_eq_dec _ Value_eq_dec) a b)
    | VMap a, VMap b =>
        cast_if (@option_eq_dec _ (@gmap_eq_dec string _ _ _ Value_eq_dec) a b)
    | VStringMap a, VStringMap b => cast_if (decide (a = b))
    | _, _ => right _
    end; abstract congruence.
Defined.
#[global] Existing Instance Value_eq_dec.

(** Nesting depth of maps and slices. *)
Fixpoint value_depth (v : Value) : nat :=
  match v with
  | VSlice (Some xs) => S (foldr (λ x acc, value_depth x `max` acc) 0 xs)%nat
  | VMap (Some m) => S (map_fold (λ _ x acc, value_depth x `max` acc) 0 m)%nat
  | _ => 0%nat
  end.

Record Resource := mkResource {
  APIVersion : string;
  Kind : string;
  Namespace : string;
  Name : string;
  Labels : option (gmap string string);
  Annotations : option (gmap string string);
  Spec : option (gmap string Value);
  Data : option (gmap string Value);
  Raw : option (gmap string Value);
}.

(** [FullName] returns namespace/kind/name identifier for the resource. *)
Definition FullName (r : Resource) : string :=
  if decide (Namespace r = "") then Kind r +:+ "/" +:+ Name r
  else Namespace r +:+ "/" +:+ Kind r +:+ "/" +:+ Name r.

Record SnapshotMetadata := mkSnapshotMetadata {
  Timestamp : Time;
  ClusterName : string;
  Context : string;
  ResourceCount : Z;
  Namespaces : list string;
  CommitHash : string;
}.

Record ResourceSnapshot := mkResourceSnapshot {
  Metadata : SnapshotMetadata;
  Resources : list Resource;
}.

Record DriftSummary := mkDriftSummary {
  TotalResources : Z;
  AddedResources : Z;
  RemovedResources : Z;
  ModifiedResources : Z;
  UnchangedResources : Z;
}.

(** [type DriftType string] *)
Definition DriftType := string.
Definition DriftAdded : DriftType := "ADDED".
Definition DriftRemoved : DriftType := "REMOVED".
Definition DriftModified : DriftType := "MODIFIED".

Record FieldDiff := mkFieldDiff {
  Path : string;
  OldValue : Value;
  NewValue : Value;
}.

(** The fields [Type] and [Resource] of the Go struct are [EntryType] and
    [EntryResource] here. *)
Record DriftEntry := mkDriftEntry {
  EntryType : DriftType;
  EntryResource : Resource;
  FieldDiffs : list FieldDiff;
}.

Record DriftReport := mkDriftReport {
  ReportTimestamp : Time;
  BaseRef : string;
  TargetRef : string;
  Summary : DriftSummary;
  Entries : list DriftEntry;
}.

(** An entry of the snapshot history.  The fields [CommitHash],
    [Timestamp], [Message], [ResourceCount] and [Author] of the Go struct
    carry the prefix [History] here. *)
Record HistoryEntry := mkHistoryEntry {
  HistoryCommitHash : string;
  HistoryTimestamp : Time;
  HistoryMessage : string;
  HistoryResourceCount : Z;
  HistoryAuthor : string;
}.

End types.

(** ** reflect and sort, as far as the analyzer uses them *)

Module reflect.
Import types.

(** [reflect.DeepEqual] on [types.Value]: same dynamic type, equal leaves,
    slices and maps both nil or both made and equal element by element.
    Maps are kept in canonical form, so this is equality of the trees. *)
Definition DeepEqual (a b : Value) : bool := bool_decide (a = b).

End reflect.

Module sort.

(** [sort.Slice(s, less)] sorts by [less] and makes no promise on the
    order of elements that compare equal.  The model is a merge sort on
    "not less the other way round"; the analyzer only sorts lists whose
    keys are pairwise distinct, where every sorting algorithm returns the
    same list. *)
Definition Slice {A} (less : A → A → bool) (s : list A) : list A :=
  merge_sort (λ x y, ¬ less y x) s.

End sort.

(** ** pkg/analyzer *)

Module analyzer.
Import types.

Section Analyzer.
Variable range_order : list string → list string.

(** [indexResources] creates a map of FullName -> Resource. *)
Definition indexResources (resources : list Resource) : gmap string Resource :=
  foldl (λ index r, <[FullName r := r]> index) ∅ resources.

(** [deepCompareMap], with the recursion depth bounded by [fuel]. *)
Fixpoint deepCompareMap_fuel (fuel : nat) (prefix : string)
    (base target : option (gmap string Value)) : list FieldDiff :=
  match fuel with
  | O => []
  | S fuel =>
    match base, target with
    | None, None => []
    | _, _ =>
      let allKeys : gset string := gomap.keys base ∪ gomap.keys target in
      foldl (λ diffs k,
        let path := prefix +:+ "." +:+ k in
        match gomap.index base k with
        | None =>
            diffs ++ [ {| Path := path; OldValue := VNil;
                          NewValue := default VNil (gomap.index target k) |} ]
        | Some baseVal =>
          match gomap.index target k with
          | None =>
              diffs ++ [ {| Path := path; OldValue := baseVal; NewValue := VNil |} ]
          | Some targetVal =>
            match baseVal, targetVal with
            | VMap baseMap, VMap targetMap =>
                diffs ++ deepCompareMap_fuel fuel path baseMap targetMap
            | _, _ =>
                if negb (reflect.DeepEqual baseVal targetVal)
                then diffs ++ [ {| Path := path; OldValue := baseVal;
                                   NewValue := targetVal |} ]
                else diffs
            end
          end
        end) [] (gomap.range_set range_order allKeys)
    end
  end.

(** [deepCompareMap] recursively compares two maps and returns
    field-level diffs.  The fuel exceeds the depth of [base], which the
    recursion descends. *)
Definition deepCompareMap (prefix : string)
    (base target : option (gmap string Value)) : list FieldDiff :=
  deepCompareMap_fuel (S (value_depth (VMap base))) prefix base target.

(** [compareResources] performs a deep comparison of two resources. *)
Definition compareResources (base target : Resource) : list FieldDiff :=
  let diffs : list FieldDiff := [] in
  let diffs :=
    if negb (reflect.DeepEqual (VStringMap (Labels base)) (VStringMap (Labels target)))
    then diffs ++ [ {| Path := ".metadata.labels";
                       OldValue := VStringMap (Labels base);
                       NewValue := VStringMap (Labels target) |} ]
    else diffs in
  let diffs :=
    if negb (reflect.DeepEqual (VStringMap (Annotations base))
                               (VStringMap (Annotations target)))
    then diffs ++ [ {| Path := ".metadata.annotations";
                       OldValue := VStringMap (Annotations base);
                       NewValue := VStringMap (Annotations target) |} ]
    else diffs in
  let diffs :=
    if negb (reflect.DeepEqual (VMap (Spec base)) (VMap (Spec target)))
    then diffs ++ deepCompareMap ".spec" (Spec base) (Spec target)
    else diffs in
  let diffs :=
    if negb (reflect.DeepEqual (VMap (Data base)) (VMap (Data target)))
    then diffs ++ deepCompareMap ".data" (Data base) (Data target)
    else diffs in
  diffs.

(** The comparison function handed to [sort.Slice]. *)
Definition less (ei ej : DriftEntry) : bool :=
  if bool_decide (EntryType ei ≠ EntryType ej)
  then String.ltb (EntryType ei) (EntryType ej)
  else String.ltb (FullName (EntryResource ei)) (FullName (EntryResource ej)).

(** The three loops of [Compare] that append to [report.Entries]. *)
Definition removedEntries (baseIndex targetIndex : gmap string Resource)
    (entries : list DriftEntry) : list DriftEntry :=
  foldl (λ entries '(name, baseRes),
    match targetIndex !! name with
    | None => entries ++ [ {| EntryType := DriftRemoved; EntryResource := baseRes;
                              FieldDiffs := [] |} ]
    | Some _ => entries
    end) entries (gomap.range range_order baseIndex).

Definition addedEntries (baseIndex targetIndex : gmap string Resource)
    (entries : list DriftEntry) : list DriftEntry :=
  foldl (λ entries '(name, targetRes),
    match baseIndex !! name with
    | None => entries ++ [ {| EntryType := DriftAdded; EntryResource := targetRes;
                              FieldDiffs := [] |} ]
    | Some _ => entries
    end) entries (gomap.range range_order targetIndex).

Definition modifiedEntries (baseIndex targetIndex : gmap string Resource)
    (entries : list DriftEntry) : list DriftEntry :=
  foldl (λ entries '(name, baseRes),
    match targetIndex !! name with
    | Some targetRes =>
        let diffs := compareResources baseRes targetRes in
        if bool_decide (0 < Z.of_nat (length diffs))
        then entries ++ [ {| EntryType := DriftModified; EntryResource := targetRes;
                             FieldDiffs := diffs |} ]
        else entries
    | None => entries
    end) entries (gomap.range range_order baseIndex).

(** The summary loop: one counter per entry type. *)
Definition countEntry (summary : DriftSummary) (entry : DriftEntry) : DriftSummary :=
  if decide (EntryType entry = DriftAdded) then
    {| TotalResources := TotalResources summary;
       AddedResources := AddedResources summary + 1;
       RemovedResources := RemovedResources summary;
       ModifiedResources := ModifiedResources summary;
       UnchangedResources := UnchangedResources summary |}
  else if decide (EntryType entry = DriftRemoved) then
    {| TotalResources := TotalResources summary;
       AddedResources := AddedResources summary;
       RemovedResources := RemovedResources summary + 1;
       ModifiedResources := ModifiedResources summary;
       UnchangedResources := UnchangedResources summary |}
  else if decide (EntryType entry = DriftModified) then
    {| TotalResources := TotalResources summary;
       AddedResources := AddedResources summary;
       RemovedResources := RemovedResources summary;
       ModifiedResources := ModifiedResources summary + 1;
       UnchangedResources := UnchangedResources summary |}
  else summary.

(** [Compare] takes two snapshots and produces a DriftReport.  [now] is
    the reading of [time.Now().UTC()] at the call. *)
Definition Compare (now : Time) (base target : ResourceSnapshot) : DriftReport :=
  let baseIndex := indexResources (Resources base) in
  let targetIndex := indexResources (Resources target) in
  let entries := removedEntries baseIndex targetIndex [] in
  let entries := addedEntries baseIndex targetIndex entries in
  let entries := modifiedEntries baseIndex targetIndex entries in
  let entries := sort.Slice less entries in
  let summary :=
    {| TotalResources := gomap.len targetIndex; AddedResources := 0;
       RemovedResources := 0; ModifiedResources := 0; UnchangedResources := 0 |} in
  let summary := foldl countEntry summary entries in
  let summary :=
    {| TotalResources := TotalResources summary;
       AddedResources := AddedResources summary;
       RemovedResources := RemovedResources summary;
       ModifiedResources := ModifiedResources summary;
       UnchangedResources :=
         gomap.len baseIndex - RemovedResources summary - ModifiedResources summary |} in
  {| ReportTimestamp := now;
     BaseRef := CommitHash (Metadata base);
     TargetRef := CommitHash (Metadata target);
     Summary := summary;
     Entries := entries |}.

(** [HasDrift] returns true if the report contains any drift entries. *)
Definition HasDrift (report : DriftReport) : bool :=
  bool_decide (0 < Z.of_nat (length (Entries report))).

End Analyzer.

End analyzer.


(** ** pkg/config: the options the core packages read *)

Module config.

Record SnapshotConfig := mkSnapshotConfig {
  OutputDir : string;
  ResourceTypes : list string;
  Namespaces : list string;
  ExcludeNamespaces : list string;
  StripFields : list string;
}.

Record GitConfig := mkGitConfig {
  AuthorName : string;
  AuthorEmail : string;
  CommitMessagePrefix : string;
  Branch : string;
}.

Record Config := mkConfig {
  Kubeconfig : string;
  Context : string;
  Snapshot : SnapshotConfig;
  Git : GitConfig;
}.

End config.

(** ** go-git, as far as the versioner relies on it

    The repository is kept as explicit state.  A reference is modelled by the
    history it points to: the commit itself followed by its ancestors, newest
    first.  Trees are flat: a path relative to the root and the blob stored
    there; the [.git] directory is not part of the working tree. *)

Module git.
Import types.

(** A Go [error] value is its message; [option error] is [error] with
    [None] for nil. *)
Definition error := string.

Definition Tree := gmap string string.

(** [plumbing.Hash] is 20 bytes; [String] prints them as 40 hexadecimal
    digits. *)
Definition Hash := N.

Definition hex_digit (n : N) : Ascii.ascii :=
  default Ascii.zero (String.get (N.to_nat n) "0123456789abcdef").

Fixpoint hex_of (digits : nat) (n : N) (acc : string) : string :=
  match digits with
  | O => acc
  | S digits => hex_of digits (n `div` 16)%N (String (hex_digit (n `mod` 16)%N) acc)
  end.

Definition Hash_String (h : Hash) : string := hex_of 40 h "".

Record Signature := mkSignature {
  SigName : string;
  SigEmail : string;
  When : Time;
}.

Record Commit := mkCommit {
  CommitId : Hash;
  Author : Signature;
  Committer : Signature;
  Message : string;
  CommitTree : Tree;
  ParentId : option Hash;
}.

(** HEAD names a branch or, after a checkout by hash, is detached at a
    commit. *)
Inductive Head :=
  | OnBranch (name : string)
  | Detached (history : list Commit).

Record Repository := mkRepository {
  branches : gmap string (list Commit);
  HEAD : Head;
  index : Tree;
  worktree : Tree;
}.

(** [c1] was committed no earlier than [c2]. *)
Definition newer (c1 c2 : Commit) : Prop := When (Committer c2) ≤ When (Committer c1).

#[global] Instance newer_dec : RelDecision newer.
Proof. intros c1 c2. unfold newer. apply _. Defined.

(** The library calls that can report an I/O failure. *)
Inductive Op :=
  | OpWorktree | OpAdd | OpStatus | OpCommit | OpCommitObject
  | OpLog | OpForEach | OpCheckout.

Definition ErrReferenceNotFound : error := "reference not found".
Definition ErrObjectNotFound : error := "object not found".

Section Library.
(** [fault op] is the failure the environment makes [op] report, if any. *)
Variable fault : Op → option error.
(** The object id of a new commit: the SHA-1 of its encoding. *)
Variable object_id : string → Signature → Tree → option Hash → Hash.

(** The history HEAD resolves to; nothing on an unborn branch. *)
Definition head_history (r : Repository) : option (list Commit) :=
  match HEAD r with
  | OnBranch name =>
      match branches r !! name with
      | Some (c :: cs) => Some (c :: cs)
      | _ => None
      end
  | Detached (c :: cs) => Some (c :: cs)
  | Detached [] => None
  end.

Definition head_tree (r : Repository) : Tree :=
  match head_history r with
  | Some (c :: _) => CommitTree c
  | _ => ∅
  end.

(** [repo.Worktree()] *)
Definition Worktree (r : Repository) : option error := fault OpWorktree.

(** [w.AddWithOptions(&git.AddOptions{All: true})]: the index takes every
    addition, change and deletion of the working tree. *)
Definition AddAll (r : Repository) : error + Repository :=
  match fault OpAdd with
  | Some e => inl e
  | None => inr {| branches := branches r; HEAD := HEAD r;
                   index := worktree r; worktree := worktree r |}
  end.

(** [w.Status()] followed by [status.IsClean()]: nothing differs between
    the commit at HEAD, the index and the working tree. *)
Definition StatusIsClean (r : Repository) : error + bool :=
  match fault OpStatus with
  | Some e => inl e
  | None => inr (bool_decide (index r = head_tree r ∧ worktree r = index r))
  end.

(** [w.Commit(message, &git.CommitOptions{Author: author})]: a commit of
    the index on top of HEAD; the committer defaults to the author. *)
Definition CommitIndex (message : string) (author : Signature)
    (r : Repository) : error + (Hash * Repository) :=
  match fault OpCommit with
  | Some e => inl e
  | None =>
    let parents := default [] (head_history r) in
    let parent := CommitId <$> head parents in
    let c := {| CommitId := object_id message author (index r) parent;
                Author := author; Committer := author; Message := message;
                CommitTree := index r; ParentId := parent |} in
    let r' :=
      match HEAD r with
      | OnBranch name =>
          {| branches := <[name := c :: parents]> (branches r); HEAD := HEAD r;
             index := index r; worktree := worktree r |}
      | Detached _ =>
          {| branches := branches r; HEAD := Detached (c :: parents);
             index := index r; worktree := worktree r |}
      end in
    inr (CommitId c, r')
  end.

(** Every history the repository can reach a commit from. *)
Definition histories (r : Repository) : list (list Commit) :=
  match HEAD r with
  | Detached h => [h]
  | OnBranch _ => []
  end ++ (map_to_list (branches r)).*2.

(** The history that starts at the first commit satisfying [p]. *)
Fixpoint history_from (p : Commit → bool) (cs : list Commit) : option (list Commit) :=
  match cs with
  | [] => None
  | c :: cs' => if p c then Some cs else history_from p cs'
  end.

Definition find_history (p : Commit → bool) (r : Repository) : option (list Commit) :=
  head (omap (history_from p) (histories r)).

(** [repo.CommitObject(h)] *)
Definition CommitObject (h : Hash) (r : Repository) : error + Commit :=
  match fault OpCommitObject with
  | Some e => inl e
  | None =>
    match find_history (λ c, bool_decide (CommitId c = h)) r with
    | Some (c :: _) => inr c
    | _ => inl ErrObjectNotFound
    end
  end.

(** [repo.Log(&git.LogOptions{Order: git.LogOrderCommitterTime})]
    followed by [iter.ForEach]: the commits reachable from HEAD, latest
    committer time first.  The call fails on an unborn HEAD. *)
Definition Log (r : Repository) : error + list Commit :=
  match fault OpLog with
  | Some e => inl e
  | None =>
    match head_history r with
    | None => inl ErrReferenceNotFound
    | Some cs =>
        inr (merge_sort newer cs)
    end
  end.

(** [repo.Log(&git.LogOptions{})] followed by [iter.ForEach]: the commits
    reachable from HEAD, from the commit at HEAD back through the parents.
    The call fails on an unborn HEAD. *)
Definition LogDefault (r : Repository) : error + list Commit :=
  match fault OpLog with
  | Some e => inl e
  | None =>
    match head_history r with
    | None => inl ErrReferenceNotFound
    | Some cs => inr cs
    end
  end.

(** [w.Checkout(&git.CheckoutOptions{Hash: plumbing.NewHash(printed)})]:
    HEAD is detached at the commit whose id prints as [printed], and index
    and working tree take its tree.  An unknown id is an error and
    changes nothing. *)
Definition CheckoutHash (printed : string) (r : Repository) : error + Repository :=
  match fault OpCheckout with
  | Some e => inl e
  | None =>
    match find_history (λ c, bool_decide (Hash_String (CommitId c) = printed)) r with
    | Some (c :: cs) =>
        inr {| branches := branches r; HEAD := Detached (c :: cs);
               index := CommitTree c; worktree := CommitTree c |}
    | _ => inl ErrObjectNotFound
    end
  end.

(** [w.Checkout(&git.CheckoutOptions{Branch: refs/heads/name})]: HEAD
    names the branch again and index and working tree take the tree of
    its latest commit.  A missing branch is an error and changes
    nothing. *)
Definition CheckoutBranch (name : string) (r : Repository) : error + Repository :=
  match fault OpCheckout with
  | Some e => inl e
  | None =>
    match branches r !! name with
    | Some (c :: cs) =>
        inr {| branches := branches r; HEAD := OnBranch name;
               index := CommitTree c; worktree := CommitTree c |}
    | _ => inl ErrReferenceNotFound
    end
  end.
End Library.
End git.

(** ** pkg/versioner *)

Module versioner.
Import types.

Section Versioner.
Variable fault : git.Op → option git.error.
Variable object_id : string → git.Signature → git.Tree → option git.Hash → git.Hash.
(** [t.Format(time.RFC3339)] *)
Variable format_RFC3339 : Time → string.
(** [v.config] *)
Variable cfg : config.GitConfig.

(** The zero [time.Time], January 1 of year 1, in seconds from the epoch
    of the other instants. *)
Definition zero_Time : Time := -62135596800.

(** [Commit] stages all changes and creates a commit with snapshot
    metadata.  The result is the returned pair and the repository the
    call leaves behind. *)
Definition Commit (metadata : SnapshotMetadata) (repo : git.Repository)
    : (string * option git.error) * git.Repository :=
  match git.Worktree fault repo with
  | Some err => (("", Some ("failed to get worktree: " +:+ err)), repo)
  | None =>
    match git.AddAll fault repo with
    | inl err => (("", Some ("failed to stage changes: " +:+ err)), repo)
    | inr repo =>
      match git.StatusIsClean fault repo with
      | inl err => (("", Some ("failed to get status: " +:+ err)), repo)
      | inr clean =>
        if clean then (("", None), repo)
        else
          let message :=
            config.CommitMessagePrefix cfg +:+ " " +:+
            format_RFC3339 (Timestamp metadata) +:+ " — " +:+
            pretty (ResourceCount metadata) +:+ " resources across " +:+
            pretty (Z.of_nat (length (Namespaces metadata))) +:+ " namespaces" in
          let author :=
            {| git.SigName := config.AuthorName cfg;
               git.SigEmail := config.AuthorEmail cfg;
               git.When := Timestamp metadata |} in
          match git.CommitIndex fault object_id message author repo with
          | inl err => (("", Some ("failed to create commit: " +:+ err)), repo)
          | inr (commit, repo) =>
            match git.CommitObject fault commit repo with
            | inl err => (("", Some ("failed to get commit object: " +:+ err)), repo)
            | inr commitObj => ((git.Hash_String (git.CommitId commitObj), None), repo)
            end
          end
      end
    end
  end.

(** [CheckoutAt] checks out the snapshot repo at a given commit hash. *)
Definition CheckoutAt (commitHash : string) (repo : git.Repository)
    : option git.error * git.Repository :=
  match git.Worktree fault repo with
  | Some err => (Some ("failed to get worktree: " +:+ err), repo)
  | None =>
    match git.CheckoutHash fault commitHash repo with
    | inl err => (Some err, repo)
    | inr repo => (None, repo)
    end
  end.

(** [CheckoutBranch] returns to the configured branch. *)
Definition CheckoutBranch (repo : git.Repository) : option git.error * git.Repository :=
  match git.Worktree fault repo with
  | Some err => (Some ("failed to get worktree: " +:+ err), repo)
  | None =>
    match git.CheckoutBranch fault (config.Branch cfg) repo with
    | inl err => (Some err, repo)
    | inr repo => (None, repo)
    end
  end.

(** The callback of [iter.ForEach] in [FindCommitByTime], on the pair
    [(bestHash, bestTime)]. *)
Definition visit (target : Time) (best : string * Time) (c : git.Commit)
    : string * Time :=
  let '(bestHash, bestTime) := best in
  let commitTime := git.When (git.Author c) in
  if bool_decide (commitTime < target) || bool_decide (commitTime = target) then
    if bool_decide (bestHash = "") || bool_decide (bestTime < commitTime)
    then (git.Hash_String (git.CommitId c), commitTime)
    else (bestHash, bestTime)
  else (bestHash, bestTime).

(** [FindCommitByTime] returns the commit hash closest to (but not after)
    the given time. *)
Definition FindCommitByTime (target : Time) (repo : git.Repository)
    : string * option git.error :=
  match git.Log fault repo with
  | inl err => ("", Some ("failed to get log: " +:+ err))
  | inr commits =>
    let '(bestHash, bestTime) := foldl (visit target) ("", zero_Time) commits in
    match fault git.OpForEach with
    | Some err => ("", Some err)
    | None =>
      if bool_decide (bestHash = "")
      then ("", Some ("no snapshot found at or before " +:+ format_RFC3339 target))
      else (bestHash, None)
    end
  end.

(** When [iter.ForEach] reports a failure of its own, it has handed
    [delivered] commits to the callback before. *)
Variable delivered : nat.

(** The commits [iter.ForEach] hands to the callback. *)
Definition iterated (commits : list git.Commit) : list git.Commit :=
  match fault git.OpForEach with
  | Some _ => take delivered commits
  | None => commits
  end.

(** The callback of [iter.ForEach] in [History], on [entries], [count]
    and whether the callback has returned its error, which ends the
    iteration. *)
Definition historyVisit (limit : Z) (st : list HistoryEntry * Z * bool)
    (c : git.Commit) : list HistoryEntry * Z * bool :=
  let '(entries, count, stopped) := st in
  if stopped then st
  else if bool_decide (0 < limit) && bool_decide (limit ≤ count)
  then (entries, count, true)
  else (entries ++ [ {| HistoryCommitHash := git.Hash_String (git.CommitId c);
                        HistoryTimestamp := git.When (git.Author c);
                        HistoryMessage := git.Message c;
                        HistoryResourceCount := 0;
                        HistoryAuthor := git.SigName (git.Author c) |} ],
        count + 1, false).

(** [History] returns the commit log as a list of HistoryEntry; a nil
    slice is the empty list. *)
Definition History (limit : Z) (repo : git.Repository)
    : list HistoryEntry * option git.error :=
  match git.Log fault repo with
  | inl err => ([], Some ("failed to get log: " +:+ err))
  | inr commits =>
    let '(entries, count, stopped) :=
      foldl (historyVisit limit) ([], 0, false) (iterated commits) in
    let err := if stopped then Some "limit reached" else fault git.OpForEach in
    match err with
    | Some e => if bool_decide (e ≠ "limit reached") then ([], Some e) else (entries, None)
    | None => (entries, None)
    end
  end.

(** [GetCommitCount] returns the total number of commits in the
    repository.  The error of [iter.ForEach] is dropped. *)
Definition GetCommitCount (repo : git.Repository) : Z * option git.error :=
  match git.LogDefault fault repo with
  | inl err =>
      if bool_decide (err = git.ErrReferenceNotFound) then (0, None) else (0, Some err)
  | inr commits => (foldl (λ count _, count + 1) 0 (iterated commits), None)
  end.

End Versioner.
(** What is at the repository path: nothing, a directory with its files
    that holds no repository, or a repository. *)
Inductive Place :=
  | Missing
  | Plain (files : git.Tree)
  | Repo (repo : git.Repository).

(** The calls of [initRepo] that can report a failure. *)
Inductive InitOp := OpMkdirAll | OpPlainOpen | OpPlainInit | OpSetReference.

Definition ErrRepositoryNotExists : git.error := "repository does not exist".
Definition ErrRepositoryAlreadyExists : git.error := "repository already exists".

Section Init.
Variable fault : InitOp → option git.error.
Variable cfg : config.GitConfig.

(** [git.PlainOpen(path)] *)
Definition PlainOpen (place : Place) : git.error + git.Repository :=
  match fault OpPlainOpen with
  | Some e => inl e
  | None =>
    match place with
    | Repo repo => inr repo
    | _ => inl ErrRepositoryNotExists
    end
  end.

(** [git.PlainInit(path, false)]: an empty repository around the files
    that are there, with HEAD naming the unborn branch [master]. *)
Definition PlainInit (place : Place) : git.error + git.Repository :=
  match fault OpPlainInit with
  | Some e => inl e
  | None =>
    match place with
    | Repo _ => inl ErrRepositoryAlreadyExists
    | Plain files =>
        inr {| git.branches := ∅; git.HEAD := git.OnBranch "master";
               git.index := ∅; git.worktree := files |}
    | Missing =>
        inr {| git.branches := ∅; git.HEAD := git.OnBranch "master";
               git.index := ∅; git.worktree := ∅ |}
    end
  end.

(** [initRepo] initializes or opens the Git repository.  The result is the
    error and what is at the path afterwards; on success that is [v.repo].
    A failure to name the configured branch is logged as a warning. *)
Definition initRepo (place : Place) : option git.error * Place :=
  let made :=
    match place with
    | Missing =>
        match fault OpMkdirAll with
        | Some err => inl err
        | None => inr (Plain ∅)
        end
    | _ => inr place
    end in
  match made with
  | inl err => (Some ("failed to create repo directory: " +:+ err), place)
  | inr place =>
    match PlainOpen place with
    | inr repo => (None, Repo repo)
    | inl _ =>
      match PlainInit place with
      | inl err => (Some ("failed to initialize git repo: " +:+ err), place)
      | inr repo =>
        let repo :=
          if bool_decide (config.Branch cfg ≠ "master") then
            match fault OpSetReference with
            | Some _ => repo
            | None =>
                {| git.branches := git.branches repo;
                   git.HEAD := git.OnBranch (config.Branch cfg);
                   git.index := git.index repo; git.worktree := git.worktree repo |}
            end
          else repo in
        (None, Repo repo)
      end
    end
  end.

End Init.

End versioner.

(** ** pkg/timetravel *)

Module timetravel.
Import types.

(** How a call ends: it returns, or a run-time panic unwinds it. *)
Inductive exit (A : Type) :=
  | Return (a : A)
  | Panic (msg : string).
Arguments Return {A} a.
Arguments Panic {A} msg.

Section Engine.
Variable fault : git.Op → option git.error.
Variable format_RFC3339 : Time → string.
Variable cfg : config.GitConfig.
(** [e.snapshotter.Read()] on the working tree as it is at the call. *)
Variable Read : git.Tree → git.error + ResourceSnapshot.

Definition stamp (commitHash : string) (snapshot : ResourceSnapshot)
    : ResourceSnapshot :=
  {| Metadata :=
       {| Timestamp := Timestamp (Metadata snapshot);
          ClusterName := ClusterName (Metadata snapshot);
          Context := Context (Metadata snapshot);
          ResourceCount := ResourceCount (Metadata snapshot);
          Namespaces := Namespaces (Metadata snapshot);
          CommitHash := commitHash |};
     Resources := Resources snapshot |}.

(** [SnapshotByCommit] retrieves the infrastructure state at a specific
    commit.  [commitHash[:8]] in the first log line panics on a string
    shorter than eight bytes.  The deferred function runs once the
    checkout has succeeded, whatever the body returns; its own failure is
    logged as a warning. *)
Definition SnapshotByCommit (commitHash : string) (repo : git.Repository)
    : exit (option ResourceSnapshot * option git.error) * git.Repository :=
  if bool_decide (String.length commitHash < 8)%nat
  then (Panic "slice bounds out of range", repo)
  else
    match versioner.CheckoutAt fault commitHash repo with
    | (Some err, repo) =>
        (Return (None, Some ("failed to checkout commit " +:+ commitHash +:+
                             ": " +:+ err)), repo)
    | (None, repo) =>
      let result :=
        match Read (git.worktree repo) with
        | inl err =>
            (None, Some ("failed to read snapshot at commit " +:+ commitHash +:+
                         ": " +:+ err))
        | inr snapshot => (Some (stamp commitHash snapshot), None)
        end in
      let repo :=
        match versioner.CheckoutBranch fault cfg repo with
        | (Some err, repo) => repo
        | (None, repo) => repo
        end in
      (Return result, repo)
    end.

(** [SnapshotAt] retrieves the infrastructure state at a given time. *)
Definition SnapshotAt (target : Time) (repo : git.Repository)
    : exit (option ResourceSnapshot * option git.error) * git.Repository :=
  match versioner.FindCommitByTime fault format_RFC3339 target repo with
  | (_, Some err) =>
      (Return (None, Some ("failed to find snapshot at " +:+ format_RFC3339 target +:+
                           ": " +:+ err)), repo)
  | (commitHash, None) => SnapshotByCommit commitHash repo
  end.

(** [CompareTimeRange] compares infrastructure state between two points
    in time.  A nil snapshot returned without an error is handed on as it
    is. *)
Definition CompareTimeRange (from to : Time) (repo : git.Repository)
    : exit ((option ResourceSnapshot * option ResourceSnapshot) * option git.error)
      * git.Repository :=
  match SnapshotAt from repo with
  | (Panic msg, repo) => (Panic msg, repo)
  | (Return (_, Some err), repo) =>
      (Return ((None, None), Some ("failed to get snapshot at 'from' time: " +:+ err)),
       repo)
  | (Return (fromSnapshot, None), repo) =>
    match SnapshotAt to repo with
    | (Panic msg, repo) => (Panic msg, repo)
    | (Return (_, Some err), repo) =>
        (Return ((None, None), Some ("failed to get snapshot at 'to' time: " +:+ err)),
         repo)
    | (Return (toSnapshot, None), repo) =>
        (Return ((fromSnapshot, toSnapshot), None), repo)
    end
  end.

(** [ListResources] returns all resources at a given time matching
    optional filters.  Reading the resources of a nil snapshot panics. *)
Definition ListResources (target : Time) (kind namespace : string)
    (repo : git.Repository)
    : exit (list Resource * option git.error) * git.Repository :=
  match SnapshotAt target repo with
  | (Panic msg, repo) => (Panic msg, repo)
  | (Return (_, Some err), repo) => (Return ([], Some err), repo)
  | (Return (None, None), repo) => (Panic "nil pointer dereference", repo)
  | (Return (Some snapshot, None), repo) =>
      (Return (foldl (λ filtered res,
                 if bool_decide (kind ≠ "") && bool_decide (Kind res ≠ kind)
                 then filtered
                 else if bool_decide (namespace ≠ "")
                         && bool_decide (Namespace res ≠ namespace)
                 then filtered
                 else filtered ++ [res]) [] (Resources snapshot), None), repo)
  end.

End Engine.
End timetravel.

(** ** The directory tree under the output directory (package os)

    A path below the output directory is the list of its elements. *)

Module os.

Definition error := string.

Inductive Node : Type :=
  | File (data : string)
  | Dir (entries : gmap string Node).

(** The calls that can report an I/O failure, with what they act on. *)
Inductive Op :=
  | OpMkdirAll (path : list string)
  | OpReadDir
  | OpRemoveAll (name : string)
  | OpWriteFile (path : list string).

Section Calls.
Variable fault : Op → option error.

(** [os.MkdirAll] of the output directory itself: what is there stays,
    a missing directory is made, a file in its place is an error. *)
Definition MkdirAll_root (root : option Node) : error + gmap string Node :=
  match fault (OpMkdirAll []) with
  | Some e => inl e
  | None =>
    match root with
    | None => inr ∅
    | Some (Dir entries) => inr entries
    | Some (File _) => inl "not a directory"
    end
  end.

(** [os.ReadDir]: the names of the entries, sorted by filename. *)
Definition ReadDir (entries : gmap string Node) : error + list string :=
  match fault OpReadDir with
  | Some e => inl e
  | None => inr (merge_sort String.le (elements (dom entries)))
  end.

(** [os.RemoveAll] of an entry of the directory, with all it holds. *)
Definition RemoveAll (name : string) (entries : gmap string Node)
    : error + gmap string Node :=
  match fault (OpRemoveAll name) with
  | Some e => inl e
  | None => inr (delete name entries)
  end.

Fixpoint mkdir_all (path : list string) (entries : gmap string Node)
    : error + gmap string Node :=
  match path with
  | [] => inr entries
  | name :: rest =>
    match entries !! name with
    | Some (File _) => inl "not a directory"
    | Some (Dir sub) =>
        match mkdir_all rest sub with
        | inl e => inl e
        | inr sub => inr (<[name := Dir sub]> entries)
        end
    | None =>
        match mkdir_all rest ∅ with
        | inl e => inl e
        | inr sub => inr (<[name := Dir sub]> entries)
        end
    end
  end.

(** [os.MkdirAll] of a directory below the output directory. *)
Definition MkdirAll (path : list string) (entries : gmap string Node)
    : error + gmap string Node :=
  match fault (OpMkdirAll path) with
  | Some e => inl e
  | None => mkdir_all path entries
  end.

Fixpoint write_file (path : list string) (data : string) (entries : gmap string Node)
    : error + gmap string Node :=
  match path with
  | [] => inl "is a directory"
  | [name] =>
    match entries !! name with
    | Some (Dir _) => inl "is a directory"
    | _ => inr (<[name := File data]> entries)
    end
  | name :: rest =>
    match entries !! name with
    | Some (Dir sub) =>
        match write_file rest data sub with
        | inl e => inl e
        | inr sub => inr (<[name := Dir sub]> entries)
        end
    | _ => inl "no such file or directory"
    end
  end.

(** [os.WriteFile]: the file is made or overwritten; the directory that
    holds it must exist. *)
Definition WriteFile (path : list string) (data : string) (entries : gmap string Node)
    : error + gmap string Node :=
  match fault (OpWriteFile path) with
  | Some e => inl e
  | None => write_file path data entries
  end.
End Calls.
End os.

Module filepath.

(** [filepath.Walk]: what the walk visits below a node, the node itself
    first and the entries of a directory in lexical order, each with its
    path from the node; a file comes with its content, a directory with
    none. *)
Fixpoint Walk (node : os.Node) : list (list string * option string) :=
  match node with
  | os.File data => [([], Some data)]
  | os.Dir entries =>
      let below := Walk <$> entries in
      ([], None) ::
      (merge_sort String.le (elements (dom entries)) ≫= (λ name,
         (λ visit, (name :: visit.1, visit.2)) <$> default [] (below !! name)))
  end.

End filepath.

Module strings.

(** [strings.HasSuffix] *)
Definition HasSuffix (s suffix : string) : bool :=
  bool_decide (String.length suffix ≤ String.length s)%nat
  && bool_decide (String.substring (String.length s - String.length suffix)
                    (String.length suffix) s = suffix).

End strings.

(** ** pkg/snapshotter *)

Module snapshotter.
Import types.

(** [strings.ToLower] on the ASCII letters. *)
Definition to_lower_ascii (a : Ascii.ascii) : Ascii.ascii :=
  let n := Ascii.N_of_ascii a in
  if bool_decide (65 ≤ n ≤ 90)%N then Ascii.ascii_of_N (n + 32) else a.

Fixpoint ToLower (s : string) : string :=
  match s with
  | EmptyString => EmptyString
  | String a s => String (to_lower_ascii a) (ToLower s)
  end.

(** [sanitizeFilename] replaces characters that are invalid in filenames. *)
Definition invalid_in_filename : list Ascii.ascii :=
  String.list_ascii_of_string "/\:*?<>|" ++ [Ascii.ascii_of_nat 34].

Fixpoint sanitizeFilename (name : string) : string :=
  match name with
  | EmptyString => EmptyString
  | String a s =>
      String (if bool_decide (a ∈ invalid_in_filename) then "_"%char else a)
             (sanitizeFilename s)
  end.

(** [filepath.Join] of elements below the output directory: empty elements
    are dropped; each other element is taken as one path element. *)
Definition Join (elems : list string) : list string :=
  filter (λ e, e ≠ "") elems.

Section Snapshotter.
Variable fault : os.Op → option os.error.
(** [yaml.Marshal] of the metadata, of a raw object and of a resource. *)
Variable marshal_metadata : SnapshotMetadata → os.error + string.
Variable marshal_raw : gmap string Value → os.error + string.
Variable marshal_resource : Resource → os.error + string.

(** [cleanDirectory] removes all content except .git directory.  The
    state is what is at the output directory: nothing, a file or a
    directory.  Paths are kept relative to the output directory, also in
    the messages. *)
Definition cleanDirectory (root : option os.Node) : option os.error * option os.Node :=
  match os.MkdirAll_root fault root with
  | inl err => (Some err, root)
  | inr dir =>
    match os.ReadDir fault dir with
    | inl err => (Some err, Some (os.Dir dir))
    | inr entries =>
      let '(err, dir) :=
        foldl (λ '(err, dir) name,
          match err with
          | Some _ => (err, dir)
          | None =>
            if bool_decide (name = ".git") then (None, dir)
            else
              match os.RemoveAll fault name dir with
              | inl e => (Some ("failed to remove " +:+ name +:+ ": " +:+ e), dir)
              | inr dir => (None, dir)
              end
          end) (None, dir) entries in
      (err, Some (os.Dir dir))
    end
  end.

(** [writeMetadata] writes the snapshot metadata file. *)
Definition writeMetadata (snapshot : ResourceSnapshot) (dir : gmap string os.Node)
    : option os.error * gmap string os.Node :=
  match marshal_metadata (Metadata snapshot) with
  | inl err => (Some err, dir)
  | inr data =>
    match os.WriteFile fault (Join ["_metadata.yaml"]) data dir with
    | inl err => (Some err, dir)
    | inr dir => (None, dir)
    end
  end.

(** The directory of a resource below the output directory. *)
Definition resourceDir (resource : Resource) : list string :=
  if decide (Namespace resource = "")
  then Join ["_cluster"; ToLower (Kind resource)]
  else Join [Namespace resource; ToLower (Kind resource)].

(** [writeResource] writes a single resource to its appropriate file
    path. *)
Definition writeResource (resource : Resource) (dir : gmap string os.Node)
    : option os.error * gmap string os.Node :=
  let d := resourceDir resource in
  match os.MkdirAll fault d dir with
  | inl err =>
      (Some ("failed to create directory " +:+ String.concat "/" d +:+ ": " +:+ err), dir)
  | inr dir =>
    let filename := sanitizeFilename (Name resource) +:+ ".yaml" in
    let filePath := d ++ Join [filename] in
    let data :=
      match Raw resource with
      | Some raw => marshal_raw raw
      | None => marshal_resource resource
      end in
    match data with
    | inl err => (Some ("failed to marshal resource: " +:+ err), dir)
    | inr data =>
      match os.WriteFile fault filePath data dir with
      | inl err => (Some err, dir)
      | inr dir => (None, dir)
      end
    end
  end.

(** What [Write] does once the directory is clean: the metadata file,
    then every resource; a resource that cannot be written is logged and
    skipped. *)
Definition repopulate (snapshot : ResourceSnapshot) (dir : gmap string os.Node)
    : option os.error * gmap string os.Node :=
  match writeMetadata snapshot dir with
  | (Some err, dir) => (Some ("failed to write metadata: " +:+ err), dir)
  | (None, dir) =>
      (None, foldl (λ dir resource, (writeResource resource dir).2) dir
                   (Resources snapshot))
  end.

(** [Write] persists a ResourceSnapshot to disk. *)
Definition Write (snapshot : ResourceSnapshot) (root : option os.Node)
    : option os.error * option os.Node :=
  match cleanDirectory root with
  | (Some err, root) => (Some ("failed to clean output directory: " +:+ err), root)
  | (None, Some (os.Dir dir)) =>
      let '(err, dir) := repopulate snapshot dir in
      (err, Some (os.Dir dir))
  | (None, root) => (Some "not a directory", root)
  end.

End Snapshotter.
Section Reader.
(** The failure [os.ReadFile] reports for a path, and the failure the walk
    hands to its callback at a path, if any. *)
Variable read_fault walk_fault : list string → option os.error.
(** [yaml.Unmarshal] into the metadata and into a resource. *)
Variable unmarshal_metadata : string → os.error + SnapshotMetadata.
Variable unmarshal_resource : string → os.error + Resource.

(** [os.ReadFile] of a path below the output directory. *)
Fixpoint read_file (path : list string) (node : os.Node) : os.error + string :=
  match path, node with
  | [], os.File data => inr data
  | [], os.Dir _ => inl "is a directory"
  | name :: rest, os.Dir entries =>
      match entries !! name with
      | Some node => read_file rest node
      | None => inl "no such file or directory"
      end
  | _ :: _, os.File _ => inl "not a directory"
  end.

Definition ReadFile (path : list string) (root : option os.Node) : os.error + string :=
  match read_fault path with
  | Some e => inl e
  | None =>
    match root with
    | Some node => read_file path node
    | None => inl "no such file or directory"
    end
  end.

(** The callback of [filepath.Walk] in [Read], on the error it has returned
    or the resources read so far.  [info.Name()] is the last element of the
    path. *)
Definition readVisit (root : option os.Node) (st : os.error + list Resource)
    (visit : list string * option string) : os.error + list Resource :=
  match st with
  | inl err => inl err
  | inr resources =>
    match walk_fault visit.1 with
    | Some err => inl err
    | None =>
      let name := default "" (last visit.1) in
      if bool_decide (visit.2 = None) || bool_decide (name = "_metadata.yaml")
         || negb (strings.HasSuffix name ".yaml")
      then inr resources
      else
        match ReadFile visit.1 root with
        | inl err =>
            inl ("failed to read " +:+ String.concat "/" visit.1 +:+ ": " +:+ err)
        | inr resData =>
          match unmarshal_resource resData with
          | inl err =>
              inl ("failed to parse " +:+ String.concat "/" visit.1 +:+ ": " +:+ err)
          | inr resource => inr (resources ++ [resource])
          end
        end
    end
  end.

(** [Read] loads a snapshot from the disk directory structure.  A walk
    over a root that is not there hands its callback the failure of the
    lookup. *)
Definition Read (root : option os.Node) : os.error + ResourceSnapshot :=
  match ReadFile (Join ["_metadata.yaml"]) root with
  | inl err => inl ("failed to read metadata: " +:+ err)
  | inr data =>
    match unmarshal_metadata data with
    | inl err => inl ("failed to parse metadata: " +:+ err)
    | inr metadata =>
      let walked :=
        match root with
        | Some node => foldl (readVisit root) (inr []) (filepath.Walk node)
        | None => inl "no such file or directory"
        end in
      match walked with
      | inl err => inl ("failed to read snapshot: " +:+ err)
      | inr resources =>
          inr {| Metadata :=
                   {| Timestamp := Timestamp metadata;
                      ClusterName := ClusterName metadata;
                      Context := Context metadata;
                      ResourceCount := Z.of_nat (length resources);
                      Namespaces := Namespaces metadata;
                      CommitHash := CommitHash metadata |};
                 Resources := resources |}
      end
    end
  end.

End Reader.
End snapshotter.

(** ** pkg/collector *)

Module collector.
Import types.

Record GroupVersionResource := mkGVR {
  Group : string;
  Version : string;
  GVResource : string;
}.

(** [resourceMapping] maps friendly names to GVR. *)
Definition resourceMapping : gmap string GroupVersionResource :=
  list_to_map [
    ("deployments", mkGVR "apps" "v1" "deployments");
    ("statefulsets", mkGVR "apps" "v1" "statefulsets");
    ("daemonsets", mkGVR "apps" "v1" "daemonsets");
    ("services", mkGVR "" "v1" "services");
    ("configmaps", mkGVR "" "v1" "configmaps");
    ("secrets", mkGVR "" "v1" "secrets");
    ("persistentvolumeclaims", mkGVR "" "v1" "persistentvolumeclaims");
    ("serviceaccounts", mkGVR "" "v1" "serviceaccounts");
    ("ingresses", mkGVR "networking.k8s.io" "v1" "ingresses");
    ("networkpolicies", mkGVR "networking.k8s.io" "v1" "networkpolicies");
    ("cronjobs", mkGVR "batch" "v1" "cronjobs");
    ("roles", mkGVR "rbac.authorization.k8s.io" "v1" "roles");
    ("rolebindings", mkGVR "rbac.authorization.k8s.io" "v1" "rolebindings");
    ("clusterroles", mkGVR "rbac.authorization.k8s.io" "v1" "clusterroles");
    ("clusterrolebindings", mkGVR "rbac.authorization.k8s.io" "v1" "clusterrolebindings")
  ].

Section Collector.
Variable range_order : list string → list string.
(** [time.Now().UTC()] and [c.getClusterName()] at the call. *)
Variable now : Time.
Variable clusterName : string.
(** [c.collectResource(ctx, gvr)]: the normalized objects of one kind as
    the cluster lists them, or the failure of the list call. *)
Variable collectResource : GroupVersionResource → string + list Resource.
(** [c.config] *)
Variable cfg : config.Config.

(** [shouldExcludeNamespace] checks if a namespace is in the exclusion
    list. *)
Fixpoint inList (ns : string) (l : list string) : bool :=
  match l with
  | [] => false
  | x :: l => if decide (ns = x) then true else inList ns l
  end.

Definition shouldExcludeNamespace (ns : string) : bool :=
  inList ns (config.ExcludeNamespaces (config.Snapshot cfg)).

(** [shouldIncludeNamespace] checks if a namespace is in the inclusion
    list. *)
Definition shouldIncludeNamespace (ns : string) : bool :=
  inList ns (config.Namespaces (config.Snapshot cfg)).

(** The inner loop of [Collect] over the resources of one kind, on the
    pair of [snapshot.Resources] and [namespacesSet]. *)
Definition keep (acc : list Resource * gset string) (res : Resource)
    : list Resource * gset string :=
  let '(resources, namespacesSet) := acc in
  if shouldExcludeNamespace (Namespace res) then acc
  else if bool_decide (0 < Z.of_nat (length (config.Namespaces (config.Snapshot cfg))))
            && negb (shouldIncludeNamespace (Namespace res)) then acc
  else (resources ++ [res],
        if decide (Namespace res ≠ "") then {[Namespace res]} ∪ namespacesSet
        else namespacesSet).

(** [Collect] captures the current state of all configured resources. *)
Definition Collect : ResourceSnapshot :=
  let '(resources, namespacesSet) :=
    foldl (λ acc resType,
      match resourceMapping !! resType with
      | None => acc
      | Some gvr =>
        match collectResource gvr with
        | inl err => acc
        | inr resources => foldl keep acc resources
        end
      end) ([], ∅) (config.ResourceTypes (config.Snapshot cfg)) in
  {| Metadata :=
       {| Timestamp := now;
          ClusterName := clusterName;
          Context := config.Context cfg;
          ResourceCount := Z.of_nat (length resources);
          Namespaces := gomap.range_set range_order namespacesSet;
          CommitHash := "" |};
     Resources := resources |}.

End Collector.
Section Normalize.
Variable range_order : list string → list string.
Variable cfg : config.Config.
(** [c.dynamicClient.Resource(gvr).Namespace("").List(...)]: the objects of
    the items of the list, or the failure of the call. *)
Variable list_items : GroupVersionResource → string + list (gmap string Value).
(** The accessors of [unstructured.Unstructured] that [collectResource]
    calls on an item. *)
Variable GetAPIVersion GetKind GetNamespace GetName : gmap string Value → string.
Variable GetLabels GetAnnotations : gmap string Value → option (gmap string string).

(** [delete(metadata, key)] where [obj["metadata"]] is a map; the nil map
    is left as it is. *)
Definition deleteMetadata (key : string) (obj : gmap string Value) : gmap string Value :=
  match obj !! "metadata" with
  | Some (VMap (Some metadata)) => <["metadata" := VMap (Some (delete key metadata))]> obj
  | _ => obj
  end.

(** [stripFields] removes configured fields from the resource object. *)
Definition stripFields (obj : gmap string Value) : gmap string Value :=
  foldl (λ obj field,
    if decide (field = ".metadata.managedFields") then deleteMetadata "managedFields" obj
    else if decide (field = ".metadata.resourceVersion")
    then deleteMetadata "resourceVersion" obj
    else if decide (field = ".metadata.uid") then deleteMetadata "uid" obj
    else if decide (field = ".metadata.generation") then deleteMetadata "generation" obj
    else if decide (field = ".status") then delete "status" obj
    else obj) obj (config.StripFields (config.Snapshot cfg)).

Definition noisy : list string :=
  [ "kubectl.kubernetes.io/last-applied-configuration";
    "deployment.kubernetes.io/revision" ].

(** The inner loop of [cleanAnnotations] that sets [skip]. *)
Fixpoint isNoisy (k : string) (l : list string) : bool :=
  match l with
  | [] => false
  | n :: l => if decide (k = n) then true else isNoisy k l
  end.

(** [cleanAnnotations] removes noisy annotations from resources. *)
Definition cleanAnnotations (annotations : option (gmap string string))
    : option (gmap string string) :=
  match annotations with
  | None => None
  | Some annotations =>
    let cleaned : gmap string string :=
      foldl (λ cleaned '(k, v),
        if negb (isNoisy k noisy) then <[k := v]> cleaned else cleaned)
        ∅ (gomap.range range_order annotations) in
    if bool_decide (gomap.len cleaned = 0) then None else Some cleaned
  end.

(** [collectResource] fetches all instances of a specific resource type.
    The accessors read the object after [stripFields] has changed it in
    place. *)
Definition collectResource (gvr : GroupVersionResource) : string + list Resource :=
  match list_items gvr with
  | inl err => inl ("failed to list " +:+ GVResource gvr +:+ ": " +:+ err)
  | inr items =>
    inr (foldl (λ resources item,
      let obj := stripFields item in
      let res :=
        {| APIVersion := GetAPIVersion obj; Kind := GetKind obj;
           Namespace := GetNamespace obj; Name := GetName obj;
           Labels := GetLabels obj;
           Annotations := cleanAnnotations (GetAnnotations obj);
           Spec := match obj !! "spec" with Some (VMap spec) => spec | _ => None end;
           Data := match obj !! "data" with Some (VMap data) => data | _ => None end;
           Raw := Some obj |} in
      resources ++ [res]) [] items)
  end.

End Normalize.
End collector.

Import types.

(** * Part II: properties *)

(** ** Iteration over maps *)

Section RangeFacts.
Variable ro : list string → list string.
Hypothesis ro_fair : gomap.fair ro.

Lemma elem_of_range_set (s : gset string) (k : string) :
  k ∈ gomap.range_set ro s ↔ k ∈ s.
Proof. unfold gomap.range_set. rewrite (ro_fair _). apply elem_of_elements. Qed.

Lemma range_set_Permutation (s : gset string) : gomap.range_set ro s ≡ₚ elements s.
Proof. apply ro_fair. Qed.

Lemma omap_lookup_fst {V} (m : gmap string V) (l : list (string * V)) :
  Forall (λ kv, m !! kv.1 = Some kv.2) l →
  omap (λ k, pair k <$> m !! k) l.*1 = l.
Proof.
  induction 1 as [|[k v] l Hkv _ IH]; [done|].
  csimpl in *. rewrite Hkv. csimpl. by rewrite IH.
Qed.

Lemma range_Permutation {V} (m : gmap string V) : gomap.range ro m ≡ₚ map_to_list m.
Proof.
  unfold gomap.range.
  assert (gomap.range_set ro (dom m) ≡ₚ (map_to_list m).*1) as ->.
  { rewrite range_set_Permutation. apply NoDup_Permutation.
    - apply NoDup_elements.
    - apply NoDup_fst_map_to_list.
    - intros k. rewrite elem_of_elements, elem_of_dom, list_elem_of_fmap.
      split.
      + intros [v Hv]. exists (k, v). split; [done|]. by apply elem_of_map_to_list.
      + intros [[k' v] [-> Hkv]]. exists v. by apply elem_of_map_to_list. }
  rewrite omap_lookup_fst; [done|].
  apply Forall_forall. intros [k v] Hkv. by apply elem_of_map_to_list.
Qed.

End RangeFacts.

(** Appending in a loop builds the list of what each round appends. *)
Lemma foldl_append_omap {A B} (step : list B → A → list B) (f : A → option B) :
  (∀ acc x, step acc x = acc ++ option_list (f x)) →
  ∀ l acc, foldl step acc l = acc ++ omap f l.
Proof.
  intros Hstep l. induction l as [|x l IH]; intros acc; simpl.
  - by rewrite app_nil_r.
  - rewrite IH, Hstep. destruct (f x); simpl; by rewrite <-?app_assoc, ?app_nil_r.
Qed.

Lemma foldl_append_bind {A B} (step : list B → A → list B) (f : A → list B) :
  (∀ acc x, step acc x = acc ++ f x) →
  ∀ l acc, foldl step acc l = acc ++ (l ≫= f).
Proof.
  intros Hstep l. induction l as [|x l IH]; intros acc; simpl.
  - by rewrite app_nil_r.
  - rewrite IH, Hstep. by rewrite <-app_assoc.
Qed.

(** ** The index of a snapshot *)

(** The full names a snapshot holds. *)
Definition snapshot_names (s : ResourceSnapshot) : gset string :=
  list_to_set (FullName <$> Resources s).

(** The resource a list holds under a full name: the last one, when the name
    occurs more than once. *)
Definition resource_named (n : string) (rs : list Resource) : option Resource :=
  last (filter (λ r, FullName r = n) rs).

Lemma indexResources_snoc (rs : list Resource) (r : Resource) :
  analyzer.indexResources (rs ++ [r]) = <[FullName r := r]> (analyzer.indexResources rs).
Proof. unfold analyzer.indexResources. by rewrite foldl_app. Qed.

Lemma indexResources_lookup (rs : list Resource) (n : string) :
  analyzer.indexResources rs !! n = resource_named n rs.
Proof.
  unfold resource_named.
  induction rs as [|r rs IH] using rev_ind; [done|].
  rewrite indexResources_snoc, filter_app, filter_cons, filter_nil.
  destruct (decide (FullName r = n)) as [->|Hne].
  - by rewrite lookup_insert_eq, last_snoc.
  - by rewrite lookup_insert_ne, app_nil_r.
Qed.

Lemma indexResources_FullName (rs : list Resource) (n : string) (r : Resource) :
  analyzer.indexResources rs !! n = Some r → FullName r = n.
Proof.
  rewrite indexResources_lookup. unfold resource_named. intros Hlast.
  apply last_Some_elem_of, list_elem_of_filter in Hlast. tauto.
Qed.

Lemma dom_indexResources (rs : list Resource) :
  dom (analyzer.indexResources rs) = list_to_set (FullName <$> rs).
Proof.
  induction rs as [|r rs IH] using rev_ind; [apply dom_empty_L|].
  rewrite indexResources_snoc, dom_insert_L, IH, fmap_app, list_to_set_app_L.
  simpl. rewrite union_empty_r_L. apply (comm_L (∪)).
Qed.

(** ** The entries of a report *)

Definition removedEntry (targetIndex : gmap string Resource) (kv : string * Resource)
    : option DriftEntry :=
  match targetIndex !! kv.1 with
  | None => Some {| EntryType := DriftRemoved; EntryResource := kv.2; FieldDiffs := [] |}
  | Some _ => None
  end.

Definition addedEntry (baseIndex : gmap string Resource) (kv : string * Resource)
    : option DriftEntry :=
  match baseIndex !! kv.1 with
  | None => Some {| EntryType := DriftAdded; EntryResource := kv.2; FieldDiffs := [] |}
  | Some _ => None
  end.

Definition modifiedEntry (ro : list string → list string)
    (targetIndex : gmap string Resource) (kv : string * Resource) : option DriftEntry :=
  match targetIndex !! kv.1 with
  | Some targetRes =>
      let diffs := analyzer.compareResources ro kv.2 targetRes in
      if bool_decide (0 < Z.of_nat (length diffs))
      then Some {| EntryType := DriftModified; EntryResource := targetRes;
                   FieldDiffs := diffs |}
      else None
  | None => None
  end.

(** The entries before sorting, with the maps visited in a given order. *)
Definition entries_over (ro : list string → list string)
    (baseIndex targetIndex : gmap string Resource)
    (bs ts : list (string * Resource)) : list DriftEntry :=
  omap (removedEntry targetIndex) bs ++ omap (addedEntry baseIndex) ts
    ++ omap (modifiedEntry ro targetIndex) bs.

Lemma Compare_Entries ro now base target :
  Entries (analyzer.Compare ro now base target) =
    sort.Slice analyzer.less
      (entries_over ro (analyzer.indexResources (Resources base))
         (analyzer.indexResources (Resources target))
         (gomap.range ro (analyzer.indexResources (Resources base)))
         (gomap.range ro (analyzer.indexResources (Resources target)))).
Proof.
  unfold analyzer.Compare, entries_over. simpl. f_equal.
  generalize (analyzer.indexResources (Resources base)) as baseIndex.
  generalize (analyzer.indexResources (Resources target)) as targetIndex.
  intros targetIndex baseIndex.
  unfold analyzer.modifiedEntries, analyzer.addedEntries, analyzer.removedEntries.
  rewrite (foldl_append_omap _ (modifiedEntry ro targetIndex)); last first.
  { intros acc [k r]. unfold modifiedEntry. simpl.
    destruct (targetIndex !! k); simpl; [|by rewrite app_nil_r].
    case_bool_decide; simpl; by rewrite ?app_nil_r. }
  rewrite (foldl_append_omap _ (addedEntry baseIndex)); last first.
  { intros acc [k r]. unfold addedEntry. simpl.
    destruct (baseIndex !! k); simpl; by rewrite ?app_nil_r. }
  rewrite (foldl_append_omap _ (removedEntry targetIndex)); last first.
  { intros acc [k r]. unfold removedEntry. simpl.
    destruct (targetIndex !! k); simpl; by rewrite ?app_nil_r. }
  by rewrite app_nil_l, <-app_assoc.
Qed.

Lemma entries_over_Permutation ro bi ti bs bs' ts ts' :
  bs ≡ₚ bs' → ts ≡ₚ ts' → entries_over ro bi ti bs ts ≡ₚ entries_over ro bi ti bs' ts'.
Proof. intros Hb Ht. unfold entries_over. by rewrite Hb, Ht. Qed.

Lemma Slice_Permutation {A} (less : A → A → bool) (l : list A) : sort.Slice less l ≡ₚ l.
Proof. apply merge_sort_Permutation. Qed.

(** The entries of a report are, up to their order, those found by visiting
    the two indexes in the order of their lists of bindings. *)
Lemma Compare_Entries_Permutation ro now base target :
  gomap.fair ro →
  Entries (analyzer.Compare ro now base target) ≡ₚ
    entries_over ro (analyzer.indexResources (Resources base))
      (analyzer.indexResources (Resources target))
      (map_to_list (analyzer.indexResources (Resources base)))
      (map_to_list (analyzer.indexResources (Resources target))).
Proof.
  intros Hro. rewrite Compare_Entries, Slice_Permutation.
  apply entries_over_Permutation; by apply range_Permutation.
Qed.

(** ** Counting entries *)

Definition count_type (ty : DriftType) (l : list DriftEntry) : Z :=
  Z.of_nat (length (filter (λ e, EntryType e = ty) l)).

Lemma count_type_cons ty e l :
  count_type ty (e :: l) = (if decide (EntryType e = ty) then 1 else 0) + count_type ty l.
Proof. unfold count_type. rewrite filter_cons. case_decide; simpl; lia. Qed.

Lemma count_type_app ty l1 l2 :
  count_type ty (l1 ++ l2) = count_type ty l1 + count_type ty l2.
Proof. unfold count_type. rewrite filter_app, length_app. lia. Qed.

#[global] Instance count_type_Permutation ty : Proper ((≡ₚ) ==> (=)) (count_type ty).
Proof. intros l1 l2 Hl. unfold count_type. by rewrite Hl. Qed.

Lemma count_type_all ty l :
  Forall (λ e, EntryType e = ty) l → count_type ty l = Z.of_nat (length l).
Proof.
  induction 1 as [|e l He _ IH]; [done|].
  rewrite count_type_cons, IH, decide_True by done. simpl length. lia.
Qed.

Lemma count_type_none ty l :
  Forall (λ e, EntryType e ≠ ty) l → count_type ty l = 0.
Proof.
  induction 1 as [|e l He _ IH]; [done|].
  by rewrite count_type_cons, IH, decide_False.
Qed.

Lemma foldl_countEntry (s : DriftSummary) (l : list DriftEntry) :
  foldl analyzer.countEntry s l =
    {| TotalResources := TotalResources s;
       AddedResources := AddedResources s + count_type DriftAdded l;
       RemovedResources := RemovedResources s + count_type DriftRemoved l;
       ModifiedResources := ModifiedResources s + count_type DriftModified l;
       UnchangedResources := UnchangedResources s |}.
Proof.
  revert s. induction l as [|e l IH]; intros s.
  - destruct s. simpl. unfold count_type. simpl. f_equal; lia.
  - simpl. rewrite IH, !count_type_cons. unfold analyzer.countEntry.
    unfold DriftAdded, DriftRemoved, DriftModified in *.
    repeat case_decide; simpl; f_equal; try lia; congruence.
Qed.

Lemma removedEntry_type ti l :
  Forall (λ e, EntryType e = DriftRemoved ∧ FieldDiffs e = []) (omap (removedEntry ti) l).
Proof.
  apply Forall_forall. intros e [kv [_ He]]%list_elem_of_omap.
  unfold removedEntry in He. destruct (ti !! kv.1); by simplify_eq.
Qed.

Lemma addedEntry_type bi l :
  Forall (λ e, EntryType e = DriftAdded ∧ FieldDiffs e = []) (omap (addedEntry bi) l).
Proof.
  apply Forall_forall. intros e [kv [_ He]]%list_elem_of_omap.
  unfold addedEntry in He. destruct (bi !! kv.1); by simplify_eq.
Qed.

Lemma modifiedEntry_type ro ti l :
  Forall (λ e, EntryType e = DriftModified ∧ FieldDiffs e ≠ [])
    (omap (modifiedEntry ro ti) l).
Proof.
  apply Forall_forall. intros e [kv [_ He]]%list_elem_of_omap.
  unfold modifiedEntry in He. destruct (ti !! kv.1); [|done].
  simpl in He. case_bool_decide as Hlen; simplify_eq. simpl. split; [done|].
  intros Hnil. rewrite Hnil in Hlen. simpl in Hlen. lia.
Qed.

(** The bindings of a map that a partial function keeps are as many as the
    keys with the property that decides it. *)
Lemma length_omap_map_to_list {V B} (f : string * V → option B)
    (P : string → Prop) `{!∀ k, Decision (P k)} (m : gmap string V) :
  (∀ k v, m !! k = Some v → is_Some (f (k, v)) ↔ P k) →
  length (omap f (map_to_list m)) = size (filter P (dom m : gset string)).
Proof.
  induction m as [|k v m Hk IH] using map_ind; intros Hf.
  - rewrite map_to_list_empty, dom_empty_L, filter_empty_L, size_empty; [done|apply _].
  - rewrite map_to_list_insert by done. csimpl.
    assert (size (filter P (dom (<[k:=v]> m) : gset string)) =
            (size (filter P ({[k]} : gset string)) + size (filter P (dom m : gset string)))%nat)
      as ->.
    { rewrite dom_insert_L, filter_union_L by apply _. apply size_union.
      apply elem_of_disjoint. intros k' [_ Hk1]%elem_of_filter [_ Hk2]%elem_of_filter.
      apply elem_of_singleton in Hk1 as ->. by apply not_elem_of_dom in Hk. }
    specialize (Hf k v (lookup_insert_eq _ _ _)) as Hkv.
    assert (length (omap f (map_to_list m)) = size (filter P (dom m : gset string))) as IH'.
    { apply IH. intros k' v' Hk'. apply Hf. rewrite lookup_insert_ne; [done|]. congruence. }
    destruct (f (k, v)) as [y|] eqn:Hfk; simpl; rewrite IH'.
    + assert (filter P ({[k]} : gset string) = {[k]}) as ->.
      { rewrite filter_singleton_L by apply _. apply decide_True, Hkv. eauto. }
      by rewrite size_singleton.
    + assert (filter P ({[k]} : gset string) = ∅) as ->.
      { rewrite filter_singleton_L by apply _.
        apply decide_False. intros [y Hy]%Hkv. congruence. }
      by rewrite size_empty.
Qed.

(** The field comparison finds a difference between the resources that two
    snapshots hold under a full name. *)
Definition content_differs (ro : list string → list string)
    (base target : ResourceSnapshot) (n : string) : Prop :=
  match resource_named n (Resources base), resource_named n (Resources target) with
  | Some b, Some t => analyzer.compareResources ro b t ≠ []
  | _, _ => False
  end.

#[global] Instance content_differs_dec ro base target n :
  Decision (content_differs ro base target n).
Proof. unfold content_differs. repeat case_match; apply _. Defined.

Lemma Compare_Summary ro now base target :
  let report := analyzer.Compare ro now base target in
  Summary report =
    {| TotalResources := gomap.len (analyzer.indexResources (Resources target));
       AddedResources := count_type DriftAdded (Entries report);
       RemovedResources := count_type DriftRemoved (Entries report);
       ModifiedResources := count_type DriftModified (Entries report);
       UnchangedResources :=
         gomap.len (analyzer.indexResources (Resources base))
         - count_type DriftRemoved (Entries report)
         - count_type DriftModified (Entries report) |}.
Proof. unfold analyzer.Compare. simpl. rewrite foldl_countEntry. simpl. done. Qed.

Lemma count_type_entries_over ro bi ti bs ts :
  count_type DriftAdded (entries_over ro bi ti bs ts)
    = Z.of_nat (length (omap (addedEntry bi) ts))
  ∧ count_type DriftRemoved (entries_over ro bi ti bs ts)
    = Z.of_nat (length (omap (removedEntry ti) bs))
  ∧ count_type DriftModified (entries_over ro bi ti bs ts)
    = Z.of_nat (length (omap (modifiedEntry ro ti) bs)).
Proof.
  unfold entries_over. rewrite !count_type_app.
  pose proof (removedEntry_type ti bs) as Hr.
  pose proof (addedEntry_type bi ts) as Ha.
  pose proof (modifiedEntry_type ro ti bs) as Hm.
  repeat split.
  - rewrite (count_type_none _ (omap (removedEntry ti) bs)),
      (count_type_all _ (omap (addedEntry bi) ts)),
      (count_type_none _ (omap (modifiedEntry ro ti) bs)); [lia|..].
    + eapply Forall_impl; [exact Hm|]. by intros e [-> _].
    + eapply Forall_impl; [exact Ha|]. by intros e [-> _].
    + eapply Forall_impl; [exact Hr|]. by intros e [-> _].
  - rewrite (count_type_all _ (omap (removedEntry ti) bs)),
      (count_type_none _ (omap (addedEntry bi) ts)),
      (count_type_none _ (omap (modifiedEntry ro ti) bs)); [lia|..].
    + eapply Forall_impl; [exact Hm|]. by intros e [-> _].
    + eapply Forall_impl; [exact Ha|]. by intros e [-> _].
    + eapply Forall_impl; [exact Hr|]. by intros e [-> _].
  - rewrite (count_type_none _ (omap (removedEntry ti) bs)),
      (count_type_none _ (omap (addedEntry bi) ts)),
      (count_type_all _ (omap (modifiedEntry ro ti) bs)); [lia|..].
    + eapply Forall_impl; [exact Hm|]. by intros e [-> _].
    + eapply Forall_impl; [exact Ha|]. by intros e [-> _].
    + eapply Forall_impl; [exact Hr|]. by intros e [-> _].
Qed.

(** C1.  The summary of a report counts the distinct full names of the
    target (total), the names only the target holds (added), the names only
    the base holds (removed) and the names both hold whose resources the
    field comparison tells apart (modified); unchanged is the number of names
    of the base minus removed minus modified. *)
Theorem Compare_summary_counters ro now base target :
  gomap.fair ro →
  let summary := Summary (analyzer.Compare ro now base target) in
  let B := snapshot_names base in
  let T := snapshot_names target in
  TotalResources summary = Z.of_nat (size T)
  ∧ AddedResources summary = Z.of_nat (size (T ∖ B))
  ∧ RemovedResources summary = Z.of_nat (size (B ∖ T))
  ∧ ModifiedResources summary
      = Z.of_nat (size (filter (content_differs ro base target) (B ∩ T)))
  ∧ UnchangedResources summary
      = Z.of_nat (size B) - RemovedResources summary - ModifiedResources summary.
Proof.
  intros Hro summary B T. subst summary. rewrite Compare_Summary. simpl.
  rewrite !(Compare_Entries_Permutation ro now base target Hro).
  destruct (count_type_entries_over ro (analyzer.indexResources (Resources base))
    (analyzer.indexResources (Resources target))
    (map_to_list (analyzer.indexResources (Resources base)))
    (map_to_list (analyzer.indexResources (Resources target)))) as (-> & -> & ->).
  unfold gomap.len.
  assert (dom (analyzer.indexResources (Resources base)) = B) as HB
    by apply dom_indexResources.
  assert (dom (analyzer.indexResources (Resources target)) = T) as HT
    by apply dom_indexResources.
  rewrite <-!size_dom, HB, HT.
  rewrite (length_omap_map_to_list (addedEntry _) (λ k, k ∉ B)),
    (length_omap_map_to_list (removedEntry _) (λ k, k ∉ T)),
    (length_omap_map_to_list (modifiedEntry ro _) (content_differs ro base target)).
  - rewrite HB, HT.
    assert (filter (λ k, k ∉ B) T = T ∖ B) as ->.
    { apply set_eq. intros k. rewrite elem_of_filter, elem_of_difference. tauto. }
    assert (filter (λ k, k ∉ T) B = B ∖ T) as ->.
    { apply set_eq. intros k. rewrite elem_of_filter, elem_of_difference. tauto. }
    assert (filter (content_differs ro base target) B
            = filter (content_differs ro base target) (B ∩ T)) as ->; [|done].
    apply set_eq. intros k. rewrite !elem_of_filter, elem_of_intersection.
    split; [|tauto]. intros [Hk HkB]. repeat split; try done.
    unfold content_differs in Hk. rewrite <-HT. apply elem_of_dom.
    rewrite indexResources_lookup. by destruct (resource_named k (Resources target)),
      (resource_named k (Resources base)).
  - intros k b Hb. unfold modifiedEntry, content_differs. simpl.
    rewrite <-!indexResources_lookup, Hb.
    destruct (analyzer.indexResources (Resources target) !! k) as [t|]; [|by split; [intros []|]].
    case_bool_decide as Hlen; split; try done.
    + intros _ Hnil. rewrite Hnil in Hlen. simpl in Hlen. lia.
    + intros Hne. destruct (analyzer.compareResources ro b t); [done|].
      simpl in Hlen. lia.
  - intros k b Hb. unfold removedEntry. simpl. rewrite <-HT, not_elem_of_dom.
    destruct (analyzer.indexResources (Resources target) !! k);
      split; try done; try (by intros []); eauto.
  - intros k t Ht. unfold addedEntry. simpl. rewrite <-HB, not_elem_of_dom.
    destruct (analyzer.indexResources (Resources base) !! k);
      split; try done; try (by intros []); eauto.
Qed.

(** C9.  In every report a MODIFIED entry carries at least one field diff,
    and an ADDED or REMOVED entry carries none. *)
Theorem Compare_entries_field_diffs ro now base target :
  Forall (λ e,
      (EntryType e = DriftModified → FieldDiffs e ≠ [])
      ∧ (EntryType e = DriftAdded ∨ EntryType e = DriftRemoved → FieldDiffs e = []))
    (Entries (analyzer.Compare ro now base target)).
Proof.
  rewrite Compare_Entries, Slice_Permutation. unfold entries_over.
  rewrite !Forall_app. repeat split.
  - eapply Forall_impl; [apply removedEntry_type|]. intros e [Hty Hnil].
    split; [|done]. by rewrite Hty.
  - eapply Forall_impl; [apply addedEntry_type|]. intros e [Hty Hnil].
    split; [|done]. by rewrite Hty.
  - eapply Forall_impl; [apply modifiedEntry_type|]. intros e [Hty Hne].
    split; [done|]. rewrite Hty. by intros [|].
Qed.

(** ** The recursive comparison of two maps *)

(** What one round of the loop of [deepCompareMap] appends for the key [k],
    with [rec] for the recursive call. *)
Definition key_diffs
    (rec : string → option (gmap string Value) → option (gmap string Value)
           → list FieldDiff)
    (prefix : string) (base target : option (gmap string Value)) (k : string)
    : list FieldDiff :=
  let path := prefix +:+ "." +:+ k in
  match gomap.index base k with
  | None => [ {| Path := path; OldValue := VNil;
                 NewValue := default VNil (gomap.index target k) |} ]
  | Some baseVal =>
    match gomap.index target k with
    | None => [ {| Path := path; OldValue := baseVal; NewValue := VNil |} ]
    | Some targetVal =>
      match baseVal, targetVal with
      | VMap baseMap, VMap targetMap => rec path baseMap targetMap
      | _, _ =>
          if negb (reflect.DeepEqual baseVal targetVal)
          then [ {| Path := path; OldValue := baseVal; NewValue := targetVal |} ]
          else []
      end
    end
  end.

Lemma deepCompareMap_fuel_S ro fuel prefix base target :
  analyzer.deepCompareMap_fuel ro (S fuel) prefix base target =
    match base, target with
    | None, None => []
    | _, _ =>
        gomap.range_set ro (gomap.keys base ∪ gomap.keys target)
          ≫= key_diffs (analyzer.deepCompareMap_fuel ro fuel) prefix base target
    end.
Proof.
  assert (∀ l, foldl (λ diffs k,
      let path := prefix +:+ "." +:+ k in
      match gomap.index base k with
      | None =>
          diffs ++ [ {| Path := path; OldValue := VNil;
                        NewValue := default VNil (gomap.index target k) |} ]
      | Some baseVal =>
        match gomap.index target k with
        | None =>
            diffs ++ [ {| Path := path; OldValue := baseVal; NewValue := VNil |} ]
        | Some targetVal =>
          match baseVal, targetVal with
          | VMap baseMap, VMap targetMap =>
              diffs ++ analyzer.deepCompareMap_fuel ro fuel path baseMap targetMap
          | _, _ =>
              if negb (reflect.DeepEqual baseVal targetVal)
              then diffs ++ [ {| Path := path; OldValue := baseVal;
                                 NewValue := targetVal |} ]
              else diffs
          end
        end
      end) [] l = l ≫= key_diffs (analyzer.deepCompareMap_fuel ro fuel) prefix base target)
    as Hloop.
  { intros l. rewrite (foldl_append_bind _
      (key_diffs (analyzer.deepCompareMap_fuel ro fuel) prefix base target)); [done|].
    intros acc k. unfold key_diffs. simpl.
    destruct (gomap.index base k) as [bv|]; [|done].
    destruct (gomap.index target k) as [tv|]; [|done].
    destruct bv, tv; try done;
      by (destruct (negb (reflect.DeepEqual _ _)); rewrite ?app_nil_r). }
  simpl. destruct base, target; try apply Hloop. done.
Qed.

#[local] Arguments analyzer.deepCompareMap_fuel : simpl never.

Lemma value_depth_lookup (m : gmap string Value) (k : string) (v : Value) :
  m !! k = Some v → (value_depth v < value_depth (VMap (Some m)))%nat.
Proof.
  simpl. rewrite map_fold_foldr. intros Hk%elem_of_map_to_list.
  induction (map_to_list m) as [|[k' v'] l IH]; [by apply elem_of_nil in Hk|].
  apply elem_of_cons in Hk as [[= <- <-]|Hk]; simpl.
  - lia.
  - specialize (IH Hk). lia.
Qed.

Lemma bind_ext_elem_of {A B} (f g : A → list B) (l : list A) :
  (∀ x, x ∈ l → f x = g x) → l ≫= f = l ≫= g.
Proof.
  induction l as [|x l IH]; intros Hfg; [done|]. csimpl.
  rewrite Hfg by left. f_equal. apply IH. intros y Hy. apply Hfg. by right.
Qed.

Lemma bind_nil_iff {A B} (f : A → list B) (l : list A) :
  l ≫= f = [] ↔ ∀ x, x ∈ l → f x = [].
Proof.
  induction l as [|x l IH]; csimpl.
  - split; [|done]. intros _ x Hx. by apply elem_of_nil in Hx.
  - rewrite app_nil, IH. split.
    + intros [Hx Hl] y [->|Hy]%elem_of_cons; auto.
    + intros Hall. split; [apply Hall; by left|]. intros y Hy. apply Hall. by right.
Qed.

Lemma bind_Permutation_pointwise {A B} (f g : A → list B) (l1 l2 : list A) :
  l1 ≡ₚ l2 → (∀ x, x ∈ l1 → f x ≡ₚ g x) → l1 ≫= f ≡ₚ l2 ≫= g.
Proof.
  intros Hl Hfg. rewrite <-Hl. clear l2 Hl.
  induction l1 as [|x l IH]; [done|]. csimpl.
  rewrite (Hfg x) by left. apply Permutation_app; [done|].
  apply IH. intros y Hy. apply Hfg. by right.
Qed.

(** Fuel above the depth of the base map is enough: more changes nothing. *)
Lemma deepCompareMap_fuel_enough ro n1 n2 prefix base target :
  (value_depth (VMap base) < n1)%nat → (value_depth (VMap base) < n2)%nat →
  analyzer.deepCompareMap_fuel ro n1 prefix base target
    = analyzer.deepCompareMap_fuel ro n2 prefix base target.
Proof.
  revert n2 prefix base target.
  induction n1 as [|n1 IH]; intros n2 prefix base target Hn1 Hn2; [lia|].
  destruct n2 as [|n2]; [lia|]. rewrite !deepCompareMap_fuel_S.
  destruct base as [bm|], target as [tm|]; try done.
  apply bind_ext_elem_of. intros k _. unfold key_diffs. simpl.
  destruct (bm !! k) as [bv|] eqn:Hbv; [|done].
  destruct (tm !! k) as [tv|]; [|done].
  destruct bv as [| | | | |bsub|], tv as [| | | | |tsub|]; try done.
  apply value_depth_lookup in Hbv. apply IH; lia.
Qed.

(** [deepCompareMap] satisfies the recursion of the source: nothing for two
    nil maps; otherwise, for every key of either map, a diff for a key one
    side lacks, the diffs of the recursive call when both sides hold maps,
    and a diff when the values are not deeply equal. *)
Lemma deepCompareMap_unfold ro prefix base target :
  analyzer.deepCompareMap ro prefix base target =
    match base, target with
    | None, None => []
    | _, _ =>
        gomap.range_set ro (gomap.keys base ∪ gomap.keys target)
          ≫= key_diffs (analyzer.deepCompareMap ro) prefix base target
    end.
Proof.
  unfold analyzer.deepCompareMap at 1. rewrite deepCompareMap_fuel_S.
  destruct base as [bm|], target as [tm|]; try done.
  apply bind_ext_elem_of. intros k _. unfold key_diffs. simpl.
  destruct (bm !! k) as [bv|] eqn:Hbv; [|done].
  destruct (tm !! k) as [tv|]; [|done].
  destruct bv as [| | | | |bsub|], tv as [| | | | |tsub|]; try done.
  apply value_depth_lookup in Hbv. unfold analyzer.deepCompareMap.
  apply deepCompareMap_fuel_enough; simpl in *; lia.
Qed.

Lemma DeepEqual_sym (a b : Value) : reflect.DeepEqual a b = reflect.DeepEqual b a.
Proof. unfold reflect.DeepEqual. apply bool_decide_ext. split; congruence. Qed.

(** ** Two runs of the comparison, each with its own iteration order *)

Section TwoRuns.
Variables ro1 ro2 : list string → list string.
Hypothesis fair1 : gomap.fair ro1.
Hypothesis fair2 : gomap.fair ro2.

Lemma range_set_two_runs (s : gset string) :
  gomap.range_set ro1 s ≡ₚ gomap.range_set ro2 s.
Proof. by rewrite !range_set_Permutation. Qed.

(** Whether the maps differ does not depend on the side they stand on, nor
    on the order of iteration, nor on the path. *)
Lemma deepCompareMap_fuel_nil_sym n1 n2 p1 p2 base target :
  (value_depth (VMap base) < n1)%nat → (value_depth (VMap target) < n2)%nat →
  analyzer.deepCompareMap_fuel ro1 n1 p1 base target = []
  ↔ analyzer.deepCompareMap_fuel ro2 n2 p2 target base = [].
Proof.
  revert n2 p1 p2 base target.
  induction n1 as [|n1 IH]; intros n2 p1 p2 base target Hn1 Hn2; [lia|].
  destruct n2 as [|n2]; [lia|]. rewrite !deepCompareMap_fuel_S.
  assert (∀ k, key_diffs (analyzer.deepCompareMap_fuel ro1 n1) p1 base target k = []
             ↔ key_diffs (analyzer.deepCompareMap_fuel ro2 n2) p2 target base k = [])
    as Hkey.
  { intros k. unfold key_diffs.
    destruct base as [bm|], target as [tm|]; simpl; try done.
    - destruct (bm !! k) as [bv|] eqn:Hbv, (tm !! k) as [tv|] eqn:Htv; try done.
      pose proof (DeepEqual_sym bv tv) as Hsym.
      destruct bv as [| | | | |bsub|], tv as [| | | | |tsub|];
        try (rewrite ?Hsym; clear Hsym; destruct (reflect.DeepEqual _ _); simpl;
             split; congruence).
      apply value_depth_lookup in Hbv, Htv. apply IH; simpl in *; lia.
    - by destruct (bm !! k).
    - by destruct (tm !! k). }
  assert (gomap.keys target ∪ gomap.keys base = gomap.keys base ∪ gomap.keys target)
    as Hcomm by apply (comm_L (∪)).
  destruct base as [bm|], target as [tm|]; try done;
    rewrite !bind_nil_iff, Hcomm;
    (split; intros Hall k Hk;
      [ apply Hkey, Hall; by rewrite elem_of_range_set in *
      | apply Hkey, Hall; by rewrite elem_of_range_set in * ]).
Qed.

Lemma deepCompareMap_nil_sym p1 p2 base target :
  analyzer.deepCompareMap ro1 p1 base target = []
  ↔ analyzer.deepCompareMap ro2 p2 target base = [].
Proof. unfold analyzer.deepCompareMap. apply deepCompareMap_fuel_nil_sym; lia. Qed.

(** The diffs of two runs on the same maps are the same up to their order. *)
Lemma deepCompareMap_fuel_Permutation n1 n2 prefix base target :
  (value_depth (VMap base) < n1)%nat → (value_depth (VMap base) < n2)%nat →
  analyzer.deepCompareMap_fuel ro1 n1 prefix base target
  ≡ₚ analyzer.deepCompareMap_fuel ro2 n2 prefix base target.
Proof.
  revert n2 prefix base target.
  induction n1 as [|n1 IH]; intros n2 prefix base target Hn1 Hn2; [lia|].
  destruct n2 as [|n2]; [lia|]. rewrite !deepCompareMap_fuel_S.
  destruct base as [bm|], target as [tm|]; try done;
    (apply bind_Permutation_pointwise; [apply range_set_two_runs|]);
    intros k _; unfold key_diffs; simpl; try done.
  destruct (bm !! k) as [bv|] eqn:Hbv; [|done].
  destruct (tm !! k) as [tv|]; [|done].
  destruct bv as [| | | | |bsub|], tv as [| | | | |tsub|]; try done.
  apply value_depth_lookup in Hbv. apply IH; simpl in *; lia.
Qed.

Lemma deepCompareMap_Permutation prefix base target :
  analyzer.deepCompareMap ro1 prefix base target
  ≡ₚ analyzer.deepCompareMap ro2 prefix base target.
Proof. unfold analyzer.deepCompareMap. apply deepCompareMap_fuel_Permutation; lia. Qed.

End TwoRuns.

(** The four parts of the field comparison, in the order they are appended. *)
Definition labels_diffs (a b : Resource) : list FieldDiff :=
  if negb (reflect.DeepEqual (VStringMap (Labels a)) (VStringMap (Labels b)))
  then [ {| Path := ".metadata.labels"; OldValue := VStringMap (Labels a);
            NewValue := VStringMap (Labels b) |} ]
  else [].

Definition annotations_diffs (a b : Resource) : list FieldDiff :=
  if negb (reflect.DeepEqual (VStringMap (Annotations a)) (VStringMap (Annotations b)))
  then [ {| Path := ".metadata.annotations"; OldValue := VStringMap (Annotations a);
            NewValue := VStringMap (Annotations b) |} ]
  else [].

Definition spec_diffs (ro : list string → list string) (a b : Resource) : list FieldDiff :=
  if negb (reflect.DeepEqual (VMap (Spec a)) (VMap (Spec b)))
  then analyzer.deepCompareMap ro ".spec" (Spec a) (Spec b)
  else [].

Definition data_diffs (ro : list string → list string) (a b : Resource) : list FieldDiff :=
  if negb (reflect.DeepEqual (VMap (Data a)) (VMap (Data b)))
  then analyzer.deepCompareMap ro ".data" (Data a) (Data b)
  else [].

Lemma compareResources_parts ro a b :
  analyzer.compareResources ro a b =
    labels_diffs a b ++ annotations_diffs a b ++ spec_diffs ro a b ++ data_diffs ro a b.
Proof.
  unfold analyzer.compareResources, labels_diffs, annotations_diffs, spec_diffs, data_diffs.
  destruct (negb (reflect.DeepEqual (VStringMap (Labels a)) _)),
    (negb (reflect.DeepEqual (VStringMap (Annotations a)) _)),
    (negb (reflect.DeepEqual (VMap (Spec a)) _)),
    (negb (reflect.DeepEqual (VMap (Data a)) _));
    simpl; by rewrite ?app_nil_r, <-?app_assoc.
Qed.

(** When the field comparison reports nothing. *)
Lemma compareResources_nil ro a b :
  analyzer.compareResources ro a b = [] ↔
    Labels a = Labels b ∧ Annotations a = Annotations b
    ∧ (Spec a = Spec b ∨ analyzer.deepCompareMap ro ".spec" (Spec a) (Spec b) = [])
    ∧ (Data a = Data b ∨ analyzer.deepCompareMap ro ".data" (Data a) (Data b) = []).
Proof.
  rewrite compareResources_parts, !app_nil.
  assert (labels_diffs a b = [] ↔ Labels a = Labels b) as ->.
  { unfold labels_diffs, reflect.DeepEqual.
    case_bool_decide; simpl; split; congruence. }
  assert (annotations_diffs a b = [] ↔ Annotations a = Annotations b) as ->.
  { unfold annotations_diffs, reflect.DeepEqual.
    case_bool_decide; simpl; split; congruence. }
  assert (spec_diffs ro a b = [] ↔
          Spec a = Spec b ∨ analyzer.deepCompareMap ro ".spec" (Spec a) (Spec b) = []) as ->.
  { unfold spec_diffs, reflect.DeepEqual.
    case_bool_decide; simpl; [|split; [tauto|]; intros [?|?]; [congruence|done]].
    split; [|done]. left. congruence. }
  assert (data_diffs ro a b = [] ↔
          Data a = Data b ∨ analyzer.deepCompareMap ro ".data" (Data a) (Data b) = []) as ->.
  { unfold data_diffs, reflect.DeepEqual.
    case_bool_decide; simpl; [|split; [tauto|]; intros [?|?]; [congruence|done]].
    split; [|done]. left. congruence. }
  done.
Qed.

Lemma compareResources_nil_sym ro1 ro2 a b :
  gomap.fair ro1 → gomap.fair ro2 →
  analyzer.compareResources ro1 a b = [] ↔ analyzer.compareResources ro2 b a = [].
Proof.
  intros Hro1 Hro2. rewrite !compareResources_nil.
  rewrite (deepCompareMap_nil_sym ro1 ro2 Hro1 Hro2 ".spec" ".spec").
  rewrite (deepCompareMap_nil_sym ro1 ro2 Hro1 Hro2 ".data" ".data").
  split; intros (-> & -> & [->|?] & [->|?]); auto.
Qed.

Lemma compareResources_Permutation ro1 ro2 a b :
  gomap.fair ro1 → gomap.fair ro2 →
  analyzer.compareResources ro1 a b ≡ₚ analyzer.compareResources ro2 a b.
Proof.
  intros Hro1 Hro2. rewrite !compareResources_parts.
  repeat apply Permutation_app; try done.
  - unfold spec_diffs. destruct (negb _); [|done].
    by apply deepCompareMap_Permutation.
  - unfold data_diffs. destruct (negb _); [|done].
    by apply deepCompareMap_Permutation.
Qed.

(** ** Entries by type *)

Definition entries_of_type (ty : DriftType) (report : DriftReport) : list DriftEntry :=
  filter (λ e, EntryType e = ty) (Entries report).

(** The identity of the resource of an entry: its full name, the key of the
    index it was found under. *)
Definition identities (ty : DriftType) (report : DriftReport) : list string :=
  (λ e, FullName (EntryResource e)) <$> entries_of_type ty report.

Lemma filter_all {A} (P : A → Prop) `{!∀ x, Decision (P x)} (l : list A) :
  Forall P l → filter P l = l.
Proof.
  induction 1 as [|x l Hx _ IH]; [done|]. by rewrite filter_cons, decide_True, IH.
Qed.

Lemma filter_none {A} (P : A → Prop) `{!∀ x, Decision (P x)} (l : list A) :
  Forall (λ x, ¬ P x) l → filter P l = [].
Proof.
  induction 1 as [|x l Hx _ IH]; [done|]. by rewrite filter_cons, decide_False, IH.
Qed.

Lemma entries_of_type_Compare ro now base target :
  gomap.fair ro →
  let bi := analyzer.indexResources (Resources base) in
  let ti := analyzer.indexResources (Resources target) in
  let report := analyzer.Compare ro now base target in
  entries_of_type DriftRemoved report ≡ₚ omap (removedEntry ti) (map_to_list bi)
  ∧ entries_of_type DriftAdded report ≡ₚ omap (addedEntry bi) (map_to_list ti)
  ∧ entries_of_type DriftModified report ≡ₚ omap (modifiedEntry ro ti) (map_to_list bi).
Proof.
  intros Hro bi ti report. unfold entries_of_type. subst report.
  rewrite !(Compare_Entries_Permutation ro now base target Hro).
  fold bi ti. unfold entries_over. rewrite !filter_app.
  pose proof (removedEntry_type ti (map_to_list bi)) as Hr.
  pose proof (addedEntry_type bi (map_to_list ti)) as Ha.
  pose proof (modifiedEntry_type ro ti (map_to_list bi)) as Hm.
  repeat split.
  - rewrite (filter_all _ (omap (removedEntry ti) _)),
      (filter_none _ (omap (addedEntry bi) _)),
      (filter_none _ (omap (modifiedEntry ro ti) _)); [by rewrite !app_nil_r|..].
    + eapply Forall_impl; [exact Hm|]. by intros e [-> _].
    + eapply Forall_impl; [exact Ha|]. by intros e [-> _].
    + eapply Forall_impl; [exact Hr|]. by intros e [-> _].
  - rewrite (filter_none _ (omap (removedEntry ti) _)),
      (filter_all _ (omap (addedEntry bi) _)),
      (filter_none _ (omap (modifiedEntry ro ti) _)); [by rewrite !app_nil_r|..].
    + eapply Forall_impl; [exact Hm|]. by intros e [-> _].
    + eapply Forall_impl; [exact Ha|]. by intros e [-> _].
    + eapply Forall_impl; [exact Hr|]. by intros e [-> _].
  - rewrite (filter_none _ (omap (removedEntry ti) _)),
      (filter_none _ (omap (addedEntry bi) _)),
      (filter_all _ (omap (modifiedEntry ro ti) _)); [done|..].
    + eapply Forall_impl; [exact Hm|]. by intros e [-> _].
    + eapply Forall_impl; [exact Ha|]. by intros e [-> _].
    + eapply Forall_impl; [exact Hr|]. by intros e [-> _].
Qed.

(** What one comparison adds the opposite comparison removes: the entries
    carry the very same resources. *)
Lemma added_removed_resources (index : gmap string Resource)
    (l : list (string * Resource)) :
  EntryResource <$> omap (addedEntry index) l
  = EntryResource <$> omap (removedEntry index) l.
Proof.
  induction l as [|[k r] l IH]; [done|]. csimpl.
  unfold addedEntry, removedEntry in *. simpl.
  destruct (index !! k); csimpl; by rewrite IH.
Qed.

(** The names of the modified entries are the keys of the base index whose
    resources differ from those of the target. *)
Lemma modified_identities ro (ti : gmap string Resource) (l : list (string * Resource)) :
  (∀ k r, ti !! k = Some r → FullName r = k) →
  (λ e, FullName (EntryResource e)) <$> omap (modifiedEntry ro ti) l
  = (filter (λ kv, is_Some (modifiedEntry ro ti kv)) l).*1.
Proof.
  intros Hti. induction l as [|[k r] l IH]; [done|]. csimpl.
  rewrite filter_cons. destruct (modifiedEntry ro ti (k, r)) as [e|] eqn:He.
  - rewrite decide_True by eauto. csimpl. rewrite IH. f_equal.
    unfold modifiedEntry in He. simpl in He.
    destruct (ti !! k) as [t|] eqn:Ht; [|done].
    case_bool_decide; simplify_eq. simpl. by apply Hti.
  - rewrite decide_False by (by intros []). done.
Qed.

Lemma modifiedEntry_is_Some ro ti k b :
  is_Some (modifiedEntry ro ti (k, b)) ↔
  ∃ t, ti !! k = Some t ∧ analyzer.compareResources ro b t ≠ [].
Proof.
  unfold modifiedEntry. simpl. destruct (ti !! k) as [t|].
  - case_bool_decide as Hlen; split.
    + intros _. exists t. split; [done|]. intros Hnil. rewrite Hnil in Hlen.
      simpl in Hlen. lia.
    + eauto.
    + by intros [].
    + intros (? & [= <-] & Hne). destruct Hlen.
      destruct (analyzer.compareResources ro b t); [done|]. simpl. lia.
  - split; [by intros []|]. by intros (? & ? & _).
Qed.

(** C4.  Comparing in the opposite direction swaps the added and the removed
    identities and keeps the modified ones, as multisets. *)
Theorem Compare_symmetry ro1 ro2 now1 now2 A B :
  gomap.fair ro1 → gomap.fair ro2 →
  let forth := analyzer.Compare ro1 now1 A B in
  let back := analyzer.Compare ro2 now2 B A in
  identities DriftAdded forth ≡ₚ identities DriftRemoved back
  ∧ identities DriftRemoved forth ≡ₚ identities DriftAdded back
  ∧ identities DriftModified forth ≡ₚ identities DriftModified back.
Proof.
  intros Hro1 Hro2 forth back. unfold identities.
  destruct (entries_of_type_Compare ro1 now1 A B Hro1) as (Hr1 & Ha1 & Hm1).
  destruct (entries_of_type_Compare ro2 now2 B A Hro2) as (Hr2 & Ha2 & Hm2).
  fold forth in Hr1, Ha1, Hm1. fold back in Hr2, Ha2, Hm2.
  rewrite Hr1, Ha1, Hm1, Hr2, Ha2, Hm2.
  set (iA := analyzer.indexResources (Resources A)).
  set (iB := analyzer.indexResources (Resources B)).
  assert (∀ (f : Resource → string) (l : list DriftEntry),
    (λ e, f (EntryResource e)) <$> l = f <$> (EntryResource <$> l)) as Hcomp.
  { intros f l. by rewrite <-list_fmap_compose. }
  repeat split.
  - by rewrite !(Hcomp FullName), added_removed_resources.
  - by rewrite !(Hcomp FullName), added_removed_resources.
  - rewrite (modified_identities ro1 iB), (modified_identities ro2 iA)
      by apply indexResources_FullName.
    apply NoDup_Permutation.
    + apply (sublist_NoDup _ (map_to_list iA).*1);
        [apply NoDup_fst_map_to_list|apply fmap_sublist, sublist_filter].
    + apply (sublist_NoDup _ (map_to_list iB).*1);
        [apply NoDup_fst_map_to_list|apply fmap_sublist, sublist_filter].
    + intros k. rewrite !list_elem_of_fmap. split.
      * intros ([k' a] & -> & [Hsome Ha]%list_elem_of_filter). simpl.
        apply elem_of_map_to_list in Ha.
        apply modifiedEntry_is_Some in Hsome as (b & Hb & Hne).
        exists (k', b). split; [done|]. apply list_elem_of_filter.
        split; [|by apply elem_of_map_to_list].
        apply modifiedEntry_is_Some. exists a. split; [done|].
        by rewrite <-(compareResources_nil_sym ro1 ro2 a b Hro1 Hro2).
      * intros ([k' b] & -> & [Hsome Hb]%list_elem_of_filter). simpl.
        apply elem_of_map_to_list in Hb.
        apply modifiedEntry_is_Some in Hsome as (a & Ha & Hne).
        exists (k', a). split; [done|]. apply list_elem_of_filter.
        split; [|by apply elem_of_map_to_list].
        apply modifiedEntry_is_Some. exists b. split; [done|].
        by rewrite (compareResources_nil_sym ro1 ro2 a b Hro1 Hro2).
Qed.

(** ** The order of the entries *)

(** The sort key of an entry: its type, then the full name of its resource. *)
Definition entry_key (e : DriftEntry) : string * string :=
  (EntryType e, FullName (EntryResource e)).

Definition string_lt (s1 s2 : string) : Prop := String.ltb s1 s2.

Lemma string_compare_refl (s : string) : (s ?= s)%string = Eq.
Proof.
  induction s as [|a s IH]; [done|]. simpl.
  unfold Ascii.compare. by rewrite N.compare_refl.
Qed.

Lemma string_lt_spec s1 s2 : string_lt s1 s2 ↔ String.le s1 s2 ∧ s1 ≠ s2.
Proof.
  unfold string_lt, String.le, String.ltb, String.leb.
  destruct (s1 ?= s2)%string eqn:Hc; simpl.
  - apply String.compare_eq_iff in Hc. split; [done|]. by intros [_ []].
  - split; [|done]. intros _. split; [done|]. intros ->.
    rewrite string_compare_refl in Hc. done.
  - split; [done|]. by intros [[] _].
Qed.

Lemma string_lt_irrefl s : ¬ string_lt s s.
Proof. rewrite string_lt_spec. intros [_ Hne]. by apply Hne. Qed.

Lemma string_lt_trans s1 s2 s3 : string_lt s1 s2 → string_lt s2 s3 → string_lt s1 s3.
Proof.
  rewrite !string_lt_spec. intros [H12 Hne12] [H23 Hne23]. split.
  - by etrans.
  - intros ->. apply Hne12. by apply (anti_symm String.le).
Qed.

Lemma string_lt_trichotomy s1 s2 : string_lt s1 s2 ∨ s1 = s2 ∨ string_lt s2 s1.
Proof.
  rewrite !string_lt_spec. destruct (decide (s1 = s2)) as [->|Hne]; [auto|].
  destruct (total String.le s1 s2); [left|right; right]; split; congruence.
Qed.

(** The lexicographic order on sort keys. *)
Definition key_lt (k1 k2 : string * string) : Prop :=
  string_lt k1.1 k2.1 ∨ (k1.1 = k2.1 ∧ string_lt k1.2 k2.2).

Lemma less_key_lt (e1 e2 : DriftEntry) :
  analyzer.less e1 e2 ↔ key_lt (entry_key e1) (entry_key e2).
Proof.
  unfold analyzer.less, key_lt, entry_key, string_lt. simpl.
  case_bool_decide as Hty.
  - split; [auto|]. intros [?|[? _]]; [done|]. by destruct Hty.
  - split; [auto|]. intros [Hlt|[_ ?]]; [|done].
    rewrite Hty in Hlt. by apply string_lt_irrefl in Hlt.
Qed.

#[global] Instance key_lt_trans : Transitive key_lt.
Proof.
  intros [a1 b1] [a2 b2] [a3 b3]. unfold key_lt. simpl.
  intros [H12|[-> H12]] [H23|[-> H23]]; eauto using string_lt_trans.
Qed.

#[global] Instance key_lt_irrefl : Irreflexive key_lt.
Proof. intros [a b] [H|[_ H]]; by apply string_lt_irrefl in H. Qed.

Lemma key_lt_trichotomy k1 k2 : key_lt k1 k2 ∨ k1 = k2 ∨ key_lt k2 k1.
Proof.
  destruct k1 as [a1 b1], k2 as [a2 b2]. unfold key_lt. simpl.
  destruct (string_lt_trichotomy a1 a2) as [?|[->|?]]; [auto| |auto].
  destruct (string_lt_trichotomy b1 b2) as [?|[->|?]]; auto.
Qed.

#[global] Instance key_lt_antisymm : AntiSymm (=) key_lt.
Proof.
  intros k1 k2 H12 H21. destruct (irreflexivity key_lt k1). by etrans.
Qed.

(** The order of the entries: that of their keys. *)
Definition entry_lt (e1 e2 : DriftEntry) : Prop := key_lt (entry_key e1) (entry_key e2).

#[global] Instance entry_lt_trans : Transitive entry_lt.
Proof. intros x y z. unfold entry_lt. apply transitivity. Qed.

#[global] Instance entry_lt_antisymm : AntiSymm (=) entry_lt.
Proof.
  intros e1 e2 H12 H21. destruct (irreflexivity key_lt (entry_key e1)).
  unfold entry_lt in *. by etrans.
Qed.

Lemma StronglySorted_entry_key (l : list DriftEntry) :
  StronglySorted entry_lt l ↔ StronglySorted key_lt (entry_key <$> l).
Proof.
  induction l as [|e l IH]; csimpl.
  - split; constructor.
  - split; intros Hs; apply StronglySorted_inv in Hs as [Hl Hall].
    + constructor; [by apply IH|]. apply Forall_fmap. exact Hall.
    + constructor; [by apply IH|]. rewrite Forall_fmap in Hall. exact Hall.
Qed.

(** A list with pairwise distinct keys is sorted into increasing keys. *)
Lemma Slice_less_sorted (l : list DriftEntry) :
  NoDup (entry_key <$> l) → StronglySorted entry_lt (sort.Slice analyzer.less l).
Proof.
  intros Hnodup. unfold sort.Slice.
  set (R := λ x y : DriftEntry, ¬ analyzer.less y x).
  assert (Total R) as Htotal.
  { intros x y. unfold R. rewrite !less_key_lt.
    destruct (key_lt_trichotomy (entry_key x) (entry_key y)) as [H|[H|H]].
    - left. intros H'. destruct (irreflexivity key_lt (entry_key x)). by etrans.
    - left. rewrite H. apply irreflexivity, _.
    - right. intros H'. destruct (irreflexivity key_lt (entry_key x)). by etrans. }
  assert (Transitive R) as Htrans.
  { intros x y z. unfold R. rewrite !less_key_lt. intros Hyx Hzy Hzx.
    destruct (key_lt_trichotomy (entry_key x) (entry_key y)) as [H|[H|H]]; [|congruence|done].
    apply Hzy. by etrans. }
  pose proof (StronglySorted_merge_sort R l) as Hsorted.
  assert (NoDup (entry_key <$> merge_sort R l)) as Hnodup'.
  { by rewrite merge_sort_Permutation. }
  induction Hsorted as [|x l' _ IH Hall]; [constructor|].
  rewrite fmap_cons in Hnodup'. apply NoDup_cons in Hnodup' as [Hx Hnd].
  constructor; [by apply IH|].
  apply Forall_forall. intros y Hy.
  rewrite Forall_forall in Hall. specialize (Hall y Hy). unfold R in Hall.
  rewrite less_key_lt in Hall. unfold entry_lt.
  destruct (key_lt_trichotomy (entry_key x) (entry_key y)) as [H|[H|H]]; [done| |done].
  destruct Hx. rewrite H. by apply list_elem_of_fmap_2.
Qed.

(** Sorting forgets the order its input came in, also when the entries of
    the two inputs agree only up to a relation that keeps the keys. *)
Lemma Slice_less_related (rel : relation DriftEntry) (l1 l2 c1 c2 : list DriftEntry) :
  (∀ e1 e2, rel e1 e2 → entry_key e1 = entry_key e2) →
  l1 ≡ₚ c1 → l2 ≡ₚ c2 → Forall2 rel c1 c2 → NoDup (entry_key <$> c1) →
  Forall2 rel (sort.Slice analyzer.less l1) (sort.Slice analyzer.less l2).
Proof.
  intros Hkey Hl1 Hl2 Hrel Hnodup.
  assert (∀ k1 k2, Forall2 rel k1 k2 → entry_key <$> k1 = entry_key <$> k2) as Hkeys.
  { induction 1; csimpl; f_equal; auto. }
  assert (c1 ≡ₚ sort.Slice analyzer.less l1) as Hp1.
  { by rewrite Slice_Permutation. }
  destruct (Permutation_Forall2 Hp1 Hrel) as (c2' & Hp2 & Hrel').
  assert (c2' = sort.Slice analyzer.less l2) as <-; [|done].
  apply (StronglySorted_unique entry_lt).
  - apply StronglySorted_entry_key. rewrite <-(Hkeys _ _ Hrel').
    apply StronglySorted_entry_key, Slice_less_sorted. by rewrite Hl1.
  - apply Slice_less_sorted. by rewrite Hl2, <-(Hkeys _ _ Hrel).
  - by rewrite Slice_Permutation, Hl2, Hp2.
Qed.

(** The keys of one group of entries: the type of the group with the keys of
    the bindings the group keeps. *)
Lemma entry_key_omap (f : string * Resource → option DriftEntry) (ty : DriftType)
    (l : list (string * Resource)) :
  (∀ kv e, kv ∈ l → f kv = Some e → entry_key e = (ty, kv.1)) →
  entry_key <$> omap f l = pair ty <$> (filter (λ kv, is_Some (f kv)) l).*1.
Proof.
  induction l as [|kv l IH]; intros Hf; [done|]. csimpl.
  rewrite filter_cons. destruct (f kv) as [e|] eqn:He.
  - rewrite decide_True by eauto. csimpl. rewrite IH.
    + f_equal. apply Hf; [by left|done].
    + intros kv' e' Hkv'. apply Hf. by right.
  - rewrite decide_False by (by intros []). apply IH.
    intros kv' e' Hkv'. apply Hf. by right.
Qed.

Lemma NoDup_group (f : string * Resource → option DriftEntry) (ty : DriftType)
    (m : gmap string Resource) :
  NoDup (pair ty <$> (filter (λ kv, is_Some (f kv)) (map_to_list m)).*1).
Proof.
  apply (NoDup_fmap_2 _).
  apply (sublist_NoDup _ (map_to_list m).*1);
    [apply NoDup_fst_map_to_list|apply fmap_sublist, sublist_filter].
Qed.

Lemma entries_over_keys_NoDup ro (bi ti : gmap string Resource) :
  (∀ k r, bi !! k = Some r → FullName r = k) →
  (∀ k r, ti !! k = Some r → FullName r = k) →
  NoDup (entry_key <$> entries_over ro bi ti (map_to_list bi) (map_to_list ti)).
Proof.
  intros Hbi Hti. unfold entries_over. rewrite !fmap_app.
  rewrite (entry_key_omap (removedEntry ti) DriftRemoved),
    (entry_key_omap (addedEntry bi) DriftAdded),
    (entry_key_omap (modifiedEntry ro ti) DriftModified).
  - rewrite !NoDup_app. repeat split; try apply NoDup_group.
    + intros key [k [-> _]]%list_elem_of_fmap [[k' [? _]]%list_elem_of_fmap
        |[k' [? _]]%list_elem_of_fmap]%elem_of_app; done.
    + intros key [k [-> _]]%list_elem_of_fmap [k' [? _]]%list_elem_of_fmap; done.
  - intros [k b] e _ He. unfold modifiedEntry in He. simpl in He.
    destruct (ti !! k) as [t|] eqn:Ht; [|done].
    case_bool_decide; [|done]. injection He as <-. unfold entry_key. simpl.
    by rewrite (Hti k t).
  - intros [k t] e Hkt%elem_of_map_to_list He. unfold addedEntry in He. simpl in He.
    destruct (bi !! k); [done|]. injection He as <-. unfold entry_key. simpl.
    by rewrite (Hti k t).
  - intros [k b] e Hkb%elem_of_map_to_list He. unfold removedEntry in He. simpl in He.
    destruct (ti !! k); [done|]. injection He as <-. unfold entry_key. simpl.
    by rewrite (Hbi k b).
Qed.

(** Two entries that agree but for the order of their field diffs. *)
Definition same_entry (e1 e2 : DriftEntry) : Prop :=
  EntryType e1 = EntryType e2 ∧ EntryResource e1 = EntryResource e2
  ∧ FieldDiffs e1 ≡ₚ FieldDiffs e2.

Lemma same_entry_refl e : same_entry e e.
Proof. by repeat split. Qed.

Lemma Forall2_omap_pointwise {A B} (rel : relation B) (f g : A → option B) (l : list A) :
  (∀ x, option_Forall2 rel (f x) (g x)) → Forall2 rel (omap f l) (omap g l).
Proof.
  intros Hfg. induction l as [|x l IH]; csimpl; [constructor|].
  destruct (Hfg x); [by constructor|done].
Qed.

Lemma entries_over_same_entry ro1 ro2 bi ti bs ts :
  gomap.fair ro1 → gomap.fair ro2 →
  Forall2 same_entry (entries_over ro1 bi ti bs ts) (entries_over ro2 bi ti bs ts).
Proof.
  intros Hro1 Hro2. unfold entries_over. repeat apply Forall2_app.
  - apply Forall2_omap_pointwise. intros kv. destruct (removedEntry ti kv);
      constructor. apply same_entry_refl.
  - apply Forall2_omap_pointwise. intros kv. destruct (addedEntry bi kv);
      constructor. apply same_entry_refl.
  - apply Forall2_omap_pointwise. intros [k b]. unfold modifiedEntry. simpl.
    destruct (ti !! k) as [t|]; [|constructor].
    pose proof (compareResources_Permutation ro1 ro2 b t Hro1 Hro2) as Hperm.
    rewrite (Permutation_length Hperm).
    case_bool_decide; constructor. by repeat split.
Qed.

Lemma count_type_same_entry ty l1 l2 :
  Forall2 same_entry l1 l2 → count_type ty l1 = count_type ty l2.
Proof.
  induction 1 as [|e1 e2 l1 l2 [Hty _] _ IH]; [done|].
  by rewrite !count_type_cons, IH, Hty.
Qed.

(** ** Concrete snapshots *)

Definition example_metadata (commit : string) : SnapshotMetadata :=
  {| Timestamp := 0; ClusterName := "test-cluster"; Context := "test-context";
     ResourceCount := 0; Namespaces := ["default"]; CommitHash := commit |}.

Definition deployment (name : string) (labels : option (gmap string string))
    (spec : option (gmap string Value)) : Resource :=
  {| APIVersion := "apps/v1"; Kind := "Deployment"; Namespace := "default";
     Name := name; Labels := labels; Annotations := None; Spec := spec;
     Data := None; Raw := None |}.

Definition cluster_role (name : string) : Resource :=
  {| APIVersion := "rbac.authorization.k8s.io/v1"; Kind := "ClusterRole";
     Namespace := ""; Name := name; Labels := None; Annotations := None;
     Spec := None; Data := None; Raw := None |}.

(** A base with two deployments and a cluster role, and a target where one
    deployment changed two fields of its spec, the other is gone and a
    cluster role has appeared. *)
Definition example_base : ResourceSnapshot :=
  {| Metadata := example_metadata "base";
     Resources :=
       [ deployment "nginx" None
           (Some {[ "replicas" := VInt 3; "paused" := VBool false ]});
         deployment "api" None None;
         cluster_role "admin" ] |}.

Definition example_target : ResourceSnapshot :=
  {| Metadata := example_metadata "target";
     Resources :=
       [ deployment "nginx" None
           (Some {[ "replicas" := VInt 5; "paused" := VBool true ]});
         cluster_role "admin";
         cluster_role "viewer" ] |}.

(** The same deployment with no labels: once with the nil map, once with an
    empty map. *)
Definition unlabelled_nil : ResourceSnapshot :=
  {| Metadata := example_metadata "";
     Resources := [ deployment "nginx" None None ] |}.

Definition unlabelled_empty : ResourceSnapshot :=
  {| Metadata := example_metadata "";
     Resources := [ deployment "nginx" (Some ∅) None ] |}.

Lemma fair_id : gomap.fair id.
Proof. intros l. reflexivity. Qed.

Lemma fair_reverse : gomap.fair reverse.
Proof. intros l. apply reverse_Permutation. Qed.

Example Compare_example :
  let report := analyzer.Compare id 7 example_base example_target in
  Summary report =
    {| TotalResources := 3; AddedResources := 1; RemovedResources := 1;
       ModifiedResources := 1; UnchangedResources := 1 |}
  ∧ (λ e, (EntryType e, FullName (EntryResource e), Path <$> FieldDiffs e))
      <$> Entries report =
    [ ("ADDED", "ClusterRole/viewer", []);
      ("MODIFIED", "default/Deployment/nginx", [".spec.replicas"; ".spec.paused"]);
      ("REMOVED", "default/Deployment/api", []) ].
Proof. vm_compute. done. Qed.

Lemma Compare_summary_counters_witness :
  let summary := Summary (analyzer.Compare id 7 example_base example_target) in
  let B := snapshot_names example_base in
  let T := snapshot_names example_target in
  TotalResources summary = Z.of_nat (size T)
  ∧ AddedResources summary = Z.of_nat (size (T ∖ B))
  ∧ RemovedResources summary = Z.of_nat (size (B ∖ T))
  ∧ ModifiedResources summary
      = Z.of_nat (size (filter (content_differs id example_base example_target) (B ∩ T)))
  ∧ UnchangedResources summary
      = Z.of_nat (size B) - RemovedResources summary - ModifiedResources summary.
Proof.
  apply (Compare_summary_counters id 7 example_base example_target).
  intros l. reflexivity.
Defined.

Lemma Compare_symmetry_witness :
  let forth := analyzer.Compare id 7 example_base example_target in
  let back := analyzer.Compare reverse 8 example_target example_base in
  identities DriftAdded forth ≡ₚ identities DriftRemoved back
  ∧ identities DriftRemoved forth ≡ₚ identities DriftAdded back
  ∧ identities DriftModified forth ≡ₚ identities DriftModified back.
Proof.
  apply (Compare_symmetry id reverse 7 8 example_base example_target).
  - intros l. reflexivity.
  - intros l. apply reverse_Permutation.
Defined.

(** C5, at the input where the code departs from it: a deployment whose
    labels are the nil map in the base and an empty map in the target is
    reported as MODIFIED, with one field diff at [.metadata.labels]. *)
Theorem Compare_nil_against_empty_labels :
  Entries (analyzer.Compare id 7 unlabelled_nil unlabelled_empty) =
    [ {| EntryType := DriftModified;
         EntryResource := deployment "nginx" (Some ∅) None;
         FieldDiffs :=
           [ {| Path := ".metadata.labels"; OldValue := VStringMap None;
                NewValue := VStringMap (Some ∅) |} ] |} ].
Proof. vm_compute. reflexivity. Qed.

(** For [spec] and [data] the comparison does treat the nil map and an empty
    map alike: [deepCompareMap] finds no key to report. *)
Lemma deepCompareMap_nil_against_empty ro prefix :
  gomap.fair ro →
  analyzer.deepCompareMap ro prefix None (Some ∅) = []
  ∧ analyzer.deepCompareMap ro prefix (Some ∅) None = [].
Proof.
  intros Hro. rewrite !deepCompareMap_unfold.
  assert (∀ s : gset string, s = ∅ → gomap.range_set ro s = []) as Hnil.
  { intros s ->. apply Permutation_nil_r. rewrite range_set_Permutation by done.
    by rewrite elements_empty. }
  split; rewrite Hnil; try done; unfold gomap.keys; simpl; rewrite dom_empty_L;
    apply union_empty_r_L.
Qed.

(** C6, refuted as stated: on equal inputs, a second run that visits the keys
    of [spec] in another order lists the field diffs in another order, and a
    run at another time carries another timestamp. *)
Lemma Compare_repeated_reports_differ :
  gomap.fair id ∧ gomap.fair reverse
  ∧ analyzer.Compare id 7 example_base example_target
    ≠ analyzer.Compare reverse 7 example_base example_target
  ∧ analyzer.Compare id 7 example_base example_target
    ≠ analyzer.Compare id 8 example_base example_target.
Proof.
  split; [apply fair_id|]. split; [apply fair_reverse|]. split.
  - intros Heq.
    apply (f_equal (λ r, (λ e, Path <$> FieldDiffs e) <$> Entries r)) in Heq.
    vm_compute in Heq. discriminate.
  - intros Heq. apply (f_equal ReportTimestamp) in Heq. discriminate.
Qed.

(** C6, as the code has it: two runs on equal inputs agree on the references,
    on the summary and on the entries in their order, type by type and
    resource by resource; the field diffs of an entry agree up to their
    order, and the timestamp is the time of the run. *)
Theorem Compare_deterministic_up_to_diff_order ro1 ro2 now1 now2 base target :
  gomap.fair ro1 → gomap.fair ro2 →
  let first := analyzer.Compare ro1 now1 base target in
  let second := analyzer.Compare ro2 now2 base target in
  ReportTimestamp first = now1 ∧ ReportTimestamp second = now2
  ∧ BaseRef first = BaseRef second ∧ TargetRef first = TargetRef second
  ∧ Summary first = Summary second
  ∧ Forall2 same_entry (Entries first) (Entries second).
Proof.
  intros Hro1 Hro2 first second.
  assert (Forall2 same_entry (Entries first) (Entries second)) as Hentries.
  { subst first second. rewrite !Compare_Entries.
    eapply Slice_less_related.
    - by intros e1 e2 (Hty & Hres & _); unfold entry_key; rewrite Hty, Hres.
    - apply entries_over_Permutation; by apply range_Permutation.
    - apply entries_over_Permutation; by apply range_Permutation.
    - by apply entries_over_same_entry.
    - apply entries_over_keys_NoDup; apply indexResources_FullName. }
  repeat split; try done.
  subst first second. rewrite !Compare_Summary. simpl.
  by rewrite !(count_type_same_entry _ _ _ Hentries).
Qed.

Lemma Compare_deterministic_up_to_diff_order_witness :
  let first := analyzer.Compare id 7 example_base example_target in
  let second := analyzer.Compare reverse 8 example_base example_target in
  ReportTimestamp first = 7 ∧ ReportTimestamp second = 8
  ∧ BaseRef first = BaseRef second ∧ TargetRef first = TargetRef second
  ∧ Summary first = Summary second
  ∧ Forall2 same_entry (Entries first) (Entries second).
Proof.
  apply (Compare_deterministic_up_to_diff_order id reverse 7 8 example_base example_target).
  - intros l. reflexivity.
  - intros l. apply reverse_Permutation.
Defined.

(** ** The version store *)

Lemma hex_of_length (digits : nat) (n : N) (acc : string) :
  String.length (git.hex_of digits n acc) = (digits + String.length acc)%nat.
Proof.
  revert n acc. induction digits as [|digits IH]; intros n acc; [done|].
  simpl. rewrite IH. simpl. lia.
Qed.

(** A printed commit id has forty characters; it is never the empty string
    that [FindCommitByTime] uses for "none so far". *)
Lemma Hash_String_length (h : git.Hash) : String.length (git.Hash_String h) = 40%nat.
Proof. unfold git.Hash_String. by rewrite hex_of_length. Qed.

Lemma Hash_String_nonempty (h : git.Hash) : git.Hash_String h ≠ "".
Proof. intros Heq. pose proof (Hash_String_length h) as Hlen. by rewrite Heq in Hlen. Qed.

(** The commits HEAD reaches; none on an unborn branch. *)
Definition reachable (repo : git.Repository) : list git.Commit :=
  default [] (git.head_history repo).

(** [c] is a latest commit of [cs] among those authored at or before
    [target]. *)
Definition latest_at_or_before (target : Z) (cs : list git.Commit) (c : git.Commit) : Prop :=
  c ∈ cs ∧ git.When (git.Author c) ≤ target
  ∧ ∀ c', c' ∈ cs → git.When (git.Author c') ≤ target →
      git.When (git.Author c') ≤ git.When (git.Author c).

(** What the loop of [FindCommitByTime] holds after the commits [cs]. *)
Definition best_so_far (target : Z) (cs : list git.Commit) (best : string * Z) : Prop :=
  (best.1 = "" ∧ ∀ c, c ∈ cs → ¬ git.When (git.Author c) ≤ target)
  ∨ (∃ c, latest_at_or_before target cs c
          ∧ best = (git.Hash_String (git.CommitId c), git.When (git.Author c))).

Lemma elem_of_snoc {A} (x y : A) (l : list A) : x ∈ l ++ [y] ↔ x ∈ l ∨ x = y.
Proof. by rewrite elem_of_app, list_elem_of_singleton. Qed.

Lemma visit_best_so_far target cs best c :
  best_so_far target cs best →
  best_so_far target (cs ++ [c]) (versioner.visit target best c).
Proof.
  destruct best as [bestHash bestTime]. unfold versioner.visit.
  intros [[Hnone Hall]|(b & (Hb & Hbt & Hmax) & Hbest)]; simpl in *.
  - subst bestHash. rewrite (bool_decide_eq_true_2 (EmptyString = EmptyString)) by done.
    rewrite orb_true_l.
    destruct (bool_decide (git.When (git.Author c) < target)
              || bool_decide (git.When (git.Author c) = target)) eqn:Hle.
    + right. exists c. split; [|done].
      apply orb_true_iff in Hle as [Hlt%bool_decide_eq_true|Heq%bool_decide_eq_true].
      * repeat split; [apply elem_of_snoc; auto|lia|].
        intros c' [Hc'| ->]%elem_of_snoc Hc't; [|lia].
        by destruct (Hall c' Hc').
      * repeat split; [apply elem_of_snoc; auto|lia|].
        intros c' [Hc'| ->]%elem_of_snoc Hc't; [|lia].
        by destruct (Hall c' Hc').
    + left. split; [done|].
      apply orb_false_iff in Hle as [Hlt%bool_decide_eq_false Heq%bool_decide_eq_false].
      intros c' [Hc'| ->]%elem_of_snoc; [by apply Hall|lia].
  - injection Hbest as -> ->.
    rewrite (bool_decide_eq_false_2 (git.Hash_String _ = ""))
      by apply Hash_String_nonempty.
    rewrite orb_false_l.
    destruct (bool_decide (git.When (git.Author c) < target)
              || bool_decide (git.When (git.Author c) = target)) eqn:Hle.
    + assert (git.When (git.Author c) ≤ target) as Hct.
      { apply orb_true_iff in Hle as [?%bool_decide_eq_true|?%bool_decide_eq_true]; lia. }
      clear Hle. case_bool_decide as Hlater; right.
      * exists c. split; [|done]. repeat split; [apply elem_of_snoc; auto|done|].
        intros c' [Hc'| ->]%elem_of_snoc Hc't; [|lia].
        specialize (Hmax c' Hc' Hc't). lia.
      * exists b. split; [|done]. repeat split; [apply elem_of_snoc; auto|done|].
        intros c' [Hc'| ->]%elem_of_snoc Hc't; [by apply Hmax|lia].
    + right. exists b. split; [|done]. repeat split; [apply elem_of_snoc; auto|done|].
      apply orb_false_iff in Hle as [Hlt%bool_decide_eq_false Heq%bool_decide_eq_false].
      intros c' [Hc'| ->]%elem_of_snoc Hc't; [by apply Hmax|lia].
Qed.

Lemma foldl_visit_best_so_far target cs :
  best_so_far target cs (foldl (versioner.visit target) ("", versioner.zero_Time) cs).
Proof.
  induction cs as [|c cs IH] using rev_ind.
  - left. split; [done|]. intros c Hc. by apply elem_of_nil in Hc.
  - rewrite foldl_app. simpl. by apply visit_best_so_far.
Qed.

Lemma latest_at_or_before_Permutation target cs cs' c :
  cs ≡ₚ cs' → latest_at_or_before target cs c → latest_at_or_before target cs' c.
Proof.
  intros Hp (Hc & Hct & Hmax). repeat split; [by rewrite <-Hp|done|].
  intros c' Hc'. apply Hmax. by rewrite Hp.
Qed.

(** What [FindCommitByTime] returns when the library reports no failure, in
    terms of the commits HEAD reaches. *)
Lemma FindCommitByTime_cases fault fmt target repo :
  fault git.OpLog = None → fault git.OpForEach = None →
  let result := versioner.FindCommitByTime fault fmt target repo in
  (∃ c, latest_at_or_before target (reachable repo) c
        ∧ result = (git.Hash_String (git.CommitId c), None))
  ∨ ((∀ c, c ∈ reachable repo → ¬ git.When (git.Author c) ≤ target)
     ∧ ∃ err, result = ("", Some err)).
Proof.
  intros Hlog Hforeach result. subst result.
  unfold versioner.FindCommitByTime, git.Log, reachable. rewrite Hlog.
  destruct (git.head_history repo) as [cs|]; simpl.
  - pose proof (foldl_visit_best_so_far target (merge_sort git.newer cs)) as Hbest.
    destruct (foldl (versioner.visit target) _ _) as [bestHash bestTime].
    rewrite Hforeach.
    destruct Hbest as [[Hnone Hall]|(c & Hlatest & Hbest)]; simpl in *.
    + right. subst bestHash. split.
      * intros c Hc. apply Hall. by rewrite merge_sort_Permutation.
      * rewrite bool_decide_eq_true_2 by done. eauto.
    + left. exists c. injection Hbest as -> ->. split.
      * eapply latest_at_or_before_Permutation; [|done]. apply merge_sort_Permutation.
      * by rewrite bool_decide_eq_false_2 by apply Hash_String_nonempty.
  - right. split; [|eauto]. intros c Hc. by apply elem_of_nil in Hc.
Qed.

(** C3.  With no failure reported by the library, [FindCommitByTime t]
    returns the id of a commit whose author time is the largest at or before
    [t] among the commits HEAD reaches, and it returns an error exactly when
    no commit was authored at or before [t]; with three commits authored at
    [t1 < t2 < t3], every [t] from [t2] up to but excluding [t3] gives the
    second commit. *)
Theorem FindCommitByTime_latest_at_or_before fault fmt target repo :
  fault git.OpLog = None → fault git.OpForEach = None →
  let result := versioner.FindCommitByTime fault fmt target repo in
  let eligible := ∃ c, c ∈ reachable repo ∧ git.When (git.Author c) ≤ target in
  (eligible →
     ∃ c, latest_at_or_before target (reachable repo) c
          ∧ result = (git.Hash_String (git.CommitId c), None))
  ∧ (¬ eligible → ∃ err, result = ("", Some err))
  ∧ (is_Some result.2 ↔ ¬ eligible)
  ∧ (∀ c1 c2 c3,
       reachable repo ≡ₚ [c1; c2; c3] →
       git.When (git.Author c1) < git.When (git.Author c2) →
       git.When (git.Author c2) < git.When (git.Author c3) →
       git.When (git.Author c2) ≤ target < git.When (git.Author c3) →
       result = (git.Hash_String (git.CommitId c2), None)).
Proof.
  intros Hlog Hforeach result eligible.
  pose proof (FindCommitByTime_cases fault fmt target repo Hlog Hforeach) as Hcases.
  fold result in Hcases.
  assert (eligible → ∃ c, latest_at_or_before target (reachable repo) c
                          ∧ result = (git.Hash_String (git.CommitId c), None)) as Hfound.
  { intros (c & Hc & Hct). destruct Hcases as [?|[Hnone _]]; [done|].
    by destruct (Hnone c Hc). }
  assert (¬ eligible → ∃ err, result = ("", Some err)) as Hmissing.
  { intros Hnot. destruct Hcases as [(c & (Hc & Hct & _) & _)|[_ ?]]; [|done].
    destruct Hnot. by exists c. }
  repeat split; try done.
  - intros [err Herr] Hel. destruct (Hfound Hel) as (c & _ & Hres).
    rewrite Hres in Herr. done.
  - intros Hnot. destruct (Hmissing Hnot) as [err ->]. by eexists.
  - intros c1 c2 c3 Hperm H12 H23 [H2t Ht3].
    assert (c2 ∈ reachable repo) as Hc2.
    { rewrite Hperm. apply elem_of_cons. right. apply elem_of_cons. by left. }
    destruct Hfound as (c & (Hc & Hct & Hmax) & ->); [by exists c2|].
    specialize (Hmax c2 Hc2 H2t). rewrite Hperm in Hc.
    apply elem_of_cons in Hc as [->|Hc]; [lia|].
    apply elem_of_cons in Hc as [->|Hc]; [done|].
    apply list_elem_of_singleton in Hc as ->. lia.
Qed.

(** A history of three snapshots on the branch [main], the latest first. *)
Definition example_signature (when : Z) : git.Signature :=
  {| git.SigName := "GitOps-Time-Machine"; git.SigEmail := "gitops-tm@automated";
     git.When := when |}.

Definition example_commit (id : N) (when : Z) (tree : git.Tree) (parent : option N)
    : git.Commit :=
  {| git.CommitId := id; git.Author := example_signature when;
     git.Committer := example_signature when;
     git.Message := "[snapshot]"; git.CommitTree := tree; git.ParentId := parent |}.

Definition example_tree (replicas : string) : git.Tree :=
  {[ "_metadata.yaml" := "resourceCount: 1";
     "default/deployment/nginx.yaml" := replicas ]}.

Definition example_history : list git.Commit :=
  [ example_commit 3003 1200 (example_tree "replicas: 7") (Some 2002%N);
    example_commit 2002 1100 (example_tree "replicas: 5") (Some 1001%N);
    example_commit 1001 1000 (example_tree "replicas: 3") None ].

Definition example_repo (branch : string) : git.Repository :=
  {| git.branches := {[ branch := example_history ]};
     git.HEAD := git.OnBranch branch;
     git.index := example_tree "replicas: 7";
     git.worktree := example_tree "replicas: 7" |}.

Definition no_fault {Op} (op : Op) : option string := None.

Definition example_format (t : Z) : string := pretty t.

Example FindCommitByTime_example :
  versioner.FindCommitByTime no_fault example_format 1150 (example_repo "main")
    = (git.Hash_String 2002%N, None)
  ∧ versioner.FindCommitByTime no_fault example_format 1100 (example_repo "main")
    = (git.Hash_String 2002%N, None)
  ∧ versioner.FindCommitByTime no_fault example_format 999 (example_repo "main")
    = ("", Some "no snapshot found at or before 999").
Proof. vm_compute. done. Qed.

Lemma FindCommitByTime_latest_at_or_before_witness :
  let repo := example_repo "main" in
  let target := 1150 in
  let result := versioner.FindCommitByTime no_fault example_format target repo in
  let eligible := ∃ c, c ∈ reachable repo ∧ git.When (git.Author c) ≤ target in
  (eligible →
     ∃ c, latest_at_or_before target (reachable repo) c
          ∧ result = (git.Hash_String (git.CommitId c), None))
  ∧ (¬ eligible → ∃ err, result = ("", Some err))
  ∧ (is_Some result.2 ↔ ¬ eligible)
  ∧ (∀ c1 c2 c3,
       reachable repo ≡ₚ [c1; c2; c3] →
       git.When (git.Author c1) < git.When (git.Author c2) →
       git.When (git.Author c2) < git.When (git.Author c3) →
       git.When (git.Author c2) ≤ target < git.When (git.Author c3) →
       result = (git.Hash_String (git.CommitId c2), None)).
Proof.
  apply (FindCommitByTime_latest_at_or_before no_fault example_format 1150
           (example_repo "main")); reflexivity.
Defined.

(** ** Committing a snapshot *)

Lemma AddAll_history fault repo staged :
  git.AddAll fault repo = inr staged →
  git.branches staged = git.branches repo ∧ git.HEAD staged = git.HEAD repo
  ∧ git.index staged = git.worktree repo ∧ git.worktree staged = git.worktree repo.
Proof.
  unfold git.AddAll. destruct (fault git.OpAdd); [done|]. by intros [= <-].
Qed.

Lemma reachable_AddAll fault repo staged :
  git.AddAll fault repo = inr staged → reachable staged = reachable repo.
Proof.
  intros (Hb & Hh & _)%AddAll_history. unfold reachable, git.head_history.
  by rewrite Hb, Hh.
Qed.

(** A commit puts the index on top of what HEAD reached, under the author
    it is given. *)
Lemma CommitIndex_history fault object_id message author repo id repo' :
  git.CommitIndex fault object_id message author repo = inr (id, repo') →
  ∃ c, reachable repo' = c :: reachable repo ∧ git.CommitId c = id
       ∧ git.Author c = author ∧ git.Message c = message
       ∧ git.CommitTree c = git.index repo.
Proof.
  unfold git.CommitIndex. destruct (fault git.OpCommit); [done|].
  intros [= <- <-].
  exists {| git.CommitId :=
              object_id message author (git.index repo)
                (git.CommitId <$> head (default [] (git.head_history repo)));
            git.Author := author; git.Committer := author; git.Message := message;
            git.CommitTree := git.index repo;
            git.ParentId := git.CommitId <$> head (default [] (git.head_history repo)) |}.
  split; [|done].
  unfold reachable at 1, git.head_history at 1.
  destruct (git.HEAD repo) as [name|history] eqn:Hhead; simpl.
  - by rewrite lookup_insert_eq.
  - done.
Qed.

Lemma history_from_Some p cs c cs' :
  git.history_from p cs = Some (c :: cs') → p c = true.
Proof.
  induction cs as [|c0 cs IH]; [done|]. simpl.
  destruct (p c0) eqn:Hp; [|done]. by intros [= <- <-].
Qed.

Lemma find_history_Some p repo c cs :
  git.find_history p repo = Some (c :: cs) → p c = true.
Proof.
  unfold git.find_history. intros Hhead.
  apply head_Some_elem_of, list_elem_of_omap in Hhead as (history & _ & Hfrom).
  by eapply history_from_Some.
Qed.

Lemma CommitObject_id fault id repo c :
  git.CommitObject fault id repo = inr c → git.CommitId c = id.
Proof.
  unfold git.CommitObject. destruct (fault git.OpCommitObject); [done|].
  destruct (git.find_history _ repo) as [[|c' cs]|] eqn:Hfind; try done.
  intros [= <-]. apply find_history_Some in Hfind. by apply bool_decide_eq_true in Hfind.
Qed.

(** C2.  When staging leaves nothing to commit, [Commit] returns the empty
    string and no error, and HEAD reaches the commits it reached before; and
    whenever [Commit] returns a non-empty hash, there is no error and HEAD
    reaches one commit more: the one with that id, authored at the capture
    time of the snapshot, holding the tree that was staged. *)
Theorem Commit_clean_or_new_commit fault object_id fmt cfg metadata repo :
  let result := versioner.Commit fault object_id fmt cfg metadata repo in
  (∀ staged,
     git.Worktree fault repo = None →
     git.AddAll fault repo = inr staged →
     git.StatusIsClean fault staged = inr true →
     result = (("", None), staged) ∧ reachable staged = reachable repo)
  ∧ (result.1.1 ≠ "" →
     result.1.2 = None
     ∧ ∃ c, reachable result.2 = c :: reachable repo
            ∧ result.1.1 = git.Hash_String (git.CommitId c)
            ∧ git.When (git.Author c) = Timestamp metadata
            ∧ git.CommitTree c = git.worktree repo).
Proof.
  intros result. subst result. unfold versioner.Commit. split.
  - intros staged -> Hadd Hclean. rewrite Hadd, Hclean. split; [done|].
    by eapply reachable_AddAll.
  - destruct (git.Worktree fault repo); [done|].
    destruct (git.AddAll fault repo) as [err|staged] eqn:Hadd; [done|].
    destruct (git.StatusIsClean fault staged) as [err|[|]]; [done..|].
    destruct (git.CommitIndex _ _ _ _ staged) as [err|[id repo']] eqn:Hcommit; [done|].
    destruct (git.CommitObject fault id repo') as [err|commitObj] eqn:Hobj; [done|].
    simpl. intros _. split; [done|].
    apply CommitIndex_history in Hcommit as (c & Hreach & Hid & Hauthor & _ & Htree).
    apply CommitObject_id in Hobj. apply AddAll_history in Hadd as Hstaged.
    destruct Hstaged as (_ & _ & Hindex & _).
    exists c. rewrite Hreach, (reachable_AddAll _ _ _ Hadd), Hobj, Hid, Hauthor, Htree.
    done.
Qed.

(** An object id for the examples: the author time, which tells their
    commits apart. *)
Definition example_object_id (message : string) (author : git.Signature)
    (tree : git.Tree) (parent : option git.Hash) : git.Hash :=
  Z.to_N (git.When author).

Definition example_config : config.GitConfig :=
  {| config.AuthorName := "GitOps-Time-Machine";
     config.AuthorEmail := "gitops-tm@automated";
     config.CommitMessagePrefix := "[snapshot]";
     config.Branch := "main" |}.

Definition example_capture (when : Z) : SnapshotMetadata :=
  {| Timestamp := when; ClusterName := "test-cluster"; Context := "test-context";
     ResourceCount := 1; Namespaces := ["default"]; CommitHash := "" |}.

(** The working tree of [example_repo] after one more capture of a changed
    cluster. *)
Definition changed_repo : git.Repository :=
  {| git.branches := git.branches (example_repo "main");
     git.HEAD := git.HEAD (example_repo "main");
     git.index := git.index (example_repo "main");
     git.worktree := example_tree "replicas: 9" |}.

Example Commit_example :
  versioner.Commit no_fault example_object_id example_format example_config
      (example_capture 1300) (example_repo "main")
    = (("", None), example_repo "main")
  ∧ (versioner.Commit no_fault example_object_id example_format example_config
      (example_capture 1300) changed_repo).1
    = (git.Hash_String 1300%N, None)
  ∧ git.Message <$> reachable
      (versioner.Commit no_fault example_object_id example_format example_config
        (example_capture 1300) changed_repo).2
    = ["[snapshot] 1300 — 1 resources across 1 namespaces";
       "[snapshot]"; "[snapshot]"; "[snapshot]"].
Proof. vm_compute. done. Qed.

Lemma Commit_clean_or_new_commit_witness :
  let repo := changed_repo in
  let metadata := example_capture 1300 in
  let result :=
    versioner.Commit no_fault example_object_id example_format example_config
      metadata repo in
  (∀ staged,
     git.Worktree no_fault repo = None →
     git.AddAll no_fault repo = inr staged →
     git.StatusIsClean no_fault staged = inr true →
     result = (("", None), staged) ∧ reachable staged = reachable repo)
  ∧ (result.1.1 ≠ "" →
     result.1.2 = None
     ∧ ∃ c, reachable result.2 = c :: reachable repo
            ∧ result.1.1 = git.Hash_String (git.CommitId c)
            ∧ git.When (git.Author c) = Timestamp metadata
            ∧ git.CommitTree c = git.worktree repo).
Proof.
  apply (Commit_clean_or_new_commit no_fault example_object_id example_format
           example_config (example_capture 1300) changed_repo).
Defined.

(** ** Time travel *)

(** The working tree is on the configured branch: HEAD names it, and index
    and working tree hold the tree of its latest commit. *)
Definition on_branch (cfg : config.GitConfig) (repo : git.Repository) : Prop :=
  git.HEAD repo = git.OnBranch (config.Branch cfg)
  ∧ ∃ c cs, git.branches repo !! config.Branch cfg = Some (c :: cs)
            ∧ git.index repo = git.CommitTree c ∧ git.worktree repo = git.CommitTree c.




Lemma CheckoutAt_fails_unchanged fault h repo err repo' :
  versioner.CheckoutAt fault h repo = (Some err, repo') → repo' = repo.
Proof.
  unfold versioner.CheckoutAt.
  destruct (git.Worktree fault repo); [by intros [= _ <-]|].
  destruct (git.CheckoutHash fault _ repo); [by intros [= _ <-]|done].
Qed.

Lemma CheckoutAt_branches fault h repo detached :
  versioner.CheckoutAt fault h repo = (None, detached) →
  git.branches detached = git.branches repo.
Proof.
  unfold versioner.CheckoutAt, git.CheckoutHash.
  destruct (git.Worktree fault repo); [done|].
  destruct (fault git.OpCheckout); [done|].
  destruct (git.find_history _ repo) as [[|c cs]|]; try done. by intros [= <-].
Qed.


(** The snapshot the examples read from a working tree. *)
Definition example_Read (tree : git.Tree) : git.error + ResourceSnapshot :=
  match tree !! "_metadata.yaml" with
  | Some _ => inr example_base
  | None => inl "failed to read metadata"
  end.



(** ** Collecting with a namespace allow-list *)

Lemma inList_elem_of (ns : string) (l : list string) : collector.inList ns l ↔ ns ∈ l.
Proof.
  induction l as [|x l IH]; simpl.
  - split; [done|]. intros []%elem_of_nil.
  - case_decide as Hx.
    + subst. split; [|done]. intros _. by left.
    + rewrite IH, elem_of_cons. split; [auto|]. by intros [?|?].
Qed.

(** What the two filters of [Collect] let through.  The allow-list is
    consulted for the empty namespace of cluster-scoped resources as for any
    other. *)
Definition allowed (cfg : config.Config) (res : Resource) : Prop :=
  (Namespace res ∉ config.ExcludeNamespaces (config.Snapshot cfg))
  ∧ (config.Namespaces (config.Snapshot cfg) = []
     ∨ Namespace res ∈ config.Namespaces (config.Snapshot cfg)).

Lemma keep_allowed cfg (acc : list Resource * gset string) (res : Resource) :
  Forall (allowed cfg) acc.1 → Forall (allowed cfg) (collector.keep cfg acc res).1.
Proof.
  destruct acc as [resources namespacesSet]. unfold collector.keep. simpl. intros Hacc.
  destruct (collector.shouldExcludeNamespace cfg (Namespace res)) eqn:Hex; [done|].
  destruct (bool_decide _ && negb (collector.shouldIncludeNamespace cfg (Namespace res)))
    eqn:Hin; [done|].
  simpl. apply Forall_app. split; [done|]. apply Forall_singleton. split.
  - intros Hns%inList_elem_of. unfold collector.shouldExcludeNamespace in Hex.
    by destruct (collector.inList _ _).
  - apply andb_false_iff in Hin as [Hlen%bool_decide_eq_false|Hin%negb_false_iff].
    + left. destruct (config.Namespaces (config.Snapshot cfg)); [done|].
      simpl in Hlen. lia.
    + right. apply inList_elem_of. unfold collector.shouldIncludeNamespace in Hin.
      by rewrite Hin.
Qed.

Lemma Collect_allowed ro now clusterName collectResource cfg :
  Forall (allowed cfg)
    (Resources (collector.Collect ro now clusterName collectResource cfg)).
Proof.
  unfold collector.Collect.
  destruct (foldl _ _ _) as [collected namespacesSet] eqn:Hloop. simpl.
  change collected with (collected, namespacesSet).1. rewrite <-Hloop. clear Hloop.
  generalize (config.ResourceTypes (config.Snapshot cfg)) as resTypes.
  assert (Forall (allowed cfg) (([] : list Resource), (∅ : gset string)).1) as Hinit
    by constructor.
  revert Hinit. generalize (([] : list Resource), (∅ : gset string)) as acc.
  intros acc Hacc resTypes. revert acc Hacc.
  induction resTypes as [|resType resTypes IH]; intros acc Hacc; [done|].
  simpl. apply IH.
  destruct (collector.resourceMapping !! resType) as [gvr|]; [|done].
  destruct (collectResource gvr) as [err|resources]; [done|].
  clear IH. revert acc Hacc.
  induction resources as [|res resources IH]; intros acc Hacc; [done|].
  simpl. apply IH. by apply keep_allowed.
Qed.

(** C10.  With a non-empty allow-list that does not hold the empty string,
    the collected snapshot holds no cluster-scoped resource: each resource it
    holds has a namespace of the allow-list, so none has the empty one. *)
Theorem Collect_allow_list_drops_cluster_scoped ro now clusterName collectResource cfg :
  config.Namespaces (config.Snapshot cfg) ≠ [] →
  "" ∉ config.Namespaces (config.Snapshot cfg) →
  Forall (λ res, Namespace res ∈ config.Namespaces (config.Snapshot cfg)
                 ∧ Namespace res ≠ "")
    (Resources (collector.Collect ro now clusterName collectResource cfg)).
Proof.
  intros Hnonempty Hcluster.
  eapply Forall_impl; [apply Collect_allowed|].
  intros res [_ [Hnil|Hin]]; [done|]. split; [done|]. intros Hns.
  by rewrite Hns in Hin.
Qed.

(** A cluster with a deployment in [default], one in [kube-system] and a
    cluster role, collected with the allow-list [default]. *)
Definition example_cluster (gvr : collector.GroupVersionResource)
    : string + list Resource :=
  if decide (collector.GVResource gvr = "deployments") then
    inr [ deployment "nginx" None None;
          {| APIVersion := "apps/v1"; Kind := "Deployment"; Namespace := "kube-system";
             Name := "coredns"; Labels := None; Annotations := None; Spec := None;
             Data := None; Raw := None |} ]
  else if decide (collector.GVResource gvr = "clusterroles") then
    inr [ cluster_role "admin" ]
  else inl "the server could not find the requested resource".

Definition example_collector_config (allow : list string) : config.Config :=
  {| config.Kubeconfig := "/home/gtm/.kube/config"; config.Context := "test-context";
     config.Snapshot :=
       {| config.OutputDir := "./infra-snapshots";
          config.ResourceTypes := ["deployments"; "widgets"; "services"; "clusterroles"];
          config.Namespaces := allow;
          config.ExcludeNamespaces := ["kube-system"; "kube-public"; "kube-node-lease"];
          config.StripFields := [".status"] |};
     config.Git := example_config |}.

Example Collect_example :
  Resources (collector.Collect id 7 "test-cluster" example_cluster
               (example_collector_config []))
    = [ deployment "nginx" None None; cluster_role "admin" ]
  ∧ Resources (collector.Collect id 7 "test-cluster" example_cluster
                 (example_collector_config ["default"]))
    = [ deployment "nginx" None None ].
Proof. vm_compute. done. Qed.

Lemma Collect_allow_list_drops_cluster_scoped_witness :
  let cfg := example_collector_config ["default"] in
  Forall (λ res, Namespace res ∈ config.Namespaces (config.Snapshot cfg)
                 ∧ Namespace res ≠ "")
    (Resources (collector.Collect id 7 "test-cluster" example_cluster cfg)).
Proof.
  apply (Collect_allow_list_drops_cluster_scoped id 7 "test-cluster" example_cluster
           (example_collector_config ["default"])).
  - simpl. discriminate.
  - simpl. intros Hin. apply list_elem_of_singleton in Hin. discriminate.
Defined.

(** ** Writing a snapshot over the output directory *)

(** The entries of the output directory; none when it is missing or a file
    stands in its place. *)
Definition root_entries (root : option os.Node) : gmap string os.Node :=
  match root with
  | Some (os.Dir entries) => entries
  | _ => ∅
  end.

(** One round of the loop of [cleanDirectory], on the error so far and the
    directory. *)
Definition clean_step (fault : os.Op → option os.error)
    (state : option os.error * gmap string os.Node) (name : string)
    : option os.error * gmap string os.Node :=
  let '(err, dir) := state in
  match err with
  | Some _ => (err, dir)
  | None =>
    if bool_decide (name = ".git") then (None, dir)
    else
      match os.RemoveAll fault name dir with
      | inl e => (Some ("failed to remove " +:+ name +:+ ": " +:+ e), dir)
      | inr dir => (None, dir)
      end
  end.

Lemma clean_step_failed fault err dir names :
  foldl (clean_step fault) (Some err, dir) names = (Some err, dir).
Proof. induction names as [|name names IH]; [done|]. simpl. apply IH. Qed.

(** The loop never touches [.git]; it only removes entries; and when it ends
    without error, every name it was given is gone, [.git] apart. *)
Lemma clean_loop fault names dir :
  let final := foldl (clean_step fault) (None, dir) names in
  final.2 !! ".git" = dir !! ".git"
  ∧ (final.1 = None →
     ∀ name, final.2 !! name =
             if decide (name ≠ ".git" ∧ name ∈ names) then None else dir !! name).
Proof.
  revert dir. induction names as [|n names IH]; intros dir; simpl.
  - split; [done|]. intros _ name. rewrite decide_False; [done|].
    intros [_ []%elem_of_nil].
  - case_bool_decide as Hgit.
    + destruct (IH dir) as [Hkeep Hgone]. split; [done|].
      intros Hok name. rewrite (Hgone Hok).
      apply decide_ext. rewrite elem_of_cons. subst n.
      split; [intros [? ?]; auto|]. intros [Hne [->|?]]; [done|auto].
    + unfold os.RemoveAll. destruct (fault (os.OpRemoveAll n)) as [e|].
      * rewrite clean_step_failed. simpl. split; [done|]. done.
      * destruct (IH (delete n dir)) as [Hkeep Hgone]. split.
        { rewrite Hkeep. by rewrite lookup_delete_ne. }
        intros Hok name. rewrite (Hgone Hok).
        destruct (decide (name = n)) as [->|Hne].
        -- rewrite lookup_delete_eq. rewrite (decide_True (P := n ≠ ".git" ∧ n ∈ n :: names));
             [by destruct (decide _)|]. split; [done|]. by left.
        -- rewrite lookup_delete_ne by done. apply decide_ext. rewrite elem_of_cons.
           split; [intros [? ?]; auto|]. intros [? [?|?]]; [done|auto].
Qed.

Lemma elem_of_ReadDir fault dir names name :
  os.ReadDir fault dir = inr names → name ∈ names ↔ is_Some (dir !! name).
Proof.
  unfold os.ReadDir. destruct (fault os.OpReadDir); [done|]. intros [= <-].
  by rewrite merge_sort_Permutation, elem_of_elements, elem_of_dom.
Qed.

Lemma foldl_pointwise {A B} (f g : A → B → A) (l : list B) (a : A) :
  (∀ a b, f a b = g a b) → foldl f a l = foldl g a l.
Proof.
  intros Hfg. revert a. induction l as [|b l IH]; intros a; [done|].
  simpl. by rewrite Hfg, IH.
Qed.

Lemma cleanDirectory_unfold fault root :
  snapshotter.cleanDirectory fault root =
    match os.MkdirAll_root fault root with
    | inl err => (Some err, root)
    | inr dir =>
      match os.ReadDir fault dir with
      | inl err => (Some err, Some (os.Dir dir))
      | inr entries =>
          let '(err, dir) := foldl (clean_step fault) (None, dir) entries in
          (err, Some (os.Dir dir))
      end
    end.
Proof.
  unfold snapshotter.cleanDirectory.
  destruct (os.MkdirAll_root fault root) as [err|dir]; [done|].
  destruct (os.ReadDir fault dir) as [err|entries]; [done|].
  rewrite (foldl_pointwise _ (clean_step fault)); [done|]. by intros [err d] name.
Qed.

(** What [cleanDirectory] leaves behind. *)
Lemma cleanDirectory_spec fault root :
  let cleaned := snapshotter.cleanDirectory fault root in
  root_entries cleaned.2 !! ".git" = root_entries root !! ".git"
  ∧ (cleaned.1 = None →
     ∃ dir, cleaned.2 = Some (os.Dir dir)
            ∧ dir !! ".git" = root_entries root !! ".git"
            ∧ ∀ name, name ≠ ".git" → dir !! name = None).
Proof.
  rewrite cleanDirectory_unfold.
  destruct (os.MkdirAll_root fault root) as [err|dir] eqn:Hmkdir; [done|].
  assert (dir = root_entries root) as Hdir.
  { unfold os.MkdirAll_root in Hmkdir. destruct (fault _); [done|].
    destruct root as [[data|entries]|]; by simplify_eq. }
  destruct (os.ReadDir fault dir) as [err|names] eqn:Hread; simpl.
  { split; [by rewrite Hdir|done]. }
  destruct (clean_loop fault names dir) as [Hkeep Hgone].
  destruct (foldl (clean_step fault) (None, dir) names) as [err dir']. simpl in *.
  split; [by rewrite Hkeep, Hdir|]. intros ->. exists dir'.
  split; [done|]. split; [by rewrite Hkeep, Hdir|].
  intros name Hname. rewrite (Hgone eq_refl).
  destruct (dir !! name) as [node|] eqn:Hnode.
  - rewrite decide_True; [done|]. split; [done|].
    apply (elem_of_ReadDir fault dir names name Hread). eauto.
  - by destruct (decide _).
Qed.

(** The content of the file at a path below a directory, if there is one. *)
Fixpoint file_at (path : list string) (dir : gmap string os.Node) : option string :=
  match path with
  | [] => None
  | name :: rest =>
    match dir !! name with
    | Some (os.File data) => if rest is [] then Some data else None
    | Some (os.Dir sub) => file_at rest sub
    | None => None
    end
  end.

Lemma file_at_empty (path : list string) : file_at path ∅ = None.
Proof. destruct path; [done|]. simpl. by rewrite lookup_empty. Qed.

(** Making directories makes no file and touches none. *)
Lemma mkdir_all_file_at (p : list string) (dir dir' : gmap string os.Node) :
  os.mkdir_all p dir = inr dir' → ∀ path, file_at path dir' = file_at path dir.
Proof.
  revert dir dir'. induction p as [|name rest IH]; intros dir dir'; simpl.
  { by intros [= <-]. }
  destruct (dir !! name) as [[data|sub]|] eqn:Hname; [done| |].
  - destruct (os.mkdir_all rest sub) as [e|sub'] eqn:Hsub; [done|]. intros [= <-].
    intros [|n r]; [done|]. simpl. destruct (decide (n = name)) as [->|Hne].
    + rewrite lookup_insert_eq, Hname. by apply IH.
    + by rewrite lookup_insert_ne.
  - destruct (os.mkdir_all rest ∅) as [e|sub'] eqn:Hsub; [done|]. intros [= <-].
    intros [|n r]; [done|]. simpl. destruct (decide (n = name)) as [->|Hne].
    + rewrite lookup_insert_eq, Hname. rewrite (IH _ _ Hsub). apply file_at_empty.
    + by rewrite lookup_insert_ne.
Qed.

(** Writing a file changes what is at its path and nothing else. *)
Lemma write_file_file_at (p : list string) (data : string)
    (dir dir' : gmap string os.Node) :
  os.write_file p data dir = inr dir' →
  ∀ path, file_at path dir' = if decide (path = p) then Some data else file_at path dir.
Proof.
  revert dir dir'. induction p as [|name rest IH]; intros dir dir'; [done|].
  destruct rest as [|next rest].
  - simpl. intros Hwrite.
    assert (dir' = <[name := os.File data]> dir ∧ ∀ sub, dir !! name ≠ Some (os.Dir sub))
      as [-> Hnodir].
    { destruct (dir !! name) as [[d|sub]|]; by simplify_eq. }
    intros [|n r]; [done|]. simpl. destruct (decide (n = name)) as [->|Hne].
    + rewrite lookup_insert_eq. destruct r as [|n' r].
      * by rewrite decide_True.
      * rewrite decide_False by done.
        destruct (dir !! name) as [[d|sub]|] eqn:Hname; try done; by destruct (Hnodir sub).
    + rewrite lookup_insert_ne by done. rewrite decide_False; [done|]. congruence.
  - intros Hwrite. change (os.write_file (name :: next :: rest) data dir) with
      (match dir !! name with
       | Some (os.Dir sub) =>
           match os.write_file (next :: rest) data sub with
           | inl e => inl e
           | inr sub => inr (<[name := os.Dir sub]> dir)
           end
       | _ => inl "no such file or directory"
       end) in Hwrite.
    destruct (dir !! name) as [[d|sub]|] eqn:Hname; try done.
    destruct (os.write_file (next :: rest) data sub) as [e|sub'] eqn:Hsub; [done|].
    injection Hwrite as <-.
    intros [|n r]; [done|]. simpl. destruct (decide (n = name)) as [->|Hne].
    + rewrite lookup_insert_eq, Hname, (IH _ _ Hsub).
      destruct (decide (r = next :: rest)) as [->|Hr].
      * by rewrite decide_True.
      * rewrite decide_False; [done|]. congruence.
    + rewrite lookup_insert_ne by done. rewrite decide_False; [done|]. congruence.
Qed.

(** The path of the manifest of a resource below the output directory. *)
Definition resourcePath (resource : Resource) : list string :=
  snapshotter.resourceDir resource
    ++ snapshotter.Join [snapshotter.sanitizeFilename (Name resource) +:+ ".yaml"].

(** Writing a resource leaves the files there are, but for the manifest of
    the resource. *)
Lemma writeResource_file_at fault marshal_raw marshal_resource resource dir :
  ∀ path data,
    file_at path
      (snapshotter.writeResource fault marshal_raw marshal_resource resource dir).2
      = Some data →
    file_at path dir = Some data ∨ path = resourcePath resource.
Proof.
  intros path data. unfold snapshotter.writeResource, os.MkdirAll, os.WriteFile.
  destruct (fault (os.OpMkdirAll _)); [by left|].
  destruct (os.mkdir_all _ dir) as [e|made] eqn:Hmkdir; [by left|].
  pose proof (mkdir_all_file_at _ _ _ Hmkdir) as Hmade.
  destruct (match Raw resource with Some raw => _ | None => _ end) as [e|content]; simpl.
  { rewrite Hmade. by left. }
  fold (resourcePath resource).
  destruct (fault (os.OpWriteFile _)); simpl; [rewrite Hmade; by left|].
  destruct (os.write_file _ content made) as [e|written] eqn:Hwrite; simpl.
  { rewrite Hmade. by left. }
  rewrite (write_file_file_at _ _ _ _ Hwrite).
  case_decide; [by right|]. rewrite Hmade. by left.
Qed.

Lemma writeMetadata_file_at fault marshal_metadata snapshot dir :
  ∀ path data,
    file_at path (snapshotter.writeMetadata fault marshal_metadata snapshot dir).2
      = Some data →
    file_at path dir = Some data ∨ path = ["_metadata.yaml"].
Proof.
  intros path data. unfold snapshotter.writeMetadata, os.WriteFile.
  destruct (marshal_metadata _) as [e|content]; [by left|].
  destruct (fault (os.OpWriteFile _)); [by left|].
  destruct (os.write_file _ content dir) as [e|written] eqn:Hwrite; [by left|]. simpl.
  rewrite (write_file_file_at _ _ _ _ Hwrite).
  case_decide as Hpath; [by right|]. by left.
Qed.

(** The files of a repopulated directory are those it held, the metadata
    file and the manifests of the resources of the snapshot. *)
Lemma repopulate_file_at fault mm mr mres snapshot dir :
  ∀ path data,
    file_at path (snapshotter.repopulate fault mm mr mres snapshot dir).2 = Some data →
    file_at path dir = Some data ∨ path = ["_metadata.yaml"]
    ∨ ∃ resource, resource ∈ Resources snapshot ∧ path = resourcePath resource.
Proof.
  intros path data. unfold snapshotter.repopulate.
  pose proof (writeMetadata_file_at fault mm snapshot dir path) as Hmeta.
  destruct (snapshotter.writeMetadata fault mm snapshot dir) as [[e|] dir1]; simpl in *.
  { intros [?|?]%Hmeta; auto. }
  revert dir1 Hmeta. generalize (Resources snapshot) as resources.
  induction resources as [|r resources IH] using rev_ind; intros dir1 Hmeta; simpl.
  { intros [?|?]%Hmeta; auto. }
  rewrite foldl_app. simpl.
  intros [Hold| ->]%writeResource_file_at.
  - destruct (IH dir1 Hmeta Hold) as [?|[?|(r' & Hr' & ->)]]; auto.
    right. right. exists r'. split; [|done]. apply elem_of_app. by left.
  - right. right. exists r. split; [|done]. apply elem_of_app. right. by left.
Qed.

(** C7.  The clean step of [Write] never touches [.git], also when it fails;
    when it fails [Write] returns its error and repopulates nothing; when it
    succeeds, [.git] is the only entry left under the output directory, with
    what it held, and [Write] repopulates from there.  So after a successful
    [Write] every file outside [.git] is the metadata file or the manifest of
    a resource of the snapshot that was written. *)
Theorem Write_cleans_before_repopulating fault mm mr mres snapshot root :
  let cleaned := snapshotter.cleanDirectory fault root in
  let written := snapshotter.Write fault mm mr mres snapshot root in
  root_entries cleaned.2 !! ".git" = root_entries root !! ".git"
  ∧ (∀ err, cleaned.1 = Some err →
       written = (Some ("failed to clean output directory: " +:+ err), cleaned.2))
  ∧ (cleaned.1 = None →
       ∃ dir, cleaned.2 = Some (os.Dir dir)
              ∧ dir !! ".git" = root_entries root !! ".git"
              ∧ (∀ name, name ≠ ".git" → dir !! name = None)
              ∧ written =
                  ((snapshotter.repopulate fault mm mr mres snapshot dir).1,
                   Some (os.Dir (snapshotter.repopulate fault mm mr mres snapshot dir).2)))
  ∧ (∀ final, written = (None, final) →
       ∃ dir, final = Some (os.Dir dir)
              ∧ ∀ path data, file_at path dir = Some data →
                  head path = Some ".git" ∨ path = ["_metadata.yaml"]
                  ∨ ∃ resource, resource ∈ Resources snapshot
                                ∧ path = resourcePath resource).
Proof.
  intros cleaned written.
  destruct (cleanDirectory_spec fault root) as [Hgit Hclean]. fold cleaned in Hgit, Hclean.
  assert (∀ err, cleaned.1 = Some err →
    written = (Some ("failed to clean output directory: " +:+ err), cleaned.2)) as Hfail.
  { intros err Herr. subst written. unfold snapshotter.Write. fold cleaned.
    destruct cleaned as [e r]. simpl in Herr. by subst e. }
  assert (cleaned.1 = None →
    ∃ dir, cleaned.2 = Some (os.Dir dir)
           ∧ dir !! ".git" = root_entries root !! ".git"
           ∧ (∀ name, name ≠ ".git" → dir !! name = None)
           ∧ written =
               ((snapshotter.repopulate fault mm mr mres snapshot dir).1,
                Some (os.Dir (snapshotter.repopulate fault mm mr mres snapshot dir).2)))
    as Hok.
  { intros Hnone. destruct (Hclean Hnone) as (dir & Hdir & Hkeep & Hgone).
    exists dir. repeat split; try done.
    subst written. unfold snapshotter.Write. fold cleaned.
    destruct cleaned as [e r]. simpl in *. subst e r.
    by destruct (snapshotter.repopulate fault mm mr mres snapshot dir). }
  repeat split; try done.
  intros final Hwritten. destruct (cleaned.1) as [err|] eqn:Herr.
  { rewrite (Hfail err eq_refl) in Hwritten. done. }
  destruct (Hok eq_refl) as (dir & _ & _ & Hgone & Hrun).
  rewrite Hrun in Hwritten. injection Hwritten as _ <-. eexists. split; [done|].
  intros path data [Hold|Hnew]%repopulate_file_at; [|by right].
  left. destruct path as [|name rest]; [done|]. simpl in *.
  destruct (decide (name = ".git")) as [->|Hname]; [done|].
  by rewrite (Hgone name Hname) in Hold.
Qed.

(** A run of [Write] over an output directory that holds a repository, the
    manifest of a deployment that is no longer in the cluster and a stray
    file: both are gone, [.git] is as it was, and the tree holds the
    metadata and the manifests of the snapshot. *)
Definition example_git_dir : os.Node :=
  os.Dir {[ "HEAD" := os.File "ref: refs/heads/main" ]}.

Definition example_output_dir : option os.Node :=
  Some (os.Dir {[
    ".git" := example_git_dir;
    "_metadata.yaml" := os.File "old metadata";
    "notes.txt" := os.File "stray";
    "default" := os.Dir {[ "deployment" := os.Dir {[ "api.yaml" := os.File "old api" ]} ]}
  ]}).

Definition example_marshal_metadata (m : SnapshotMetadata) : os.error + string :=
  inr ("commit: " +:+ CommitHash m).

Definition example_marshal_raw (raw : gmap string Value) : os.error + string :=
  inr "raw".

Definition example_marshal_resource (r : Resource) : os.error + string :=
  inr ("name: " +:+ Name r).

Example Write_example :
  snapshotter.Write no_fault example_marshal_metadata example_marshal_raw
    example_marshal_resource
    {| Metadata := example_metadata "target";
       Resources := [ deployment "nginx" None None; cluster_role "ops/admin" ] |}
    example_output_dir
  = (None, Some (os.Dir {[
      ".git" := example_git_dir;
      "_metadata.yaml" := os.File "commit: target";
      "default" :=
        os.Dir {[ "deployment" := os.Dir {[ "nginx.yaml" := os.File "name: nginx" ]} ]};
      "_cluster" :=
        os.Dir {[ "clusterrole" :=
                    os.Dir {[ "ops_admin.yaml" := os.File "name: ops/admin" ]} ]}
    ]})).
Proof. vm_compute. reflexivity. Qed.

(** A removal that fails stops the clean step: [Write] reports it and writes
    nothing. *)
Example Write_example_failed_clean :
  let fault op :=
    match op with os.OpRemoveAll "notes.txt" => Some "permission denied" | _ => None end in
  let written :=
    snapshotter.Write fault example_marshal_metadata example_marshal_raw
      example_marshal_resource
      {| Metadata := example_metadata "target"; Resources := [] |}
      example_output_dir in
  written.1 = Some "failed to clean output directory: failed to remove notes.txt: permission denied"
  ∧ root_entries written.2 !! ".git" = Some example_git_dir
  ∧ root_entries written.2 !! "_metadata.yaml" = None
  ∧ root_entries written.2 !! "notes.txt" = Some (os.File "stray").
Proof. vm_compute. done. Qed.

(** * Part III: further properties of the packages *)

(** ** pkg/analyzer: reports *)

(** The bindings a loop over a map visits are bindings of the map, whatever
    the order. *)
Lemma elem_of_range {V} ro (m : gmap string V) (k : string) (v : V) :
  (k, v) ∈ gomap.range ro m → m !! k = Some v.
Proof.
  unfold gomap.range. intros (k' & _ & Hkv)%list_elem_of_omap.
  destruct (m !! k') as [v'|] eqn:Hk'; simplify_eq/=. done.
Qed.

Lemma compareResources_same ro (r : Resource) : analyzer.compareResources ro r r = [].
Proof. apply compareResources_nil. auto. Qed.

Lemma entries_over_same ro (index : gmap string Resource) (bs ts : list (string * Resource)) :
  (∀ k r, (k, r) ∈ bs → index !! k = Some r) →
  (∀ k r, (k, r) ∈ ts → index !! k = Some r) →
  entries_over ro index index bs ts = [].
Proof.
  intros Hbs Hts. unfold entries_over.
  assert (∀ (f : string * Resource → option DriftEntry) l,
    (∀ kv, kv ∈ l → f kv = None) → omap f l = []) as Hnone.
  { intros f l Hf. induction l as [|kv l IH]; [done|]. csimpl.
    rewrite (Hf kv) by (by left). apply IH. intros kv' Hkv'. apply Hf. by right. }
  rewrite !Hnone; [done|..].
  - intros [k r] Hkr. unfold modifiedEntry. simpl. rewrite (Hbs k r Hkr). simpl.
    by rewrite compareResources_same.
  - intros [k r] Hkr. unfold addedEntry. simpl. by rewrite (Hts k r Hkr).
  - intros [k r] Hkr. unfold removedEntry. simpl. by rewrite (Hbs k r Hkr).
Qed.

(** X1.  Two snapshots that list the same resources show no drift, whatever their
    metadata and whatever the order the maps are visited in: the report has
    no entry, [HasDrift] is false, and every distinct full name counts as
    unchanged. *)
Theorem Compare_same_resources_no_drift ro now (base : ResourceSnapshot)
    (metadata : SnapshotMetadata) :
  let target := {| Metadata := metadata; Resources := Resources base |} in
  let report := analyzer.Compare ro now base target in
  Entries report = []
  ∧ analyzer.HasDrift report = false
  ∧ Summary report =
      {| TotalResources := Z.of_nat (size (snapshot_names base));
         AddedResources := 0; RemovedResources := 0; ModifiedResources := 0;
         UnchangedResources := Z.of_nat (size (snapshot_names base)) |}.
Proof.
  intros target report.
  assert (Entries report = []) as Hentries.
  { unfold report. rewrite Compare_Entries. simpl.
    rewrite entries_over_same; [done|by apply elem_of_range..]. }
  split; [done|]. split.
  - unfold analyzer.HasDrift. by rewrite Hentries.
  - unfold report. rewrite Compare_Summary. fold report. rewrite Hentries. simpl.
    unfold gomap.len, snapshot_names. rewrite <-dom_indexResources, size_dom.
    unfold count_type. simpl. f_equal; lia.
Qed.

(** Every entry of a report is ADDED, REMOVED or MODIFIED. *)
Lemma Compare_entry_types ro now base target :
  Forall (λ e, EntryType e = DriftAdded ∨ EntryType e = DriftRemoved
               ∨ EntryType e = DriftModified)
    (Entries (analyzer.Compare ro now base target)).
Proof.
  rewrite Compare_Entries, Slice_Permutation. unfold entries_over.
  rewrite !Forall_app. repeat split.
  - eapply Forall_impl; [apply removedEntry_type|]. intros e [-> _]. auto.
  - eapply Forall_impl; [apply addedEntry_type|]. intros e [-> _]. auto.
  - eapply Forall_impl; [apply modifiedEntry_type|]. intros e [-> _]. auto.
Qed.

Lemma length_count_type (l : list DriftEntry) :
  Forall (λ e, EntryType e = DriftAdded ∨ EntryType e = DriftRemoved
               ∨ EntryType e = DriftModified) l →
  Z.of_nat (length l) =
    count_type DriftAdded l + count_type DriftRemoved l + count_type DriftModified l.
Proof.
  induction 1 as [|e l He _ IH]; [done|].
  rewrite !count_type_cons. simpl length. rewrite Nat2Z.inj_succ, IH.
  destruct He as [-> | [-> | ->]]; repeat case_decide; try done; lia.
Qed.

(** X2.  The entries of a report are as many as its summary counts as added,
    removed and modified; so [HasDrift] holds exactly when one of the three
    counters is positive, and every counter is non-negative. *)
Theorem HasDrift_iff_summary_counts ro now base target :
  let report := analyzer.Compare ro now base target in
  Z.of_nat (length (Entries report)) =
      AddedResources (Summary report) + RemovedResources (Summary report)
      + ModifiedResources (Summary report)
  ∧ 0 ≤ AddedResources (Summary report)
  ∧ 0 ≤ RemovedResources (Summary report)
  ∧ 0 ≤ ModifiedResources (Summary report)
  ∧ (analyzer.HasDrift report = true ↔
       0 < AddedResources (Summary report) + RemovedResources (Summary report)
           + ModifiedResources (Summary report)).
Proof.
  intros report.
  pose proof (length_count_type _ (Compare_entry_types ro now base target)) as Hlen.
  pose proof (Compare_Summary ro now base target) as Hsum.
  cbv zeta in Hsum. fold report in Hlen, Hsum. rewrite Hsum. simpl.
  split; [done|].
  assert (∀ ty, 0 ≤ count_type ty (Entries report)) as Hcount.
  { intros ty. unfold count_type. lia. }
  repeat (split; [apply Hcount|]).
  unfold analyzer.HasDrift. by rewrite bool_decide_eq_true, Hlen.
Qed.

(** *** The order of the entries *)

Lemma Compare_entry_keys_NoDup ro now base target :
  gomap.fair ro →
  NoDup (entry_key <$> Entries (analyzer.Compare ro now base target)).
Proof.
  intros Hro. rewrite (Compare_Entries_Permutation ro now base target Hro).
  apply entries_over_keys_NoDup; apply indexResources_FullName.
Qed.

(** X3.  The entries of a report go up strictly in the order of the comparison
    function that [Compare] hands to [sort.Slice]: by type, which puts ADDED
    before MODIFIED before REMOVED, then by full name.  So no two entries
    have both the same type and the same full name. *)
Theorem Compare_entries_sorted ro now base target :
  gomap.fair ro →
  let entries := Entries (analyzer.Compare ro now base target) in
  StronglySorted (λ e1 e2, analyzer.less e1 e2 = true) entries
  ∧ NoDup ((λ e, (EntryType e, FullName (EntryResource e))) <$> entries).
Proof.
  intros Hro entries. split; [|by apply Compare_entry_keys_NoDup].
  assert (StronglySorted entry_lt entries) as Hsorted.
  { unfold entries. rewrite Compare_Entries. apply Slice_less_sorted.
    rewrite (entries_over_Permutation ro _ _ _ _ _ _
               (range_Permutation ro Hro _) (range_Permutation ro Hro _)).
    apply entries_over_keys_NoDup; apply indexResources_FullName. }
  induction Hsorted as [|e l _ IH Hall]; constructor; [done|].
  eapply Forall_impl; [exact Hall|]. intros e' He'.
  apply Is_true_true, less_key_lt, He'.
Qed.

(** *** The order of the resources in a snapshot *)

Lemma indexResources_Permutation (rs rs' : list Resource) :
  NoDup (FullName <$> rs) → rs ≡ₚ rs' →
  analyzer.indexResources rs = analyzer.indexResources rs'.
Proof.
  intros Hnodup Hperm. apply map_eq. intros n.
  rewrite !indexResources_lookup. unfold resource_named.
  assert (filter (λ r, FullName r = n) rs ≡ₚ filter (λ r, FullName r = n) rs') as Hfilter
    by (by rewrite Hperm).
  assert (NoDup (FullName <$> filter (λ r, FullName r = n) rs)) as Hnd.
  { apply (sublist_NoDup _ (FullName <$> rs)); [done|].
    apply fmap_sublist, sublist_filter. }
  assert (Forall (λ r, FullName r = n) (filter (λ r, FullName r = n) rs)) as Hall.
  { apply Forall_forall. by intros r [? _]%list_elem_of_filter. }
  destruct (filter (λ r, FullName r = n) rs) as [|x [|y l]].
  - symmetry in Hfilter. apply Permutation_nil_r in Hfilter. by rewrite Hfilter.
  - apply Permutation_singleton_l in Hfilter. by rewrite <-Hfilter.
  - apply Forall_cons in Hall as [Hx Hall]. apply Forall_cons in Hall as [Hy _].
    csimpl in Hnd. rewrite Hx, Hy in Hnd. apply NoDup_cons in Hnd as [Hin _].
    destruct Hin. by left.
Qed.

(** X4.  The report does not depend on the order in which a snapshot lists its
    resources, as long as no two of them share a full name. *)
Theorem Compare_resource_order_irrelevant ro now
    (baseMeta targetMeta : SnapshotMetadata) (bs bs' ts ts' : list Resource) :
  NoDup (FullName <$> bs) → bs ≡ₚ bs' →
  NoDup (FullName <$> ts) → ts ≡ₚ ts' →
  analyzer.Compare ro now {| Metadata := baseMeta; Resources := bs |}
                          {| Metadata := targetMeta; Resources := ts |}
  = analyzer.Compare ro now {| Metadata := baseMeta; Resources := bs' |}
                            {| Metadata := targetMeta; Resources := ts' |}.
Proof.
  intros Hbs Hbperm Hts Htperm. unfold analyzer.Compare. simpl.
  by rewrite (indexResources_Permutation bs bs' Hbs Hbperm),
    (indexResources_Permutation ts ts' Hts Htperm).
Qed.

Lemma Compare_resource_order_irrelevant_witness :
  analyzer.Compare id 7 example_base example_target
  = analyzer.Compare id 7
      {| Metadata := Metadata example_base; Resources := reverse (Resources example_base) |}
      {| Metadata := Metadata example_target;
         Resources := reverse (Resources example_target) |}.
Proof.
  apply (Compare_resource_order_irrelevant id 7 (Metadata example_base)
           (Metadata example_target) (Resources example_base) _
           (Resources example_target) _).
  - apply (bool_decide_unpack _). by vm_compute.
  - symmetry. apply reverse_Permutation.
  - apply (bool_decide_unpack _). by vm_compute.
  - symmetry. apply reverse_Permutation.
Defined.

Lemma Compare_entries_sorted_witness :
  let entries := Entries (analyzer.Compare reverse 7 example_base example_target) in
  StronglySorted (λ e1 e2, analyzer.less e1 e2 = true) entries
  ∧ NoDup ((λ e, (EntryType e, FullName (EntryResource e))) <$> entries).
Proof.
  apply (Compare_entries_sorted reverse 7 example_base example_target).
  intros l. apply reverse_Permutation.
Defined.

(** *** Resources listed twice *)

Lemma size_list_to_set_le (l : list string) :
  (size (list_to_set l : gset string) ≤ length l)%nat.
Proof.
  induction l as [|x l IH]; [by rewrite list_to_set_nil, size_empty|].
  rewrite list_to_set_cons, size_union_alt, size_singleton. simpl length.
  pose proof (subseteq_size (list_to_set l ∖ {[x]}) (list_to_set l : gset string)) as Hle.
  specialize (Hle (subseteq_difference_l _ _ _ (reflexivity _))). lia.
Qed.

Lemma size_list_to_set_NoDup (l : list string) :
  size (list_to_set l : gset string) = length l ↔ NoDup l.
Proof.
  split; [|apply size_list_to_set].
  induction l as [|x l IH]; [constructor|]. rewrite list_to_set_cons. simpl length.
  intros Hsize.
  pose proof (size_list_to_set_le l) as Hle.
  destruct (decide (x ∈ l)) as [Hin|Hnotin].
  - assert (({[x]} ∪ list_to_set l : gset string) = list_to_set l) as Heq by set_solver.
    rewrite Heq in Hsize. lia.
  - constructor; [done|]. apply IH.
    rewrite size_union, size_singleton in Hsize by set_solver. lia.
Qed.

(** X5.  [indexResources] keeps one resource per full name: the last one the
    list holds under it.  The index has as many entries as the list exactly
    when no two resources share a full name; otherwise it has fewer. *)
Theorem indexResources_last_wins (rs : list Resource) :
  (∀ n, analyzer.indexResources rs !! n = last (filter (λ r, FullName r = n) rs))
  ∧ (size (analyzer.indexResources rs) ≤ length rs)%nat
  ∧ (size (analyzer.indexResources rs) = length rs ↔ NoDup (FullName <$> rs)).
Proof.
  split; [intros n; apply indexResources_lookup|].
  rewrite <-size_dom, dom_indexResources, <-(length_fmap FullName rs).
  split; [apply size_list_to_set_le|apply size_list_to_set_NoDup].
Qed.

(** *** What the field comparison reports *)

Lemma string_app_assoc (s1 s2 s3 : string) : (s1 +:+ s2) +:+ s3 = s1 +:+ s2 +:+ s3.
Proof.
  induction s1 as [|a s1 IH]; [done|].
  change (String a ((s1 +:+ s2) +:+ s3) = String a (s1 +:+ s2 +:+ s3)). by rewrite IH.
Qed.

Lemma deepCompareMap_fuel_paths ro fuel prefix base target :
  Forall (λ d, ∃ field, Path d = prefix +:+ "." +:+ field)
    (analyzer.deepCompareMap_fuel ro fuel prefix base target).
Proof.
  revert prefix base target.
  induction fuel as [|fuel IH]; intros prefix base target; [constructor|].
  rewrite deepCompareMap_fuel_S.
  assert (∀ k, Forall (λ d, ∃ field, Path d = prefix +:+ "." +:+ field)
    (key_diffs (analyzer.deepCompareMap_fuel ro fuel) prefix base target k)) as Hkey.
  { intros k. unfold key_diffs.
    destruct (gomap.index base k) as [bv|]; [|repeat constructor; simpl; eauto].
    destruct (gomap.index target k) as [tv|]; [|repeat constructor; simpl; eauto].
    assert (Forall (λ d, ∃ field, Path d = prefix +:+ "." +:+ field)
      (if negb (reflect.DeepEqual bv tv)
       then [ {| Path := prefix +:+ "." +:+ k; OldValue := bv; NewValue := tv |} ]
       else [])) as Hleaf.
    { destruct (negb _); repeat constructor; simpl; eauto. }
    destruct bv, tv; try exact Hleaf.
    eapply Forall_impl; [apply IH|]. intros d [field ->].
    exists (k +:+ "." +:+ field). by rewrite string_app_assoc. }
  destruct base as [bm|], target as [tm|]; [| | |constructor];
    apply Forall_bind, Forall_forall; intros k _; apply Hkey.
Qed.

(** X6.  Every field diff that [compareResources] reports is at
    [.metadata.labels], at [.metadata.annotations], or at a path below
    [.spec] or [.data]; the diffs come in this order, with at most one for
    the labels and one for the annotations. *)
Theorem compareResources_paths ro (base target : Resource) :
  ∃ labels annotations spec data,
    analyzer.compareResources ro base target = labels ++ annotations ++ spec ++ data
    ∧ (labels = [] ∨ ∃ d, labels = [d] ∧ Path d = ".metadata.labels"
                          ∧ OldValue d = VStringMap (Labels base)
                          ∧ NewValue d = VStringMap (Labels target)
                          ∧ Labels base ≠ Labels target)
    ∧ (annotations = [] ∨ ∃ d, annotations = [d] ∧ Path d = ".metadata.annotations"
                               ∧ OldValue d = VStringMap (Annotations base)
                               ∧ NewValue d = VStringMap (Annotations target)
                               ∧ Annotations base ≠ Annotations target)
    ∧ Forall (λ d, ∃ field, Path d = ".spec." +:+ field) spec
    ∧ Forall (λ d, ∃ field, Path d = ".data." +:+ field) data.
Proof.
  exists (labels_diffs base target), (annotations_diffs base target),
    (spec_diffs ro base target), (data_diffs ro base target).
  split; [apply compareResources_parts|]. repeat split.
  - unfold labels_diffs, reflect.DeepEqual. case_bool_decide as Heq; simpl; [by left|].
    right. eexists. repeat split; try done. congruence.
  - unfold annotations_diffs, reflect.DeepEqual. case_bool_decide as Heq; simpl; [by left|].
    right. eexists. repeat split; try done. congruence.
  - unfold spec_diffs. destruct (negb _); [|constructor].
    apply (deepCompareMap_fuel_paths ro _ ".spec").
  - unfold data_diffs. destruct (negb _); [|constructor].
    apply (deepCompareMap_fuel_paths ro _ ".data").
Qed.

(** A value with every nil map it holds as a field, at any depth of nested
    maps, replaced by the empty map. *)
Fixpoint nil_as_empty (v : Value) : Value :=
  match v with
  | VMap None => VMap (Some ∅)
  | VMap (Some m) => VMap (Some (nil_as_empty <$> m))
  | v => v
  end.

Lemma nil_as_empty_VMap (m : option (gmap string Value)) :
  nil_as_empty (VMap m) = VMap (Some (nil_as_empty <$> default ∅ m)).
Proof. destruct m; simpl; [done|]. by rewrite fmap_empty. Qed.

Lemma nil_as_empty_not_map (v : Value) :
  (∀ m, v ≠ VMap m) → nil_as_empty v = v.
Proof. destruct v as [| | | | |m|]; try done. intros Hv. by destruct (Hv m). Qed.

Lemma deepCompareMap_nil_iff_depth ro (n : nat) :
  gomap.fair ro →
  ∀ prefix base target, (value_depth (VMap base) < n)%nat →
    analyzer.deepCompareMap ro prefix base target = [] ↔
      nil_as_empty (VMap base) = nil_as_empty (VMap target).
Proof.
  intros Hro. induction n as [|n IH]; intros prefix base target Hdepth; [lia|].
  rewrite deepCompareMap_unfold, !nil_as_empty_VMap.
  destruct (decide (base = None ∧ target = None)) as [[-> ->]|Hsome]; [done|].
  assert (match base, target with
          | None, None => []
          | _, _ =>
              gomap.range_set ro (gomap.keys base ∪ gomap.keys target)
                ≫= key_diffs (analyzer.deepCompareMap ro) prefix base target
          end = gomap.range_set ro (gomap.keys base ∪ gomap.keys target)
                ≫= key_diffs (analyzer.deepCompareMap ro) prefix base target) as ->.
  { destruct base, target; try done. by destruct Hsome. }
  rewrite bind_nil_iff.
  assert (∀ k, gomap.index base k = default ∅ base !! k) as Hbase.
  { intros k. destruct base; simpl; [done|]. by rewrite lookup_empty. }
  assert (∀ k, gomap.index target k = default ∅ target !! k) as Htarget.
  { intros k. destruct target; simpl; [done|]. by rewrite lookup_empty. }
  assert (∀ k, key_diffs (analyzer.deepCompareMap ro) prefix base target k = [] ↔
    nil_as_empty <$> (default ∅ base !! k) = nil_as_empty <$> (default ∅ target !! k)
    ∧ is_Some (default ∅ base !! k)) as Hkey.
  { intros k. unfold key_diffs. rewrite Hbase, Htarget.
    destruct (default ∅ base !! k) as [bv|] eqn:Hbv; simpl;
      [|split; [done|by intros [_ []]]].
    destruct (default ∅ target !! k) as [tv|] eqn:Htv; simpl;
      [|split; [done|by intros [? _]]].
    assert (value_depth bv < n)%nat as Hbvn.
    { destruct base as [bm|]; simpl in Hbv; [|by rewrite lookup_empty in Hbv].
      apply value_depth_lookup in Hbv. simpl in *. lia. }
    assert ((∃ bsub tsub, bv = VMap bsub ∧ tv = VMap tsub)
            ∨ ¬ (∃ bsub tsub, bv = VMap bsub ∧ tv = VMap tsub))
      as [(bsub & tsub & -> & ->)|Hnot].
    { destruct bv, tv; try (right; by intros (? & ? & ? & ?)). left. eauto. }
    - rewrite (IH _ bsub tsub Hbvn). split; [|intros [? _]; congruence].
      intros ->. split; [done|eauto].
    - assert (match bv, tv with
              | VMap baseMap, VMap targetMap =>
                  analyzer.deepCompareMap ro (prefix +:+ "." +:+ k) baseMap targetMap
              | _, _ =>
                  if negb (reflect.DeepEqual bv tv)
                  then [ {| Path := prefix +:+ "." +:+ k; OldValue := bv;
                            NewValue := tv |} ]
                  else []
              end = if negb (reflect.DeepEqual bv tv)
                    then [ {| Path := prefix +:+ "." +:+ k; OldValue := bv;
                              NewValue := tv |} ]
                    else []) as ->.
      { destruct bv, tv; try done. destruct Hnot. eauto. }
      unfold reflect.DeepEqual. case_bool_decide as Heq; simpl.
      + subst tv. split; [|done]. intros _. split; [done|eauto].
      + split; [done|]. intros [[= Hmade] _]. destruct Heq.
        destruct bv as [| | | | |bsub|], tv as [| | | | |tsub|];
          try done; try (by destruct bsub); try (by destruct tsub).
        destruct Hnot. eauto. }
  split.
  - intros Hnil. do 2 f_equal. apply map_eq. intros k. rewrite !lookup_fmap.
    destruct (decide (k ∈ gomap.keys base ∪ gomap.keys target)) as [Hk|Hk].
    + apply Hkey, Hnil. by apply elem_of_range_set.
    + apply not_elem_of_union in Hk as [Hkb Hkt].
      assert (default ∅ base !! k = None) as ->.
      { destruct base; simpl in *; [by apply not_elem_of_dom|apply lookup_empty]. }
      assert (default ∅ target !! k = None) as ->; [|done].
      destruct target; simpl in *; [by apply not_elem_of_dom|apply lookup_empty].
  - intros [= Hmade] k Hk%elem_of_range_set; [|done]. apply Hkey.
    assert (nil_as_empty <$> default ∅ base !! k = nil_as_empty <$> default ∅ target !! k)
      as Hk' by (by rewrite <-!lookup_fmap, Hmade).
    split; [done|].
    apply elem_of_union in Hk as [Hk|Hk].
    + destruct base; simpl in *; [by apply elem_of_dom|set_solver].
    + assert (is_Some (default ∅ target !! k)) as [tv Htv].
      { destruct target; simpl in *; [by apply elem_of_dom|set_solver]. }
      rewrite Htv in Hk'. destruct (default ∅ base !! k); [eauto|done].
Qed.

(** X7.  [deepCompareMap] reports nothing exactly when the two maps are equal
    once nil maps count as empty ones, at the top and in nested maps: no
    difference goes unreported, and but for nil against empty nothing is
    reported for equal maps. *)
Theorem deepCompareMap_nil_iff ro prefix base target :
  gomap.fair ro →
  analyzer.deepCompareMap ro prefix base target = [] ↔
    nil_as_empty (VMap base) = nil_as_empty (VMap target).
Proof.
  intros Hro. apply (deepCompareMap_nil_iff_depth ro (S (value_depth (VMap base))) Hro).
  lia.
Qed.

Lemma deepCompareMap_nil_iff_witness :
  let base : option (gmap string Value) :=
    Some {[ "selector" := VMap None; "replicas" := VInt 3 ]} in
  let target : option (gmap string Value) :=
    Some {[ "selector" := VMap (Some ∅); "replicas" := VInt 3 ]} in
  analyzer.deepCompareMap reverse ".spec" base target = [] ↔
    nil_as_empty (VMap base) = nil_as_empty (VMap target).
Proof.
  apply (deepCompareMap_nil_iff reverse ".spec"
           (Some {[ "selector" := VMap None; "replicas" := VInt 3 ]})
           (Some {[ "selector" := VMap (Some ∅); "replicas" := VInt 3 ]})).
  intros l. apply reverse_Permutation.
Defined.

Example deepCompareMap_example :
  Path <$> analyzer.deepCompareMap id ".spec"
    (Some {[ "selector" := VMap None; "replicas" := VInt 3;
             "template" := VMap (Some {[ "image" := VString "nginx:1.25" ]}) ]})
    (Some {[ "selector" := VMap (Some ∅); "replicas" := VInt 5;
             "template" := VMap (Some {[ "image" := VString "nginx:1.27" ]}) ]})
  = [".spec.replicas"; ".spec.template.image"].
Proof. vm_compute. reflexivity. Qed.

(** ** pkg/versioner: the history *)




Lemma foldl_step {A B} (f : A → B → A) (a : A) (x : B) (l : list B) :
  foldl f a (x :: l) = foldl f (f a x) l.
Proof. done. Qed.





Example History_example :
  (HistoryTimestamp <$> (versioner.History no_fault 0 2 (example_repo "main")).1,
   (versioner.History no_fault 0 2 (example_repo "main")).2) = ([1200; 1100], None)
  ∧ HistoryTimestamp <$> (versioner.History no_fault 0 0 (example_repo "main")).1
    = [1200; 1100; 1000].
Proof. vm_compute. done. Qed.



(** ** pkg/versioner: counting and finding what was committed *)

Lemma foldl_count {A} (l : list A) (n : Z) :
  foldl (λ count _, count + 1) n l = n + Z.of_nat (length l).
Proof.
  revert n. induction l as [|x l IH]; intros n; simpl; [lia|]. rewrite IH. lia.
Qed.

Lemma GetCommitCount_no_failure fault delivered repo :
  fault git.OpLog = None → fault git.OpForEach = None →
  versioner.GetCommitCount fault delivered repo
    = (Z.of_nat (length (reachable repo)), None).
Proof.
  intros Hlog Hforeach.
  unfold versioner.GetCommitCount, versioner.iterated, git.LogDefault, reachable.
  rewrite Hlog, Hforeach.
  destruct (git.head_history repo) as [cs|]; simpl; [|done].
  by rewrite foldl_count.
Qed.

(** X10.  Once the log has opened, [GetCommitCount] never returns an error: it
    returns the number of commits the iterator delivered.  With no failure
    that is the number of commits HEAD reaches, zero for a repository
    without a commit; an iterator that fails on the way goes unnoticed and
    leaves the count short. *)
Theorem GetCommitCount_reachable fault delivered repo :
  fault git.OpLog = None →
  versioner.GetCommitCount fault delivered repo
    = (Z.of_nat (length (versioner.iterated fault delivered (reachable repo))), None)
  ∧ (fault git.OpForEach = None →
     versioner.GetCommitCount fault delivered repo
       = (Z.of_nat (length (reachable repo)), None))
  ∧ (reachable repo = [] → versioner.GetCommitCount fault delivered repo = (0, None)).
Proof.
  intros Hlog.
  assert (versioner.GetCommitCount fault delivered repo
    = (Z.of_nat (length (versioner.iterated fault delivered (reachable repo))), None))
    as Hcount.
  { unfold versioner.GetCommitCount, git.LogDefault, reachable. rewrite Hlog.
    destruct (git.head_history repo) as [cs|]; simpl.
    - by rewrite foldl_count.
    - unfold versioner.iterated.
      destruct (fault git.OpForEach); [by destruct delivered|done]. }
  split; [done|]. split.
  - intros Hforeach. by apply GetCommitCount_no_failure.
  - intros Hempty. rewrite Hcount, Hempty. unfold versioner.iterated.
    destruct (fault git.OpForEach); [by destruct delivered|done].
Qed.

Lemma GetCommitCount_reachable_witness :
  let fault op := match op with git.OpForEach => Some "object not found" | _ => None end in
  versioner.GetCommitCount fault 2 (example_repo "main") = (2, None)
  ∧ versioner.GetCommitCount no_fault 0 (example_repo "main") = (3, None).
Proof.
  split.
  - apply (GetCommitCount_reachable
             (λ op, match op with git.OpForEach => Some "object not found" | _ => None end)
             2 (example_repo "main")). reflexivity.
  - apply (GetCommitCount_reachable no_fault 0 (example_repo "main")); reflexivity.
Defined.

(** What a call of [Commit] that returns no error has done to the history:
    nothing when it returns the empty string, one commit on top
    otherwise. *)
Lemma Commit_reachable fault object_id fmt cfg metadata repo :
  let result := versioner.Commit fault object_id fmt cfg metadata repo in
  result.1.2 = None →
  (result.1.1 = "" ∧ reachable result.2 = reachable repo)
  ∨ (∃ c, result.1.1 = git.Hash_String (git.CommitId c)
          ∧ reachable result.2 = c :: reachable repo
          ∧ git.Author c = {| git.SigName := config.AuthorName cfg;
                              git.SigEmail := config.AuthorEmail cfg;
                              git.When := Timestamp metadata |}
          ∧ git.CommitTree c = git.worktree repo).
Proof.
  intros result. subst result. unfold versioner.Commit.
  destruct (git.Worktree fault repo); [done|].
  destruct (git.AddAll fault repo) as [err|staged] eqn:Hadd; [done|].
  destruct (git.StatusIsClean fault staged) as [err|[|]]; [done| |].
  { intros _. left. split; [done|]. by eapply reachable_AddAll. }
  destruct (git.CommitIndex _ _ _ _ staged) as [err|[id repo']] eqn:Hcommit; [done|].
  destruct (git.CommitObject fault id repo') as [err|commitObj] eqn:Hobj; [done|].
  simpl. intros _. right.
  apply CommitIndex_history in Hcommit as (c & Hreach & Hid & Hauthor & _ & Htree).
  apply CommitObject_id in Hobj. apply AddAll_history in Hadd as Hstaged.
  destruct Hstaged as (_ & _ & Hindex & _).
  exists c. rewrite Hreach, (reachable_AddAll _ _ _ Hadd), Hobj, Hid, Htree.
  by repeat split.
Qed.

(** X11.  A successful [Commit] raises what [GetCommitCount] returns by one when
    it returns a hash, and leaves it as it is when it returns the empty
    string. *)
Theorem Commit_GetCommitCount fault delivered object_id fmt cfg metadata repo :
  fault git.OpLog = None → fault git.OpForEach = None →
  let result := versioner.Commit fault object_id fmt cfg metadata repo in
  result.1.2 = None →
  versioner.GetCommitCount fault delivered result.2
    = ((versioner.GetCommitCount fault delivered repo).1
         + (if decide (result.1.1 = "") then 0 else 1), None).
Proof.
  intros Hlog Hforeach result Hok.
  rewrite !GetCommitCount_no_failure by done. simpl.
  destruct (Commit_reachable fault object_id fmt cfg metadata repo Hok)
    as [[Hempty Hreach]|(c & Hhash & Hreach & _)]; fold result in Hempty || fold result in Hhash;
    fold result in Hreach; rewrite Hreach.
  - rewrite decide_True by done. f_equal. lia.
  - rewrite decide_False by (rewrite Hhash; apply Hash_String_nonempty).
    simpl length. f_equal. lia.
Qed.

Lemma Commit_GetCommitCount_witness :
  let result :=
    versioner.Commit no_fault example_object_id example_format example_config
      (example_capture 1300) changed_repo in
  versioner.GetCommitCount no_fault 0 result.2
    = ((versioner.GetCommitCount no_fault 0 changed_repo).1
         + (if decide (result.1.1 = "") then 0 else 1), None).
Proof.
  apply (Commit_GetCommitCount no_fault 0 example_object_id example_format example_config
           (example_capture 1300) changed_repo); [reflexivity..|].
  vm_compute. reflexivity.
Defined.

(** X12.  A snapshot that was committed is found again: when [Commit] returns a
    hash for a snapshot captured later than every commit HEAD reached was
    authored, [FindCommitByTime] returns that hash for the capture time and
    for every later time. *)
Theorem Commit_then_FindCommitByTime fault object_id fmt cfg metadata repo target :
  fault git.OpLog = None → fault git.OpForEach = None →
  let result := versioner.Commit fault object_id fmt cfg metadata repo in
  result.1.1 ≠ "" → result.1.2 = None →
  (∀ c, c ∈ reachable repo → git.When (git.Author c) < Timestamp metadata) →
  Timestamp metadata ≤ target →
  versioner.FindCommitByTime fault fmt target result.2 = (result.1.1, None).
Proof.
  intros Hlog Hforeach result Hhash Hok Hearlier Htarget.
  destruct (Commit_reachable fault object_id fmt cfg metadata repo Hok)
    as [[Hempty _]|(c & Hc & Hreach & Hauthor & _)]; [done|].
  fold result in Hc, Hreach.
  assert (git.When (git.Author c) = Timestamp metadata) as Hwhen by (by rewrite Hauthor).
  destruct (FindCommitByTime_cases fault fmt target result.2 Hlog Hforeach)
    as [(b & (Hb & Hbt & Hmax) & ->)|[Hnone _]].
  - rewrite Hreach in Hb, Hmax. rewrite Hc. do 3 f_equal.
    apply elem_of_cons in Hb as [->|Hb]; [done|].
    specialize (Hmax c (list_elem_of_here _ _)). specialize (Hearlier b Hb). lia.
  - destruct (Hnone c); [rewrite Hreach; by left|lia].
Qed.

Lemma Commit_then_FindCommitByTime_witness :
  let result :=
    versioner.Commit no_fault example_object_id example_format example_config
      (example_capture 1300) changed_repo in
  versioner.FindCommitByTime no_fault example_format 1400 result.2 = (result.1.1, None).
Proof.
  apply (Commit_then_FindCommitByTime no_fault example_object_id example_format
           example_config (example_capture 1300) changed_repo 1400).
  - reflexivity.
  - reflexivity.
  - vm_compute. discriminate.
  - vm_compute. reflexivity.
  - apply Forall_forall. vm_compute. repeat constructor.
  - vm_compute. discriminate.
Defined.

(** ** pkg/timetravel: queries leave the repository as it was *)

Lemma FindCommitByTime_hash_length fault fmt target repo commitHash :
  versioner.FindCommitByTime fault fmt target repo = (commitHash, None) →
  String.length commitHash = 40%nat.
Proof.
  unfold versioner.FindCommitByTime.
  destruct (git.Log fault repo) as [err|commits]; [done|].
  pose proof (foldl_visit_best_so_far target commits) as Hbest.
  destruct (foldl (versioner.visit target) _ _) as [bestHash bestTime].
  destruct (fault git.OpForEach); [done|].
  case_bool_decide as Hempty; [done|]. intros [= <-].
  destruct Hbest as [[Hnone _]|(c & _ & [= -> _])]; [done|].
  apply Hash_String_length.
Qed.

(** On a repository that is on the configured branch, a detached checkout
    followed by the return to the branch gives the repository back. *)
Lemma CheckoutAt_CheckoutBranch fault cfg commitHash repo detached :
  on_branch cfg repo →
  versioner.CheckoutAt fault commitHash repo = (None, detached) →
  versioner.CheckoutBranch fault cfg detached = (None, repo).
Proof.
  intros (Hhead & c & cs & Hbranch & Hindex & Hworktree) Hat.
  pose proof (CheckoutAt_branches _ _ _ _ Hat) as Hbranches.
  unfold versioner.CheckoutAt in Hat. unfold versioner.CheckoutBranch, git.CheckoutBranch.
  destruct (git.Worktree fault repo) eqn:Hw; [done|].
  unfold git.Worktree in *. rewrite Hw.
  unfold git.CheckoutHash in Hat. destruct (fault git.OpCheckout); [done|].
  rewrite Hbranches, Hbranch. f_equal.
  destruct repo as [branches HEAD index worktree]. simpl in *. by subst.
Qed.

(** X13.  When the library reports no failure, [SnapshotByCommit] leaves a
    repository that is on the configured branch, with nothing uncommitted,
    exactly as it found it: whether the commit id is too short, unknown or
    known, and whether the read succeeds or fails. *)
Theorem SnapshotByCommit_leaves_repository fault cfg Read commitHash repo :
  fault git.OpWorktree = None → fault git.OpCheckout = None →
  on_branch cfg repo →
  (timetravel.SnapshotByCommit fault cfg Read commitHash repo).2 = repo.
Proof.
  intros _ _ Hon. unfold timetravel.SnapshotByCommit.
  case_bool_decide; [done|].
  destruct (versioner.CheckoutAt fault commitHash repo) as [[err|] detached] eqn:Hat.
  - simpl. by eapply CheckoutAt_fails_unchanged.
  - by rewrite (CheckoutAt_CheckoutBranch fault cfg commitHash repo detached Hon Hat).
Qed.

Lemma SnapshotByCommit_leaves_repository_witness :
  (timetravel.SnapshotByCommit no_fault example_config example_Read
     (git.Hash_String 2002%N) (example_repo "main")).2 = example_repo "main".
Proof.
  apply (SnapshotByCommit_leaves_repository no_fault example_config example_Read
           (git.Hash_String 2002%N) (example_repo "main")); [reflexivity..|].
  split; [reflexivity|]. eexists _, _. repeat split; reflexivity.
Defined.

(** [SnapshotAt] never runs into the panic of [SnapshotByCommit] on a short
    commit id: the id it passes on has forty digits.  It returns a snapshot
    or an error, never both and never neither. *)
Lemma SnapshotAt_returns fault fmt cfg Read target repo :
  (∃ err, (timetravel.SnapshotAt fault fmt cfg Read target repo).1
          = timetravel.Return (None, Some err))
  ∨ (∃ snapshot, (timetravel.SnapshotAt fault fmt cfg Read target repo).1
                 = timetravel.Return (Some snapshot, None)).
Proof.
  unfold timetravel.SnapshotAt.
  destruct (versioner.FindCommitByTime fault fmt target repo) as [commitHash [err|]] eqn:Hfind.
  { left. eauto. }
  apply FindCommitByTime_hash_length in Hfind.
  unfold timetravel.SnapshotByCommit. rewrite bool_decide_eq_false_2 by lia.
  destruct (versioner.CheckoutAt fault commitHash repo) as [[err|] detached].
  { left. eauto. }
  destruct (Read (git.worktree detached)); simpl; eauto.
Qed.

Lemma SnapshotAt_leaves_repository fault fmt cfg Read target repo :
  on_branch cfg repo →
  (timetravel.SnapshotAt fault fmt cfg Read target repo).2 = repo.
Proof.
  intros Hon. unfold timetravel.SnapshotAt.
  destruct (versioner.FindCommitByTime fault fmt target repo) as [commitHash [err|]];
    [done|].
  unfold timetravel.SnapshotByCommit. case_bool_decide; [done|].
  destruct (versioner.CheckoutAt fault commitHash repo) as [[err|] detached] eqn:Hat.
  - simpl. by eapply CheckoutAt_fails_unchanged.
  - by rewrite (CheckoutAt_CheckoutBranch fault cfg commitHash repo detached Hon Hat).
Qed.

(** ** pkg/timetravel: what a query by time reads *)

Lemma history_from_elem (p : git.Commit → bool) (cs : list git.Commit) (c : git.Commit) :
  c ∈ cs → p c = true →
  ∃ c' cs', git.history_from p cs = Some (c' :: cs') ∧ p c' = true ∧ c' ∈ cs.
Proof.
  induction cs as [|c0 cs IH]; [by intros ?%elem_of_nil|].
  intros Hc Hp. simpl. destruct (p c0) eqn:Hp0.
  - exists c0, cs. repeat split; [done|by left].
  - apply elem_of_cons in Hc as [->|Hc]; [congruence|].
    destruct (IH Hc Hp) as (c' & cs' & Hfrom & Hp' & Hc').
    exists c', cs'. repeat split; [done..|by right].
Qed.

Lemma history_from_suffix (p : git.Commit → bool) (cs : list git.Commit) c' cs' :
  git.history_from p cs = Some (c' :: cs') → p c' = true ∧ c' ∈ cs.
Proof.
  induction cs as [|c0 cs IH]; [done|]. simpl. destruct (p c0) eqn:Hp0.
  - intros [= <- <-]. split; [done|by left].
  - intros [Hp Hc]%IH. split; [done|by right].
Qed.

Lemma find_history_elem (p : git.Commit → bool) repo h c :
  h ∈ git.histories repo → c ∈ h → p c = true →
  ∃ c' cs' h', git.find_history p repo = Some (c' :: cs') ∧ p c' = true
               ∧ h' ∈ git.histories repo ∧ c' ∈ h'.
Proof.
  intros Hh Hc Hp. unfold git.find_history.
  destruct (history_from_elem p h c Hc Hp) as (c1 & cs1 & Hfrom & _ & _).
  assert (c1 :: cs1 ∈ omap (git.history_from p) (git.histories repo)) as Hin.
  { apply list_elem_of_omap. eauto. }
  destruct (omap (git.history_from p) (git.histories repo)) as [|found rest] eqn:Homap;
    [by apply elem_of_nil in Hin|].
  assert (found ∈ omap (git.history_from p) (git.histories repo)) as Hfound.
  { rewrite Homap. by left. }
  apply list_elem_of_omap in Hfound as (h' & Hh' & Hfrom').
  destruct found as [|c' cs'].
  { clear -Hfrom'. induction h' as [|c0 h' IH]; [done|]. simpl in Hfrom'.
    destruct (p c0); [done|auto]. }
  apply history_from_suffix in Hfrom' as Hc'. destruct Hc' as [Hp' Hc'].
  exists c', cs', h'. by repeat split.
Qed.

(** Commit ids stand for content: two commits of the repository whose ids
    print alike hold the same tree. *)
Definition same_id_same_tree (repo : git.Repository) : Prop :=
  ∀ h1 h2 c1 c2, h1 ∈ git.histories repo → h2 ∈ git.histories repo →
    c1 ∈ h1 → c2 ∈ h2 →
    git.Hash_String (git.CommitId c1) = git.Hash_String (git.CommitId c2) →
    git.CommitTree c1 = git.CommitTree c2.

Lemma reachable_on_branch cfg repo :
  on_branch cfg repo → reachable repo ∈ git.histories repo.
Proof.
  intros (Hhead & c & cs & Hbranch & _). unfold reachable, git.head_history, git.histories.
  rewrite Hhead, Hbranch. simpl. apply list_elem_of_fmap.
  exists (config.Branch cfg, c :: cs). split; [done|]. by apply elem_of_map_to_list.
Qed.

(** X14.  With no failure reported by the library, on a repository that is on the
    configured branch with nothing uncommitted, [SnapshotAt t] hands the
    reader the tree of a commit authored latest among those at or before
    [t]; it returns what the reader makes of it, stamped with the id of that
    commit, or the error of the reader.  When no commit was authored at or
    before [t] it returns an error.  Either way the repository is left as it
    was. *)
Theorem SnapshotAt_reads_latest fault fmt cfg Read target repo :
  (∀ op, fault op = None) → on_branch cfg repo → same_id_same_tree repo →
  let run := timetravel.SnapshotAt fault fmt cfg Read target repo in
  run.2 = repo
  ∧ ((∀ c, c ∈ reachable repo → ¬ git.When (git.Author c) ≤ target) →
     ∃ err, run.1 = timetravel.Return (None, Some err))
  ∧ ((∃ c, c ∈ reachable repo ∧ git.When (git.Author c) ≤ target) →
     ∃ c, latest_at_or_before target (reachable repo) c
          ∧ run.1 = timetravel.Return
              match Read (git.CommitTree c) with
              | inl err =>
                  (None, Some ("failed to read snapshot at commit "
                               +:+ git.Hash_String (git.CommitId c) +:+ ": " +:+ err))
              | inr snapshot =>
                  (Some (timetravel.stamp (git.Hash_String (git.CommitId c)) snapshot),
                   None)
              end).
Proof.
  intros Hfault Hon Hids run. split; [by apply SnapshotAt_leaves_repository|].
  pose proof (FindCommitByTime_cases fault fmt target repo (Hfault _) (Hfault _)) as Hcases.
  cbv zeta in Hcases. subst run. unfold timetravel.SnapshotAt. split.
  - intros Hnone. destruct Hcases as [(c & (Hc & Hct & _) & _)|[_ [err ->]]];
      [by destruct (Hnone c Hc)|]. eauto.
  - intros (c0 & Hc0 & Hc0t). destruct Hcases as [(c & Hlatest & ->)|[Hnone _]];
      [|by destruct (Hnone c0 Hc0)].
    exists c. split; [done|]. destruct Hlatest as (Hc & _).
    unfold timetravel.SnapshotByCommit.
    rewrite bool_decide_eq_false_2 by (rewrite Hash_String_length; lia).
    destruct (find_history_elem
                (λ c', bool_decide (git.Hash_String (git.CommitId c')
                                    = git.Hash_String (git.CommitId c)))
                repo (reachable repo) c (reachable_on_branch cfg repo Hon) Hc)
      as (c' & cs' & h' & Hfind & Hid%bool_decide_eq_true & Hh' & Hc');
      [by apply bool_decide_eq_true_2|].
    unfold versioner.CheckoutAt, git.Worktree, git.CheckoutHash.
    rewrite !Hfault, Hfind. simpl.
    rewrite (Hids h' (reachable repo) c' c Hh' (reachable_on_branch cfg repo Hon) Hc' Hc Hid).
    reflexivity.
Qed.

Lemma SnapshotAt_reads_latest_witness :
  let run :=
    timetravel.SnapshotAt no_fault example_format example_config example_Read 1150
      (example_repo "main") in
  run.2 = example_repo "main"
  ∧ run.1 = timetravel.Return
      (Some (timetravel.stamp (git.Hash_String 2002%N) example_base), None).
Proof.
  destruct (SnapshotAt_reads_latest no_fault example_format example_config example_Read
              1150 (example_repo "main")) as (Hrepo & _ & Hfound).
  - done.
  - split; [reflexivity|]. eexists _, _. repeat split; reflexivity.
  - intros h1 h2 c1 c2 Hh1 Hh2. vm_compute in Hh1, Hh2.
    apply list_elem_of_singleton in Hh1 as ->. apply list_elem_of_singleton in Hh2 as ->.
    intros Hc1 Hc2.
    repeat (apply elem_of_cons in Hc1 as [->|Hc1]);
      repeat (apply elem_of_cons in Hc2 as [->|Hc2]);
      try (by apply elem_of_nil in Hc1); try (by apply elem_of_nil in Hc2);
      vm_compute; congruence.
  - split; [exact Hrepo|]. vm_compute. reflexivity.
Defined.

(** ** pkg/timetravel: two queries, and listing *)

(** X15.  When the library reports no failure, on a repository that is on the
    configured branch with nothing uncommitted, [CompareTimeRange] answers
    its two queries on the same repository, the second unaffected by the
    first: it returns the snapshot [SnapshotAt] finds for each time, or the
    error of the first query that fails under the name of its side, and
    leaves the repository as it was. *)
Theorem CompareTimeRange_independent_queries fault fmt cfg Read from to repo :
  fault git.OpWorktree = None → fault git.OpCheckout = None →
  on_branch cfg repo →
  let run := timetravel.CompareTimeRange fault fmt cfg Read from to repo in
  run.2 = repo
  ∧ run.1 =
      match (timetravel.SnapshotAt fault fmt cfg Read from repo).1 with
      | timetravel.Panic msg => timetravel.Panic msg
      | timetravel.Return (_, Some err) =>
          timetravel.Return
            ((None, None), Some ("failed to get snapshot at 'from' time: " +:+ err))
      | timetravel.Return (fromSnapshot, None) =>
        match (timetravel.SnapshotAt fault fmt cfg Read to repo).1 with
        | timetravel.Panic msg => timetravel.Panic msg
        | timetravel.Return (_, Some err) =>
            timetravel.Return
              ((None, None), Some ("failed to get snapshot at 'to' time: " +:+ err))
        | timetravel.Return (toSnapshot, None) =>
            timetravel.Return ((fromSnapshot, toSnapshot), None)
        end
      end.
Proof.
  intros _ _ Hon run. subst run. unfold timetravel.CompareTimeRange.
  pose proof (SnapshotAt_leaves_repository fault fmt cfg Read from repo Hon) as Hfrom.
  pose proof (SnapshotAt_leaves_repository fault fmt cfg Read to repo Hon) as Hto.
  destruct (timetravel.SnapshotAt fault fmt cfg Read from repo)
    as [[[fromSnapshot [err|]]|msg] repo1]; simpl in Hfrom; subst repo1; [done| |done].
  destruct (timetravel.SnapshotAt fault fmt cfg Read to repo)
    as [[[toSnapshot [err|]]|msg] repo2]; simpl in Hto; subst repo2; done.
Qed.

Lemma CompareTimeRange_independent_queries_witness :
  timetravel.CompareTimeRange no_fault example_format example_config example_Read
    1050 1250 (example_repo "main")
  = (timetravel.Return
       ((Some (timetravel.stamp (git.Hash_String 1001%N) example_base),
         Some (timetravel.stamp (git.Hash_String 3003%N) example_base)), None),
     example_repo "main").
Proof.
  destruct (CompareTimeRange_independent_queries no_fault example_format example_config
              example_Read 1050 1250 (example_repo "main")) as [Hrepo Hrun].
  - reflexivity.
  - reflexivity.
  - split; [reflexivity|]. eexists _, _. repeat split; reflexivity.
  - apply injective_projections; [rewrite Hrun; vm_compute; reflexivity|exact Hrepo].
Defined.

Lemma foldl_ListResources (kind namespace : string) (l acc : list Resource) :
  foldl (λ filtered res,
      if bool_decide (kind ≠ "") && bool_decide (Kind res ≠ kind) then filtered
      else if bool_decide (namespace ≠ "") && bool_decide (Namespace res ≠ namespace)
      then filtered
      else filtered ++ [res]) acc l
  = acc ++ filter (λ res, (kind = "" ∨ Kind res = kind)
                          ∧ (namespace = "" ∨ Namespace res = namespace)) l.
Proof.
  revert acc. induction l as [|res l IH]; intros acc; simpl; [by rewrite app_nil_r|].
  rewrite IH, filter_cons.
  destruct (decide (kind = "")) as [Hk|Hk], (decide (Kind res = kind)) as [Hrk|Hrk],
    (decide (namespace = "")) as [Hn|Hn], (decide (Namespace res = namespace)) as [Hrn|Hrn];
    repeat (first [rewrite (bool_decide_eq_true_2 (_ ≠ _)) by done
                  |rewrite (bool_decide_eq_false_2 (_ ≠ _)) by (intros Hne; by apply Hne)]);
    simpl; first [rewrite decide_True by tauto; by rewrite <-app_assoc
                 |rewrite decide_False by tauto; done].
Qed.

(** X16.  [ListResources] never panics.  It passes on the error of [SnapshotAt]
    as it is, with no resource; otherwise it returns the resources of the
    snapshot that have the kind and the namespace asked for, in the order of
    the snapshot, where an empty kind or namespace asks for any.  The
    repository is left as [SnapshotAt] leaves it. *)
Theorem ListResources_filter fault fmt cfg Read target kind namespace repo :
  let run := timetravel.SnapshotAt fault fmt cfg Read target repo in
  let listed := timetravel.ListResources fault fmt cfg Read target kind namespace repo in
  listed.2 = run.2
  ∧ ((∃ err, run.1 = timetravel.Return (None, Some err)
             ∧ listed.1 = timetravel.Return ([], Some err))
     ∨ (∃ snapshot, run.1 = timetravel.Return (Some snapshot, None)
          ∧ listed.1 = timetravel.Return
              (filter (λ res, (kind = "" ∨ Kind res = kind)
                              ∧ (namespace = "" ∨ Namespace res = namespace))
                 (Resources snapshot), None))).
Proof.
  intros run listed. subst listed. unfold timetravel.ListResources. fold run.
  destruct (SnapshotAt_returns fault fmt cfg Read target repo) as [[err Hrun]|[snapshot Hrun]];
    fold run in Hrun; destruct run as [outcome repo']; simpl in Hrun; subst outcome.
  - split; [done|]. left. eauto.
  - split; [done|]. right. exists snapshot. split; [done|]. simpl.
    by rewrite foldl_ListResources.
Qed.

(** ** pkg/collector: normalizing what the cluster returns *)

Lemma isNoisy_elem_of (k : string) (l : list string) : collector.isNoisy k l = true ↔ k ∈ l.
Proof.
  induction l as [|n l IH]; simpl.
  - split; [done|by intros ?%elem_of_nil].
  - case_decide as Hk.
    + subst. split; [|done]. intros _. by left.
    + rewrite IH, elem_of_cons. split; [auto|]. by intros [?|?].
Qed.

Lemma foldl_cleanAnnotations (annotations : gmap string string)
    (l : list (string * string)) (acc : gmap string string) (k : string) :
  (∀ k' v, (k', v) ∈ l → annotations !! k' = Some v) →
  foldl (λ cleaned '(k, v),
      if negb (collector.isNoisy k collector.noisy) then <[k := v]> cleaned else cleaned)
    acc l !! k
  = if decide (k ∈ l.*1 ∧ k ∉ collector.noisy) then annotations !! k else acc !! k.
Proof.
  revert acc. induction l as [|[k' v] l IH]; intros acc Hl.
  - cbn [foldl]. destruct (decide _) as [[Hin _]|_]; [|done].
    by apply elem_of_nil in Hin.
  - rewrite foldl_step, IH by (intros k'' v' Hin; apply Hl; by right). cbn beta iota.
    assert (annotations !! k' = Some v) as Hk' by (apply Hl; by left).
    assert (k ∈ ((k', v) :: l).*1 ↔ k = k' ∨ k ∈ l.*1) as Hcons.
    { rewrite fmap_cons. apply elem_of_cons. }
    destruct (decide (k ∈ l.*1 ∧ k ∉ collector.noisy)) as [[Hin Hnoisy]|Hnot];
      destruct (decide (k ∈ ((k', v) :: l).*1 ∧ k ∉ collector.noisy)) as [[Hin' Hnoisy']|Hnot'];
      try done.
    + destruct Hnot'. split; [|done]. apply Hcons. by right.
    + apply Hcons in Hin' as [->|Hin']; [|by destruct Hnot].
      assert (collector.isNoisy k' collector.noisy = false) as ->.
      { apply not_true_is_false. by intros ?%isNoisy_elem_of. }
      simpl. by rewrite lookup_insert_eq.
    + destruct (collector.isNoisy k' collector.noisy) eqn:Hnk'; simpl; [done|].
      destruct (decide (k = k')) as [->|Hne]; [|by rewrite lookup_insert_ne].
      destruct Hnot'. split; [apply Hcons; by left|].
      intros Hin%isNoisy_elem_of. congruence.
Qed.

(** X17.  [cleanAnnotations] keeps every annotation but the two noisy ones, with
    its value, and returns the nil map when nothing is left, also for an
    empty map that was made: its result is never an empty map.  Cleaning
    what was cleaned changes nothing. *)
Theorem cleanAnnotations_kept ro (annotations : option (gmap string string)) :
  gomap.fair ro →
  let kept (a : gmap string string) : gmap string string :=
    filter (λ kv, kv.1 ∉ collector.noisy) a in
  collector.cleanAnnotations ro annotations =
    match annotations with
    | None => None
    | Some a => if decide (kept a = ∅) then None else Some (kept a)
    end
  ∧ collector.cleanAnnotations ro annotations ≠ Some ∅
  ∧ collector.cleanAnnotations ro (collector.cleanAnnotations ro annotations)
    = collector.cleanAnnotations ro annotations.
Proof.
  intros Hro kept.
  assert (∀ annotations, collector.cleanAnnotations ro annotations =
    match annotations with
    | None => None
    | Some a => if decide (kept a = ∅) then None else Some (kept a)
    end) as Hclean.
  { intros [a|]; [|done]. unfold collector.cleanAnnotations.
    assert (foldl (λ cleaned '(k, v),
                if negb (collector.isNoisy k collector.noisy)
                then <[k := v]> cleaned else cleaned) ∅ (gomap.range ro a) = kept a) as ->.
    { apply map_eq. intros k.
      rewrite (foldl_cleanAnnotations a) by (intros k' v; apply elem_of_range).
      unfold kept. rewrite map_lookup_filter, lookup_empty. simpl.
      destruct (a !! k) as [v|] eqn:Hk; simpl.
      - destruct (decide (k ∉ collector.noisy)) as [Hnoisy|Hnoisy].
        + rewrite decide_True; [by rewrite option_guard_True|]. split; [|done].
          apply list_elem_of_fmap. exists (k, v). split; [done|].
          rewrite (range_Permutation ro Hro). by apply elem_of_map_to_list.
        + rewrite decide_False by tauto. by rewrite option_guard_False.
      - by destruct (decide _). }
    unfold gomap.len. destruct (decide (kept a = ∅)) as [Hempty|Hsome].
    - rewrite bool_decide_eq_true_2; [done|]. by rewrite Hempty, map_size_empty.
    - rewrite bool_decide_eq_false_2; [done|]. intros Hsize. apply Hsome.
      apply map_size_empty_iff. lia. }
  split; [apply Hclean|]. split.
  - rewrite Hclean. destruct annotations as [a|]; [|done].
    destruct (decide (kept a = ∅)); [done|congruence].
  - rewrite (Hclean annotations). destruct annotations as [a|]; [|done].
    destruct (decide (kept a = ∅)) as [Hempty|Hsome]; [done|].
    rewrite Hclean.
    assert (kept (kept a) = kept a) as ->.
    { unfold kept. rewrite map_filter_filter. apply map_filter_ext. tauto. }
    by rewrite decide_False.
Qed.

Lemma cleanAnnotations_kept_witness :
  let annotations : option (gmap string string) :=
    Some {[ "deployment.kubernetes.io/revision" := "7"; "owner" := "team-a" ]} in
  collector.cleanAnnotations reverse annotations = Some {[ "owner" := "team-a" ]}
  ∧ collector.cleanAnnotations reverse
      (Some {[ "deployment.kubernetes.io/revision" := "7" ]}) = None.
Proof.
  pose proof (cleanAnnotations_kept reverse
    (Some {[ "deployment.kubernetes.io/revision" := "7"; "owner" := "team-a" ]})
    fair_reverse) as (Hkept & _ & _).
  split; [rewrite Hkept|]; vm_compute; reflexivity.
Defined.

(** *** Stripping fields *)

(** The keys of the metadata that [stripFields] can delete. *)
Definition metadata_keys : list string :=
  ["managedFields"; "resourceVersion"; "uid"; "generation"].

(** What [stripFields] has made of an object after the fields [fields]. *)
Definition stripped (fields : list string) (obj result : gmap string Value) : Prop :=
  (∀ k, k ≠ "metadata" → k ≠ "status" → result !! k = obj !! k)
  ∧ result !! "status" = (if decide (".status" ∈ fields) then None else obj !! "status")
  ∧ match obj !! "metadata" with
    | Some (VMap (Some metadata)) =>
        ∃ metadata', result !! "metadata" = Some (VMap (Some metadata'))
          ∧ ∀ key, metadata' !! key =
              if decide (key ∈ metadata_keys ∧ ".metadata." +:+ key ∈ fields)
              then None else metadata !! key
    | other => result !! "metadata" = other
    end.

Lemma stripped_nil obj : stripped [] obj obj.
Proof.
  split; [done|]. split.
  - case_decide as Hin; [by apply elem_of_nil in Hin|done].
  - destruct (obj !! "metadata") as [[| | | | |[metadata|]|]|]; try done.
    exists metadata. split; [done|]. intros key.
    case_decide as Hin; [|done]. destruct Hin as [_ Hin]. by apply elem_of_nil in Hin.
Qed.

Lemma stripped_ignored fields field obj result :
  field ≠ ".status" → (∀ key, key ∈ metadata_keys → field ≠ ".metadata." +:+ key) →
  stripped fields obj result → stripped (fields ++ [field]) obj result.
Proof.
  intros Hstatus Hkeys (Hother & Hst & Hmeta). split; [done|]. split.
  - rewrite Hst. destruct (decide (".status" ∈ fields)) as [Hin|Hnotin].
    + rewrite decide_True; [done|]. apply elem_of_app. by left.
    + rewrite decide_False; [done|]. intros [?|?%list_elem_of_singleton]%elem_of_app; done.
  - destruct (obj !! "metadata") as [[| | | | |[metadata|]|]|]; try done.
    destruct Hmeta as (metadata' & Hresult & Hlookup). exists metadata'.
    split; [done|]. intros key. rewrite Hlookup.
    destruct (decide (key ∈ metadata_keys ∧ ".metadata." +:+ key ∈ fields)) as [[Hk Hin]|Hnot].
    + rewrite decide_True; [done|]. split; [done|]. apply elem_of_app. by left.
    + rewrite decide_False; [done|].
      intros [Hk [Hin|Hin%list_elem_of_singleton]%elem_of_app]; [by destruct Hnot|].
      by destruct (Hkeys key Hk).
Qed.

Lemma stripped_status fields obj result :
  stripped fields obj result → stripped (fields ++ [".status"]) obj (delete "status" result).
Proof.
  intros (Hother & Hst & Hmeta). split; [|split].
  - intros k Hk1 Hk2. rewrite lookup_delete_ne by done. by apply Hother.
  - rewrite lookup_delete_eq, decide_True; [done|]. apply elem_of_app. right. by left.
  - rewrite lookup_delete_ne by done.
    destruct (obj !! "metadata") as [[| | | | |[metadata|]|]|]; try done.
    destruct Hmeta as (metadata' & Hresult & Hlookup). exists metadata'.
    split; [done|]. intros key. rewrite Hlookup.
    destruct (decide (key ∈ metadata_keys ∧ ".metadata." +:+ key ∈ fields)) as [[Hk Hin]|Hnot].
    + rewrite decide_True; [done|]. split; [done|]. apply elem_of_app. by left.
    + rewrite decide_False; [done|].
      intros [Hk [Hin|Hin%list_elem_of_singleton]%elem_of_app]; [by destruct Hnot|].
      unfold metadata_keys in Hk.
      repeat (apply elem_of_cons in Hk as [->|Hk]; [done|]). by apply elem_of_nil in Hk.
Qed.

Lemma stripped_metadata fields key obj result :
  key ∈ metadata_keys →
  stripped fields obj result →
  stripped (fields ++ [".metadata." +:+ key]) obj (collector.deleteMetadata key result).
Proof.
  intros Hkey (Hother & Hst & Hmeta).
  assert (∀ k, k ≠ "metadata" →
    collector.deleteMetadata key result !! k = result !! k) as Hframe.
  { intros k Hk. unfold collector.deleteMetadata.
    destruct (result !! "metadata") as [[| | | | |[metadata'|]|]|]; try done.
    by rewrite lookup_insert_ne. }
  assert (".status" ∈ fields ++ [".metadata." +:+ key] ↔ ".status" ∈ fields) as Hstatus.
  { rewrite elem_of_app, list_elem_of_singleton. split; [|auto].
    intros [?|Heq]; [done|]. unfold metadata_keys in Hkey.
    repeat (apply elem_of_cons in Hkey as [->|Hkey]; [done|]). by apply elem_of_nil in Hkey. }
  split; [|split].
  - intros k Hk1 Hk2. rewrite Hframe by done. by apply Hother.
  - rewrite Hframe, Hst by done.
    destruct (decide (".status" ∈ fields)) as [Hin|Hnotin].
    + rewrite decide_True; [done|]. by apply Hstatus.
    + rewrite decide_False; [done|]. by rewrite Hstatus.
  - unfold collector.deleteMetadata.
    destruct (obj !! "metadata") as [[| | | | |[metadata|]|]|];
      try (by rewrite Hmeta).
    destruct Hmeta as (metadata' & Hresult & Hlookup). rewrite Hresult.
    exists (delete key metadata'). split; [by rewrite lookup_insert_eq|].
    intros k. destruct (decide (k = key)) as [->|Hne].
    + rewrite lookup_delete_eq, decide_True; [done|]. split; [done|].
      apply elem_of_app. right. by left.
    + rewrite lookup_delete_ne, Hlookup by done.
      destruct (decide (k ∈ metadata_keys ∧ ".metadata." +:+ k ∈ fields)) as [[Hk Hin]|Hnot].
      * rewrite decide_True; [done|]. split; [done|]. apply elem_of_app. by left.
      * rewrite decide_False; [done|].
        intros [Hk [Hin|Hin%list_elem_of_singleton]%elem_of_app]; [by destruct Hnot|].
        by apply (inj (String.app ".metadata.")) in Hin.
Qed.

Lemma foldl_stripFields fields obj :
  stripped fields obj
    (foldl (λ obj field,
       if decide (field = ".metadata.managedFields")
       then collector.deleteMetadata "managedFields" obj
       else if decide (field = ".metadata.resourceVersion")
       then collector.deleteMetadata "resourceVersion" obj
       else if decide (field = ".metadata.uid") then collector.deleteMetadata "uid" obj
       else if decide (field = ".metadata.generation")
       then collector.deleteMetadata "generation" obj
       else if decide (field = ".status") then delete "status" obj
       else obj) obj fields).
Proof.
  induction fields as [|field fields IH] using rev_ind; [apply stripped_nil|].
  rewrite foldl_app. cbn [foldl].
  repeat case_decide; subst.
  - apply (stripped_metadata _ "managedFields"); [|done]. set_solver.
  - apply (stripped_metadata _ "resourceVersion"); [|done]. set_solver.
  - apply (stripped_metadata _ "uid"); [|done]. set_solver.
  - apply (stripped_metadata _ "generation"); [|done]. set_solver.
  - by apply stripped_status.
  - apply stripped_ignored; [done| |done].
    intros key Hkey. unfold metadata_keys in Hkey.
    repeat (apply elem_of_cons in Hkey as [->|Hkey]; [done|]). by apply elem_of_nil in Hkey.
Qed.

(** X18.  [stripFields] touches nothing but [status] and the four keys
    [managedFields], [resourceVersion], [uid] and [generation] of a
    metadata map: [status] is gone exactly when [.status] is configured, each
    of the four keys is gone exactly when it is configured, and every other
    field of the object and of its metadata is as it was, whatever else the
    configuration names.  A metadata that is no map, or the nil map, stays
    as it is. *)
Theorem stripFields_fields cfg (obj : gmap string Value) :
  let fields := config.StripFields (config.Snapshot cfg) in
  let result := collector.stripFields cfg obj in
  (∀ k, k ≠ "metadata" → k ≠ "status" → result !! k = obj !! k)
  ∧ result !! "status" = (if decide (".status" ∈ fields) then None else obj !! "status")
  ∧ match obj !! "metadata" with
    | Some (VMap (Some metadata)) =>
        ∃ metadata', result !! "metadata" = Some (VMap (Some metadata'))
          ∧ ∀ key, metadata' !! key =
              if decide (key ∈ ["managedFields"; "resourceVersion"; "uid"; "generation"]
                         ∧ ".metadata." +:+ key ∈ fields)
              then None else metadata !! key
    | other => result !! "metadata" = other
    end.
Proof. apply foldl_stripFields. Qed.

Example stripFields_example :
  collector.stripFields (example_collector_config [])
    {[ "kind" := VString "Deployment";
       "metadata" := VMap (Some {[ "name" := VString "nginx"; "uid" := VString "1f2e" ]});
       "spec" := VMap (Some {[ "replicas" := VInt 3 ]});
       "status" := VMap (Some {[ "readyReplicas" := VInt 3 ]}) ]}
  = {[ "kind" := VString "Deployment";
       "metadata" := VMap (Some {[ "name" := VString "nginx"; "uid" := VString "1f2e" ]});
       "spec" := VMap (Some {[ "replicas" := VInt 3 ]}) ]}.
Proof. vm_compute. reflexivity. Qed.

(** *** What [Collect] keeps *)

#[global] Instance allowed_dec cfg res : Decision (allowed cfg res).
Proof. unfold allowed. apply _. Defined.

(** The namespaces [Collect] records for a list of resources. *)
Definition named_namespaces (resources : list Resource) : gset string :=
  list_to_set (filter (λ ns, ns ≠ "") (Namespace <$> resources)).

Lemma keep_if_allowed cfg (acc : list Resource * gset string) (res : Resource) :
  collector.keep cfg acc res =
    if decide (allowed cfg res)
    then (acc.1 ++ [res],
          if decide (Namespace res ≠ "") then {[Namespace res]} ∪ acc.2 else acc.2)
    else acc.
Proof.
  destruct acc as [resources namespacesSet]. unfold collector.keep, allowed. simpl.
  unfold collector.shouldExcludeNamespace, collector.shouldIncludeNamespace.
  assert (∀ l, collector.inList (Namespace res) l = true ↔ Namespace res ∈ l) as Hlist.
  { intros l. rewrite <-inList_elem_of. symmetry. apply Is_true_true. }
  pose proof (Hlist (config.ExcludeNamespaces (config.Snapshot cfg))) as Hex.
  pose proof (Hlist (config.Namespaces (config.Snapshot cfg))) as Hin.
  destruct (decide (_ ∧ _)) as [[Hexcluded Hallowed]|Hfails].
  - assert (collector.inList (Namespace res)
              (config.ExcludeNamespaces (config.Snapshot cfg)) = false) as ->.
    { apply not_true_is_false. by intros ?%Hex. }
    assert (bool_decide (0 < Z.of_nat (length (config.Namespaces (config.Snapshot cfg))))
            && negb (collector.inList (Namespace res)
                       (config.Namespaces (config.Snapshot cfg))) = false) as ->; [|done].
    destruct Hallowed as [->|Hallowed]; [done|].
    apply Hin in Hallowed. rewrite Hallowed. apply andb_false_r.
  - destruct (collector.inList (Namespace res)
                (config.ExcludeNamespaces (config.Snapshot cfg))) eqn:Hexcluded; [done|].
    assert (bool_decide (0 < Z.of_nat (length (config.Namespaces (config.Snapshot cfg))))
            && negb (collector.inList (Namespace res)
                       (config.Namespaces (config.Snapshot cfg))) = true) as ->; [|done].
    assert (Namespace res ∉ config.ExcludeNamespaces (config.Snapshot cfg)) as Hnot.
    { intros ?%Hex. congruence. }
    apply andb_true_iff. split.
    + apply bool_decide_eq_true_2.
      destruct (config.Namespaces (config.Snapshot cfg)); [|simpl; lia].
      destruct Hfails. split; [done|by left].
    + apply negb_true_iff, not_true_is_false. intros ?%Hin.
      destruct Hfails. split; [done|by right].
Qed.

Lemma foldl_keep cfg (resources : list Resource) (acc : list Resource * gset string) :
  acc.2 = named_namespaces acc.1 →
  let result := foldl (collector.keep cfg) acc resources in
  result.1 = acc.1 ++ filter (allowed cfg) resources
  ∧ result.2 = named_namespaces result.1.
Proof.
  revert acc. induction resources as [|res resources IH]; intros acc Hacc.
  - simpl. by rewrite app_nil_r.
  - cbv zeta. rewrite foldl_step, keep_if_allowed, filter_cons.
    destruct (decide (allowed cfg res)) as [Hpass|Hfail]; [|by apply IH].
    destruct (IH (acc.1 ++ [res],
                  if decide (Namespace res ≠ "") then {[Namespace res]} ∪ acc.2 else acc.2))
      as [Hresources Hnamespaces].
    + simpl. unfold named_namespaces in *. rewrite fmap_app, filter_app, list_to_set_app_L.
      rewrite <-Hacc. csimpl. rewrite filter_cons, filter_nil.
      destruct (decide (Namespace res ≠ "")); simpl.
      * rewrite union_empty_r_L. apply (comm_L (∪)).
      * by rewrite union_empty_r_L.
    + split; [|done]. cbv zeta in Hresources. rewrite Hresources. simpl.
      by rewrite <-app_assoc.
Qed.

(** What one resource type of the configuration contributes. *)
Definition collected_of (collectResource : collector.GroupVersionResource → string + list Resource)
    (cfg : config.Config) (resType : string) : list Resource :=
  match collector.resourceMapping !! resType with
  | None => []
  | Some gvr =>
    match collectResource gvr with
    | inl _ => []
    | inr resources => filter (allowed cfg) resources
    end
  end.

Lemma foldl_Collect collectResource cfg (resTypes : list string)
    (acc : list Resource * gset string) :
  acc.2 = named_namespaces acc.1 →
  let result :=
    foldl (λ acc resType,
      match collector.resourceMapping !! resType with
      | None => acc
      | Some gvr =>
        match collectResource gvr with
        | inl err => acc
        | inr resources => foldl (collector.keep cfg) acc resources
        end
      end) acc resTypes in
  result.1 = acc.1 ++ (resTypes ≫= collected_of collectResource cfg)
  ∧ result.2 = named_namespaces result.1.
Proof.
  revert acc. induction resTypes as [|resType resTypes IH]; intros acc Hacc.
  - simpl. by rewrite app_nil_r.
  - cbv zeta. rewrite foldl_step. csimpl. unfold collected_of at 1.
    destruct (collector.resourceMapping !! resType) as [gvr|]; [|by apply IH].
    destruct (collectResource gvr) as [err|resources]; [by apply IH|].
    destruct (foldl_keep cfg resources acc Hacc) as [Hkept Hnamespaces].
    cbv zeta in Hkept, Hnamespaces.
    destruct (IH _ Hnamespaces) as [Hresources Hresult]. cbv zeta in Hresources, Hresult.
    split; [|done]. by rewrite Hresources, Hkept, <-app_assoc.
Qed.

(** X19.  [Collect] returns, for the configured resource types in their order,
    the resources of each type in the order of the list call, but for those
    whose namespace is excluded or, with a non-empty allow-list, is not
    allowed.  A type the mapping does not know and a type whose list call
    fails contribute nothing and are no error; a type configured twice is
    collected twice.  The exclusion list counts also for a namespace the
    allow-list names. *)
Theorem Collect_resources ro now clusterName collectResource cfg :
  Resources (collector.Collect ro now clusterName collectResource cfg)
  = config.ResourceTypes (config.Snapshot cfg) ≫= (λ resType,
      match collector.resourceMapping !! resType with
      | None => []
      | Some gvr =>
        match collectResource gvr with
        | inl _ => []
        | inr resources =>
            filter (λ res,
                (Namespace res ∉ config.ExcludeNamespaces (config.Snapshot cfg))
                ∧ (config.Namespaces (config.Snapshot cfg) = []
                   ∨ Namespace res ∈ config.Namespaces (config.Snapshot cfg)))
              resources
        end
      end).
Proof.
  unfold collector.Collect.
  destruct (foldl_Collect collectResource cfg
              (config.ResourceTypes (config.Snapshot cfg)) ([], ∅)) as [Hresources _];
    [done|].
  cbv zeta in Hresources.
  destruct (foldl _ _ _) as [resources namespacesSet]. simpl in *. by subst.
Qed.

(** X20.  The metadata [Collect] writes agree with the resources it returns: the
    resource count is their number, and the namespace list names every
    non-empty namespace of a collected resource once, and nothing else; the
    snapshot carries no commit hash yet. *)
Theorem Collect_metadata ro now clusterName collectResource cfg :
  gomap.fair ro →
  let snapshot := collector.Collect ro now clusterName collectResource cfg in
  ResourceCount (Metadata snapshot) = Z.of_nat (length (Resources snapshot))
  ∧ NoDup (Namespaces (Metadata snapshot))
  ∧ (∀ ns, ns ∈ Namespaces (Metadata snapshot) ↔
       ns ≠ "" ∧ ∃ res, res ∈ Resources snapshot ∧ Namespace res = ns)
  ∧ CommitHash (Metadata snapshot) = "".
Proof.
  intros Hro snapshot. subst snapshot. unfold collector.Collect.
  destruct (foldl_Collect collectResource cfg
              (config.ResourceTypes (config.Snapshot cfg)) ([], ∅)) as [_ Hnamespaces];
    [done|].
  cbv zeta in Hnamespaces.
  destruct (foldl _ _ _) as [resources namespacesSet]. simpl in *. subst namespacesSet.
  split; [done|]. split; [|split; [|done]].
  - unfold gomap.range_set. rewrite (Hro _). apply NoDup_elements.
  - intros ns. rewrite (elem_of_range_set ro Hro). unfold named_namespaces.
    rewrite elem_of_list_to_set, list_elem_of_filter, list_elem_of_fmap.
    split; intros [Hne (res & ? & ?)]; eauto.
Qed.

Lemma Collect_metadata_witness :
  let snapshot :=
    collector.Collect reverse 7 "test-cluster" example_cluster
      (example_collector_config []) in
  ResourceCount (Metadata snapshot) = Z.of_nat (length (Resources snapshot))
  ∧ NoDup (Namespaces (Metadata snapshot))
  ∧ (∀ ns, ns ∈ Namespaces (Metadata snapshot) ↔
       ns ≠ "" ∧ ∃ res, res ∈ Resources snapshot ∧ Namespace res = ns)
  ∧ CommitHash (Metadata snapshot) = "".
Proof.
  apply (Collect_metadata reverse 7 "test-cluster" example_cluster
           (example_collector_config []) fair_reverse).
Defined.

(** ** pkg/snapshotter: file names *)

Lemma sanitizeFilename_unchanged (name : string) :
  Forall (λ a, a ∉ snapshotter.invalid_in_filename) (String.list_ascii_of_string name) →
  snapshotter.sanitizeFilename name = name.
Proof.
  induction name as [|a name IH]; [done|]. simpl.
  intros [Ha Hname]%Forall_cons. rewrite bool_decide_eq_false_2 by done.
  by rewrite IH.
Qed.

Lemma sanitizeFilename_valid (name : string) :
  Forall (λ a, a ∉ snapshotter.invalid_in_filename)
    (String.list_ascii_of_string (snapshotter.sanitizeFilename name)).
Proof.
  induction name as [|a name IH]; [constructor|]. simpl.
  constructor; [|done]. case_bool_decide as Ha; [|done].
  apply (bool_decide_unpack _). by vm_compute.
Qed.

(** X21.  [sanitizeFilename] returns a name of the same length that holds none of
    the nine characters it replaces; it changes a character only where the
    name holds one of them, so a name without them comes back as it is, and
    so does a name that was sanitized before. *)
Theorem sanitizeFilename_safe (name : string) :
  let safe := snapshotter.sanitizeFilename name in
  String.length safe = String.length name
  ∧ Forall (λ a, a ∉ String.list_ascii_of_string "/\:*?<>|" ++ [Ascii.ascii_of_nat 34])
      (String.list_ascii_of_string safe)
  ∧ (∀ i a, String.get i name = Some a →
       String.get i safe =
         Some (if decide (a ∈ String.list_ascii_of_string "/\:*?<>|"
                                ++ [Ascii.ascii_of_nat 34])
               then "_"%char else a))
  ∧ snapshotter.sanitizeFilename safe = safe.
Proof.
  intros safe. subst safe. split; [|split; [|split]].
  - induction name as [|a name IH]; [done|]. simpl. by rewrite IH.
  - apply sanitizeFilename_valid.
  - induction name as [|a name IH]; intros i b; [done|]. simpl.
    destruct i as [|i]; [|apply IH]. intros [= ->].
    fold snapshotter.invalid_in_filename.
    case_bool_decide; [by rewrite decide_True|by rewrite decide_False].
  - apply sanitizeFilename_unchanged, sanitizeFilename_valid.
Qed.

Example sanitizeFilename_example :
  snapshotter.sanitizeFilename "system:controller:job" = "system_controller_job"
  ∧ snapshotter.sanitizeFilename "a/b" = snapshotter.sanitizeFilename "a:b".
Proof. by vm_compute. Qed.

(** ** pkg/snapshotter: the tree [Write] leaves *)
































(** ** pkg/versioner: a repository the tool has made *)

(** X23.  With no failure reported by the system, [initRepo] opens a repository
    that is there as it is, without moving its HEAD to the configured
    branch.  Where there is none it makes an empty one around the files
    that are there, with HEAD naming the configured branch; the first
    [Commit] then returns a hash when there is a file to commit, and leaves
    the repository on the configured branch with that one commit holding
    the files, so that a later return to the branch finds it.  With no file
    to commit it returns the empty string and no error. *)
Theorem initRepo_first_commit init_fault fault object_id fmt cfg place metadata :
  (∀ op, init_fault op = None) → (∀ op, fault op = None) →
  match place with
  | versioner.Repo repo =>
      versioner.initRepo init_fault cfg place = (None, versioner.Repo repo)
  | _ =>
    let files := match place with versioner.Plain files => files | _ => ∅ end in
    ∃ repo,
      versioner.initRepo init_fault cfg place = (None, versioner.Repo repo)
      ∧ repo = {| git.branches := ∅; git.HEAD := git.OnBranch (config.Branch cfg);
                  git.index := ∅; git.worktree := files |}
      ∧ let result := versioner.Commit fault object_id fmt cfg metadata repo in
        (files = ∅ → result.1 = ("", None))
        ∧ (files ≠ ∅ →
           result.1.1 ≠ "" ∧ result.1.2 = None ∧ on_branch cfg result.2
           ∧ ∃ c, reachable result.2 = [c] ∧ git.CommitTree c = files
                  ∧ result.1.1 = git.Hash_String (git.CommitId c))
  end.
Proof.
  intros Hinit Hfault.
  assert (∀ files,
    let repo := {| git.branches := ∅; git.HEAD := git.OnBranch (config.Branch cfg);
                   git.index := ∅; git.worktree := files |} in
    let result := versioner.Commit fault object_id fmt cfg metadata repo in
    (files = ∅ → result.1 = ("", None))
    ∧ (files ≠ ∅ →
       result.1.1 ≠ "" ∧ result.1.2 = None ∧ on_branch cfg result.2
       ∧ ∃ c, reachable result.2 = [c] ∧ git.CommitTree c = files
              ∧ result.1.1 = git.Hash_String (git.CommitId c))) as Hcommit.
  { intros files repo result. subst result repo.
    unfold versioner.Commit, git.Worktree, git.AddAll, git.StatusIsClean, git.CommitIndex,
      git.CommitObject.
    rewrite !Hfault. cbn [git.index git.worktree git.HEAD git.branches].
    unfold git.head_tree, git.head_history. cbn [git.HEAD git.branches].
    rewrite lookup_empty. split.
    - intros ->. by rewrite bool_decide_eq_true_2.
    - intros Hfiles. rewrite bool_decide_eq_false_2 by (intros [? _]; done).
      cbn [default head fmap option_fmap option_map].
      set (c := {| git.CommitId := _ |}).
      assert (git.find_history (λ c', bool_decide (git.CommitId c' = git.CommitId c))
                {| git.branches := <[config.Branch cfg := [c]]> ∅;
                   git.HEAD := git.OnBranch (config.Branch cfg);
                   git.index := files; git.worktree := files |} = Some [c]) as Hfind.
      { unfold git.find_history, git.histories. cbn [git.HEAD git.branches].
        rewrite insert_empty, map_to_list_singleton. simpl.
        by rewrite bool_decide_eq_true_2. }
      cbn [git.CommitId] in Hfind |- *. rewrite Hfind. cbn [fst snd].
      split; [apply Hash_String_nonempty|]. split; [done|]. split.
      + split; [done|]. exists c, []. cbn [git.branches git.index git.worktree].
        by rewrite lookup_insert_eq.
      + exists c. unfold reachable, git.head_history. cbn [git.HEAD git.branches].
        by rewrite lookup_insert_eq. }
  unfold versioner.initRepo, versioner.PlainOpen, versioner.PlainInit.
  rewrite !Hinit.
  assert (∀ files,
    (if bool_decide (config.Branch cfg ≠ "master")
     then {| git.branches := ∅; git.HEAD := git.OnBranch (config.Branch cfg);
             git.index := ∅; git.worktree := files |}
     else {| git.branches := ∅; git.HEAD := git.OnBranch "master";
             git.index := ∅; git.worktree := files |})
    = {| git.branches := ∅; git.HEAD := git.OnBranch (config.Branch cfg);
         git.index := ∅; git.worktree := files |}) as Hbranch.
  { intros files. case_bool_decide as Hmaster; [done|].
    by rewrite Hmaster. }
  destruct place as [|files|repo]; [| |done].
  - cbn. rewrite (Hbranch ∅). eexists. split; [done|]. split; [done|]. apply Hcommit.
  - cbn. rewrite (Hbranch files). eexists. split; [done|]. split; [done|]. apply Hcommit.
Qed.

Lemma initRepo_first_commit_witness :
  ∃ repo,
    versioner.initRepo no_fault example_config (versioner.Plain (example_tree "replicas: 3"))
      = (None, versioner.Repo repo)
    ∧ git.HEAD repo = git.OnBranch "main"
    ∧ on_branch example_config
        (versioner.Commit no_fault example_object_id example_format example_config
           (example_capture 1000) repo).2.
Proof.
  destruct (initRepo_first_commit no_fault no_fault example_object_id example_format
              example_config (versioner.Plain (example_tree "replicas: 3"))
              (example_capture 1000)) as (repo & Hinit & -> & _ & Hcommit); [done..|].
  eexists. split; [exact Hinit|]. split; [done|].
  apply Hcommit. apply (bool_decide_unpack _). by vm_compute.
Defined.

(** ** pkg/snapshotter: reading back what was written *)











#[local] Opaque filepath.Walk.









(** A marshaller and a parser that agree on the resources of the
    examples. *)
Definition example_unmarshal_metadata (data : string) : os.error + SnapshotMetadata :=
  if decide (data = "commit: target") then inr (example_metadata "target")
  else inl "cannot unmarshal".

Definition example_unmarshal_resource (data : string) : os.error + Resource :=
  if decide (data = "name: nginx") then inr (deployment "nginx" None None)
  else if decide (data = "name: admin") then inr (cluster_role "admin")
  else inl "cannot unmarshal".


Example Read_example :
  snapshotter.Read no_fault no_fault example_unmarshal_metadata example_unmarshal_resource
    (snapshotter.Write no_fault example_marshal_metadata example_marshal_raw
       example_marshal_resource
       {| Metadata := example_metadata "target";
          Resources := [ deployment "nginx" None None; cluster_role "admin" ] |}
       example_output_dir).2
  = inr {| Metadata :=
             {| Timestamp := 0; ClusterName := "test-cluster"; Context := "test-context";
                ResourceCount := 2; Namespaces := ["default"]; CommitHash := "target" |};
           Resources := [ cluster_role "admin"; deployment "nginx" None None ] |}.
Proof. vm_compute. reflexivity. Qed.

(** ** pkg/collector: the resources made of the listed objects *)

Lemma cleanAnnotations_not_noisy ro (annotations : option (gmap string string)) (k : string) :
  k ∈ collector.noisy → gomap.index (collector.cleanAnnotations ro annotations) k = None.
Proof.
  intros Hk. destruct annotations as [a|]; [|done]. unfold collector.cleanAnnotations.
  case_bool_decide; [done|]. simpl.
  rewrite (foldl_cleanAnnotations a) by (intros k' v; apply elem_of_range).
  rewrite decide_False by tauto. apply lookup_empty.
Qed.

Lemma cleanAnnotations_not_empty ro (annotations : option (gmap string string)) :
  collector.cleanAnnotations ro annotations ≠ Some ∅.
Proof.
  destruct annotations as [a|]; [|done]. unfold collector.cleanAnnotations. cbv zeta.
  match goal with
  | |- context [bool_decide (gomap.len ?m = 0)] => generalize m
  end.
  intros cleaned. case_bool_decide as Hlen; [done|]. intros [= ->]. apply Hlen.
  unfold gomap.len. by rewrite map_size_empty.
Qed.

(** X25.  [collectResource] returns the error of a failed list call under the
    name of the resource type.  Otherwise it returns one resource per
    listed object, in the order of the list: its raw object is the object
    after [stripFields], so without [status] when [.status] is configured;
    its spec and data are the maps the object holds at [spec] and [data],
    which stripping never changes; its annotations hold no noisy key and
    are never an empty map; and its identity is read from the stripped
    object. *)
Theorem collectResource_normalized ro cfg list_items
    GetAPIVersion GetKind GetNamespace GetName GetLabels GetAnnotations gvr :
  let collected :=
    collector.collectResource ro cfg list_items GetAPIVersion GetKind GetNamespace
      GetName GetLabels GetAnnotations gvr in
  match list_items gvr with
  | inl err =>
      collected = inl ("failed to list " +:+ collector.GVResource gvr +:+ ": " +:+ err)
  | inr items =>
      ∃ resources, collected = inr resources
        ∧ Forall2 (λ item res,
            Raw res = Some (collector.stripFields cfg item)
            ∧ (".status" ∈ config.StripFields (config.Snapshot cfg) →
               collector.stripFields cfg item !! "status" = None)
            ∧ Spec res = match item !! "spec" with Some (VMap spec) => spec | _ => None end
            ∧ Data res = match item !! "data" with Some (VMap data) => data | _ => None end
            ∧ Annotations res =
                collector.cleanAnnotations ro (GetAnnotations (collector.stripFields cfg item))
            ∧ (∀ k, k ∈ collector.noisy → gomap.index (Annotations res) k = None)
            ∧ Annotations res ≠ Some ∅
            ∧ Labels res = GetLabels (collector.stripFields cfg item)
            ∧ (APIVersion res, Kind res, Namespace res, Name res) =
                (GetAPIVersion (collector.stripFields cfg item),
                 GetKind (collector.stripFields cfg item),
                 GetNamespace (collector.stripFields cfg item),
                 GetName (collector.stripFields cfg item)))
          items resources
  end.
Proof.
  intros collected. subst collected. unfold collector.collectResource.
  destruct (list_items gvr) as [err|items]; [done|].
  eexists. split; [reflexivity|].
  induction items as [|item items IH] using rev_ind; [constructor|].
  rewrite foldl_app. cbn [foldl]. apply Forall2_app; [exact IH|].
  constructor; [|constructor]. cbn [Raw Spec Data Annotations Labels APIVersion Kind
                                       Namespace Name].
  destruct (foldl_stripFields (config.StripFields (config.Snapshot cfg)) item)
    as (Hother & Hstatus & _).
  fold (collector.stripFields cfg item) in Hother, Hstatus.
  split; [done|]. split; [intros Hin; by rewrite Hstatus, decide_True|].
  split; [by rewrite Hother|]. split; [by rewrite Hother|]. split; [done|].
  split; [intros k; apply cleanAnnotations_not_noisy|].
  split; [apply cleanAnnotations_not_empty|]. done.
Qed.
